(** * Vertex Q2Q: a shallow embedding of [vertex/q2q.py]

    The development follows the layout of the Python module: addresses,
    connection methods, the [Q2Q] protocol instance with its command
    handlers, virtual transports, the certificate store and the service.

    Python objects that are shared and mutated (protocol instances, virtual
    transports, delayed calls) live in a heap of the [World]; methods are
    written in a state-and-exception monad over that world, so that a
    mutation made before an exception is raised stays visible afterwards,
    as it does in Python. *)

From Stdlib Require Import Ascii String DecimalString DecimalN.
From stdpp Require Import gmap strings list fin_maps.

Local Open Scope string_scope.
Local Open Scope list_scope.
Set Warnings "-register-all,-clear-no-such-hyp".

(** ** Python string helpers *)

(** [s.split(sep, 1)]: the part before the first separator and, when there is
    one, the whole remainder after it. *)
Fixpoint str_partition (sep : ascii) (s : string) : option (string * string) :=
  match s with
  | EmptyString => None
  | String c s' =>
      if Ascii.eqb c sep then Some (EmptyString, s')
      else match str_partition sep s' with
           | Some (a, b) => Some (String c a, b)
           | None => None
           end
  end.

Definition split_max1 (sep : ascii) (s : string) : list string :=
  match str_partition sep s with
  | None => [s]
  | Some (a, b) => [a; b]
  end.

(** [s.split(sep)] for a one-character separator; [cur] is the field being
    read. *)
Fixpoint split_from (sep : ascii) (cur s : string) : list string :=
  match s with
  | EmptyString => [cur]
  | String c s' =>
      if Ascii.eqb c sep then cur :: split_from sep EmptyString s'
      else split_from sep (cur +:+ String c EmptyString) s'
  end.

Definition split (sep : ascii) (s : string) : list string :=
  split_from sep EmptyString s.

(** [sep in s] *)
Fixpoint contains (sep : ascii) (s : string) : bool :=
  match s with
  | EmptyString => false
  | String c s' => Ascii.eqb c sep || contains sep s'
  end.

(** [s.startswith(c)] for a one-character prefix. *)
Definition startswith (s : string) (c : ascii) : bool :=
  match s with
  | EmptyString => false
  | String c' _ => Ascii.eqb c' c
  end.

Definition at_sign : ascii := "@"%char.

(** ** Q2QAddress *)

(** [resource] is [None] or a string; Python's truth test treats [None] and
    the empty string alike, equality does not. *)
Record Q2QAddress := mkQ2QAddress {
  domain : string;
  resource : option string
}.

Global Instance Q2QAddress_eq_dec : EqDecision Q2QAddress.
Proof. solve_decision. Defined.

Global Instance Q2QAddress_countable : Countable Q2QAddress :=
  inj_countable' (λ a, (domain a, resource a)) (λ p, mkQ2QAddress p.1 p.2)
    (λ a, match a with mkQ2QAddress _ _ => eq_refl end).

(** Python truthiness of [self.resource]. *)
Definition truthy (r : option string) : bool :=
  match r with
  | Some (String _ _) => true
  | _ => false
  end.

Definition domainAddress (self : Q2QAddress) : Q2QAddress :=
  match resource self with
  | None => self
  | Some _ => mkQ2QAddress (domain self) None
  end.

(** [Q2QAddress.__str__] *)
Definition Q2QAddress_str (self : Q2QAddress) : string :=
  let resource :=
    match resource self with
    | Some r => if truthy (Some r) then r +:+ "@" else ""
    | None => ""
    end in
  resource +:+ domain self.

(** [cls( *args )]: the constructor takes one or two positional arguments;
    any other arity is a [TypeError], rendered as [None]. *)
Definition Q2QAddress_new (args : list string) : option Q2QAddress :=
  match args with
  | [d] => Some (mkQ2QAddress d None)
  | [d; r] => Some (mkQ2QAddress d (Some r))
  | _ => None
  end.

(** [Q2QAddress.fromString] *)
Definition fromString (s : string) : option Q2QAddress :=
  let args := split_max1 at_sign s in
  let args := reverse args in
  Q2QAddress_new args.

(** ** Exceptions and results *)

(** The exception classes of the module and of the libraries it calls.
    [BadCertificateRequest] subclasses [VerifyError] in the source; handlers
    in this file never catch by class, so the two stay separate constructors.
    A Twisted [Failure] is identified with the exception it wraps. *)
Inductive exn :=
| VerifyError
| BadCertificateRequest
| ConnectionError
| AttemptsFailed (failureChain : list exn)
| NoAttemptsMade
| KeyError
| ValueError
| AttributeError
| CertificateError
| AlreadyCalled
| AlreadyCancelled
| ConnectionDone
| ConnectionLost
| ApplicationError (tag : nat).

(** [CONNECTION_DONE] of [twisted.internet.main] *)
Definition CONNECTION_DONE : exn := ConnectionDone.

Inductive Res (A : Type) :=
| Ok (a : A)
| Raise (e : exn).
Arguments Ok {A} a.
Arguments Raise {A} e.

Definition is_Ok {A} (r : Res A) : bool :=
  match r with Ok _ => true | Raise _ => false end.

(** ** Certificates *)

(** What the module reads of an X.509 certificate:
    [getIssuer().commonName] and [getSubject().commonName]. *)
Record Certificate := mkCertificate {
  issuer_commonName : string;
  subject_commonName : string
}.

Global Instance Certificate_eq_dec : EqDecision Certificate.
Proof. solve_decision. Defined.

(** [Q2QAddress.claimedAsIssuerOf] *)
Definition claimedAsIssuerOf (self : Q2QAddress) (cert : Certificate) : bool :=
  bool_decide (issuer_commonName cert = Q2QAddress_str self).

(** [Q2QAddress.claimedAsSubjectOf] *)
Definition claimedAsSubjectOf (self : Q2QAddress) (cert : Certificate) : bool :=
  bool_decide (subject_commonName cert = Q2QAddress_str self).

(** ** Connection methods *)

(** The classes [VirtualMethod], [TCPMethod], [PTCPMethod], [RPTCPMethod]
    and [UnknownMethod] as one tagged union. *)
Inductive Method :=
| VirtualMethod
| TCPMethod (host : string) (port : Z)
| PTCPMethod (host : string) (port : Z)
| RPTCPMethod (host : string) (port : Z)
| UnknownMethod (S : string).

(** The class attribute [relayable]: [False] on [VirtualMethod], [True] on
    [TCPMethod] (inherited by [PTCPMethod] and [RPTCPMethod]) and [True] on
    [UnknownMethod]. *)
Definition relayable (meth : Method) : bool :=
  match meth with
  | VirtualMethod => false
  | TCPMethod _ _ => true
  | PTCPMethod _ _ => true
  | RPTCPMethod _ _ => true
  | UnknownMethod _ => true
  end.

(** ** Heap objects *)

(** References to Python objects. *)
Abbreviation Ref := nat (only parsing).

(** An entry of the listener registry, the tuple
    [(self, theirCert, description)], and its key [(From, protocolName)]. *)
Abbreviation ListenValue := (Ref * Certificate * string)%type (only parsing).
Abbreviation ListenKey := (Q2QAddress * string)%type (only parsing).

(** The per-connection state of a [Q2Q] protocol instance.
    [transport_peerCertificate] is what
    [sslverify.Certificate.peerFromTransport(self.transport)] finds. *)
Record Q2Q := mkQ2Q {
  authorized : bool;
  publicIP : option string;
  hostCertificate : option Certificate;
  transport_peerCertificate : option Certificate;
  connections : gmap string Ref;
  listeningClient : list (ListenKey * ListenValue);
  connectionObservers : list Ref
}.

(** The class attributes, with the containers [connectionMade] creates. *)
Global Instance Q2Q_inhabited : Inhabited Q2Q :=
  populate (mkQ2Q false None None None ∅ [] []).

Record VirtualTransport := mkVirtualTransport {
  vt_q2q : Ref;
  vt_host : Q2QAddress;
  vt_peer : Q2QAddress;
  vt_id : string;
  vt_isClient : bool;
  vt_protocolName : string;
  vt_protocolFactory : Ref;
  vt_protocol : option Ref;
  vt_disconnecting : bool
}.

Global Instance VirtualTransport_inhabited : Inhabited VirtualTransport :=
  populate (mkVirtualTransport 0 (mkQ2QAddress "" None) (mkQ2QAddress "" None)
              "" false "" 0 None false).

(** [_ConnectionWaiter] *)
Record ConnectionWaiter := mkConnectionWaiter {
  cw_From : Q2QAddress;
  cw_to : Q2QAddress;
  cw_protocolName : string;
  cw_protocolFactory : Ref;
  cw_isClient : bool
}.

(** The one function the module ever hands to [reactor.callLater]:
    [self.inboundConnections.pop] applied to [(listenerID, None)]. *)
Inductive DelayedFunc :=
| inboundConnections_pop (listenerID : string).

(** Twisted's [DelayedCall]. *)
Record DelayedCall := mkDelayedCall {
  dc_time : N;
  dc_func : DelayedFunc;
  dc_called : bool;
  dc_cancelled : bool
}.

Global Instance DelayedCall_inhabited : Inhabited DelayedCall :=
  populate (mkDelayedCall 0 (inboundConnections_pop "") true true).

(** [DelayedCall.active()] *)
Definition dc_active (c : DelayedCall) : bool :=
  negb (dc_called c) && negb (dc_cancelled c).

(** [DefaultCertificateStore]: learned self-signed certificates by domain,
    private certificates by subject, and shared secrets by
    [(domain, username)]. *)
Record DefaultCertificateStore := mkDefaultCertificateStore {
  remoteStore : gmap string Certificate;
  localStore : gmap string Certificate;
  users : gmap (string * string) string
}.

(** The state of [Q2QService] that the command handlers touch. *)
Record Q2QService := mkQ2QService {
  certificateStorage : DefaultCertificateStore;
  listeningClients : gmap ListenKey (list ListenValue);
  inboundConnections : gmap string (ConnectionWaiter * Ref);
  _lastConnID : N
}.

(** ** The world *)

(** Calls that leave the module for application code: the protocol and
    factory handed to a virtual transport, and connection observers. *)
Inductive UserCall :=
| protocol_dataReceived (p : Ref) (data : string)
| protocol_connectionLost (p : Ref) (reason : exn)
| protocol_makeConnection (p : Ref) (transport : Ref)
| factory_buildProtocol (f : Ref) (addr : Q2QAddress)
| factory_buildProtocolFor (f : Ref) (transport : Ref)
| factory_clientConnectionLost (f : Ref) (reason : exn)
| observer_call (o : Ref).

(** The trace is the model's record of what was called, in order; it is not
    program state.  [EvConnectionLost] and [EvDataReceived] mark entry into
    the two [VirtualTransport] methods of those names. *)
Inductive Event :=
| EvUser (c : UserCall)
| EvLogErr (e : exn)
| EvJuiceConnectionLost (q : Ref) (reason : exn)
| EvSendCommand (q : Ref) (command : string) (id : string) (body : string)
| EvConnectionLost (v : Ref) (reason : exn)
| EvDataReceived (v : Ref) (data : string).

Record World := mkWorld {
  service : Q2QService;
  q2qs : gmap Ref Q2Q;
  transports : gmap Ref VirtualTransport;
  seconds : N;
  delayedCalls : gmap Ref DelayedCall;
  pendingTimedCalls : list (N * Ref);
  next_ref : Ref;
  user_raises : UserCall → option exn;
  trace : list Event
}.

(** State and exceptions: a computation returns or raises, and in both cases
    hands back the world as it left it. *)
Definition M (A : Type) : Type := World → Res A * World.

Global Instance M_ret : MRet M := λ A a w, (Ok a, w).

Global Instance M_bind : MBind M := λ A B f m w,
  match m w with
  | (Ok a, w') => f a w'
  | (Raise e, w') => (Raise e, w')
  end.

Definition raise {A} (e : exn) : M A := λ w, (Raise e, w).

Definition get_world : M World := λ w, (Ok w, w).

Definition modify (f : World → World) : M unit := λ w, (Ok (), f w).

(** [try: m  except: handler] with a bare [except]. *)
Definition try_except {A} (m : M A) (handler : exn → M A) : M A := λ w,
  match m w with
  | (Ok a, w') => (Ok a, w')
  | (Raise e, w') => handler e w'
  end.

(** [for x in xs: body] *)
Fixpoint for_each {A} (xs : list A) (body : A → M unit) : M unit :=
  match xs with
  | [] => mret ()
  | x :: xs' => body x ;; for_each xs' body
  end.

(** ** Field updates *)

Definition with_connections (f : gmap string Ref → gmap string Ref) (c : Q2Q) : Q2Q :=
  mkQ2Q (authorized c) (publicIP c) (hostCertificate c) (transport_peerCertificate c)
        (f (connections c)) (listeningClient c) (connectionObservers c).

Definition with_listeningClient
  (f : list (ListenKey * ListenValue) → list (ListenKey * ListenValue)) (c : Q2Q) : Q2Q :=
  mkQ2Q (authorized c) (publicIP c) (hostCertificate c) (transport_peerCertificate c)
        (connections c) (f (listeningClient c)) (connectionObservers c).

Definition with_connectionObservers (f : list Ref → list Ref) (c : Q2Q) : Q2Q :=
  mkQ2Q (authorized c) (publicIP c) (hostCertificate c) (transport_peerCertificate c)
        (connections c) (listeningClient c) (f (connectionObservers c)).

Definition with_protocol (p : option Ref) (t : VirtualTransport) : VirtualTransport :=
  mkVirtualTransport (vt_q2q t) (vt_host t) (vt_peer t) (vt_id t) (vt_isClient t)
                     (vt_protocolName t) (vt_protocolFactory t) p (vt_disconnecting t).

Definition with_disconnecting (b : bool) (t : VirtualTransport) : VirtualTransport :=
  mkVirtualTransport (vt_q2q t) (vt_host t) (vt_peer t) (vt_id t) (vt_isClient t)
                     (vt_protocolName t) (vt_protocolFactory t) (vt_protocol t) b.

Definition with_listeningClients
  (f : gmap ListenKey (list ListenValue) → gmap ListenKey (list ListenValue))
  (s : Q2QService) : Q2QService :=
  mkQ2QService (certificateStorage s) (f (listeningClients s)) (inboundConnections s) (_lastConnID s).

Definition with_inboundConnections
  (f : gmap string (ConnectionWaiter * Ref) → gmap string (ConnectionWaiter * Ref))
  (s : Q2QService) : Q2QService :=
  mkQ2QService (certificateStorage s) (listeningClients s) (f (inboundConnections s)) (_lastConnID s).

Definition with_lastConnID (n : N) (s : Q2QService) : Q2QService :=
  mkQ2QService (certificateStorage s) (listeningClients s) (inboundConnections s) n.

Definition with_service (f : Q2QService → Q2QService) (w : World) : World :=
  mkWorld (f (service w)) (q2qs w) (transports w) (seconds w) (delayedCalls w)
          (pendingTimedCalls w) (next_ref w) (user_raises w) (trace w).

Definition with_q2qs (f : gmap Ref Q2Q → gmap Ref Q2Q) (w : World) : World :=
  mkWorld (service w) (f (q2qs w)) (transports w) (seconds w) (delayedCalls w)
          (pendingTimedCalls w) (next_ref w) (user_raises w) (trace w).

Definition with_transports
  (f : gmap Ref VirtualTransport → gmap Ref VirtualTransport) (w : World) : World :=
  mkWorld (service w) (q2qs w) (f (transports w)) (seconds w) (delayedCalls w)
          (pendingTimedCalls w) (next_ref w) (user_raises w) (trace w).

Definition with_seconds (t : N) (w : World) : World :=
  mkWorld (service w) (q2qs w) (transports w) t (delayedCalls w)
          (pendingTimedCalls w) (next_ref w) (user_raises w) (trace w).

Definition with_delayedCalls
  (f : gmap Ref DelayedCall → gmap Ref DelayedCall) (w : World) : World :=
  mkWorld (service w) (q2qs w) (transports w) (seconds w) (f (delayedCalls w))
          (pendingTimedCalls w) (next_ref w) (user_raises w) (trace w).

Definition with_pendingTimedCalls (f : list (N * Ref) → list (N * Ref)) (w : World) : World :=
  mkWorld (service w) (q2qs w) (transports w) (seconds w) (delayedCalls w)
          (f (pendingTimedCalls w)) (next_ref w) (user_raises w) (trace w).

Definition with_next_ref (n : Ref) (w : World) : World :=
  mkWorld (service w) (q2qs w) (transports w) (seconds w) (delayedCalls w)
          (pendingTimedCalls w) n (user_raises w) (trace w).

Definition with_trace (f : list Event → list Event) (w : World) : World :=
  mkWorld (service w) (q2qs w) (transports w) (seconds w) (delayedCalls w)
          (pendingTimedCalls w) (next_ref w) (user_raises w) (f (trace w)).

(** ** Primitive operations on the world *)

(** Attribute reads through a reference. *)
Definition get_q2q (q : Ref) : M Q2Q := λ w, (Ok (q2qs w !!! q), w).

Definition get_transport (v : Ref) : M VirtualTransport :=
  λ w, (Ok (transports w !!! v), w).

Definition get_service : M Q2QService := λ w, (Ok (service w), w).

(** Attribute writes through a reference. *)
Definition update_q2q (q : Ref) (f : Q2Q → Q2Q) : M unit :=
  modify (λ w, with_q2qs (λ h, <[q := f (h !!! q)]> h) w).

Definition update_transport (v : Ref) (f : VirtualTransport → VirtualTransport) : M unit :=
  modify (λ w, with_transports (λ h, <[v := f (h !!! v)]> h) w).

Definition update_service (f : Q2QService → Q2QService) : M unit :=
  modify (with_service f).

(** Object creation takes the next free reference. *)
Definition fresh_ref : M Ref :=
  λ w, (Ok (next_ref w), with_next_ref (S (next_ref w)) w).

Definition emit (e : Event) : M unit := modify (with_trace (λ tr, tr ++ [e])).

(** [log.err] *)
Definition log_err (e : exn) : M unit := emit (EvLogErr e).

(** A call into application code: recorded, then it returns or raises as
    the application decides.  Application code is taken not to reach back
    into the overlay's own state. *)
Definition call_user (c : UserCall) : M unit :=
  emit (EvUser c) ;;
  w ← get_world;
  match user_raises w c with
  | Some e => raise e
  | None => mret ()
  end.

(** [safely(f, *a, **k)] *)
Definition safely (f : M unit) : M unit :=
  try_except f (λ e, log_err e).

(** [sslverify.Certificate.peerFromTransport(proto.transport)]: the helper is
    not part of this module; a transport without a peer certificate makes
    it raise. *)
Definition peerFromTransport (c : Q2Q) : Res Certificate :=
  match transport_peerCertificate c with
  | Some cert => Ok cert
  | None => Raise CertificateError
  end.

Definition lift {A} (r : Res A) : M A := λ w, (r, w).

(** [l.remove(x)]: drops the first element equal to [x]; [None] stands for
    the [ValueError] raised when there is none. *)
Fixpoint list_remove {A} `{EqDecision A} (x : A) (l : list A) : option (list A) :=
  match l with
  | [] => None
  | y :: l' => if decide (y = x) then Some l' else (y ::.) <$> list_remove x l'
  end.

(** [d[k]] on a dictionary. *)
Definition getitem {K A} `{Countable K} (d : gmap K A) (k : K) : M A :=
  match d !! k with
  | Some a => mret a
  | None => raise KeyError
  end.

(** ** Trying connection methods in turn *)

(** [_endeferify].  An element of [funcsAndArgs] is a call ready to be made:
    made, it returns (its Deferred fires) or fails, and may have changed
    the world.  The recursive call of the source passes the iterator
    [stuff], here the remaining list, and the chain of failures so far. *)
Fixpoint _endeferify {A} (funcsAndArgs : list (M A)) (failureChain : option (list exn))
  : M A :=
  let stuff := funcsAndArgs in
  let check_empty :=
    match failureChain with
    | None => bool_decide (length funcsAndArgs = 0)
    | Some _ => false
    end in
  let failureChain := default [] failureChain in
  if check_empty then raise NoAttemptsMade
  else
    match stuff with
    | [] => raise (AttemptsFailed failureChain)
    | function :: stuff =>
        try_except function
          (λ f, _endeferify stuff (Some (failureChain ++ [f])))
    end.

(** ** Q2Q: certificate checks *)

(** [Q2Q.verifyCertificateAllowed].  The two successful exits of the source
    are [return True] and a bare [return]. *)
Definition verifyCertificateAllowed (self : Q2Q) (ourAddress theirAddress : Q2QAddress)
  : Res (option bool) :=
  if negb (authorized self) then
    if bool_decide (domain theirAddress = "") then Ok (Some true)
    else Raise VerifyError
  else
    match peerFromTransport self with
    | Raise e => Raise e
    | Ok peerCert =>
        match hostCertificate self with
        | None => Raise AttributeError
        | Some ourCert =>
            let ourClaimedDomain := domainAddress ourAddress in
            let theirClaimedDomain := domainAddress theirAddress in
            if negb (claimedAsIssuerOf ourClaimedDomain ourCert) then Raise VerifyError
            else if claimedAsIssuerOf theirClaimedDomain peerCert then
              if claimedAsSubjectOf theirAddress peerCert
                 || claimedAsSubjectOf theirClaimedDomain peerCert
              then Ok None
              else Raise VerifyError
            else if claimedAsIssuerOf ourClaimedDomain peerCert then Ok None
            else if claimedAsIssuerOf ourAddress peerCert then Ok None
            else Raise VerifyError
        end
    end.

(** ** Q2Q: relaying INBOUND replies *)

(** One element of the [listeners] list of an INBOUND response. *)
Record ListenerInfo := mkListenerInfo {
  li_id : string;
  li_certificate : option Certificate;
  li_methods : list Method;
  li_expires : N;
  li_description : string
}.

(** [Q2Q._massageClientInboundResponse]: [irl] is
    [inboundResponse['listeners']], [listener] the connection the INBOUND
    was forwarded to, [result] the list being filled; the list as left
    behind is returned with the outcome. *)
Fixpoint _massageClientInboundResponse
  (irl : list ListenerInfo) (listener : Q2Q) (result : list ListenerInfo)
  : Res unit * list ListenerInfo :=
  match irl with
  | [] => (Ok (), result)
  | listenerInfo :: irl =>
      let methods := filter (λ meth, relayable meth = true) (li_methods listenerInfo) in
      match methods with
      | [] => _massageClientInboundResponse irl listener result
      | _ :: _ =>
          match peerFromTransport listener with
          | Raise e => (Raise e, result)
          | Ok allowedCertificate =>
              let listenerInfo :=
                mkListenerInfo (li_id listenerInfo) (Some allowedCertificate) methods
                               (li_expires listenerInfo) (li_description listenerInfo) in
              _massageClientInboundResponse irl listener (result ++ [listenerInfo])
          end
      end
  end.

(** ** VirtualTransport *)

(** [VirtualTransport.__init__].  The flow-control registration done by
    [SubProducer.__init__] is outside this model. *)
Definition VirtualTransport_init
  (q2q : Ref) (hostAddress peerAddress : Q2QAddress) (protocolName connectionID : string)
  (protocolFactory : Ref) (isClient : bool) : M Ref :=
  self ← fresh_ref;
  modify (with_transports
            (<[self := mkVirtualTransport q2q hostAddress peerAddress connectionID
                         isClient protocolName protocolFactory None false]>)) ;;
  update_q2q q2q (with_connections (<[connectionID := self]>)) ;;
  mret self.

(** [VirtualTransport.startProtocol] *)
Definition startProtocol (self : Ref) : M Ref :=
  t ← get_transport self;
  call_user (factory_buildProtocol (vt_protocolFactory t) (vt_peer t)) ;;
  p ← fresh_ref;
  update_transport self (with_protocol (Some p)) ;;
  call_user (protocol_makeConnection p self) ;;
  mret p.

(** [VirtualTransport.connectionLost].  [del d[k]] raises [KeyError] when
    the key is absent; reading [self.protocol] before [startProtocol] has
    set it raises [AttributeError]. *)
Definition VirtualTransport_connectionLost (self : Ref) (reason : exn) : M unit :=
  emit (EvConnectionLost self reason) ;;
  t ← get_transport self;
  c ← get_q2q (vt_q2q t);
  getitem (connections c) (vt_id t) ;;
  update_q2q (vt_q2q t) (with_connections (delete (vt_id t))) ;;
  match vt_protocol t with
  | None => raise AttributeError
  | Some p => call_user (protocol_connectionLost p reason)
  end ;;
  if vt_isClient t
  then call_user (factory_clientConnectionLost (vt_protocolFactory t) reason)
  else mret ().

(** [VirtualTransport.dataReceived] *)
Definition VirtualTransport_dataReceived (self : Ref) (data : string) : M unit :=
  emit (EvDataReceived self data) ;;
  t ← get_transport self;
  try_except
    match vt_protocol t with
    | None => raise AttributeError
    | Some p => call_user (protocol_dataReceived p data)
    end
    (λ reason, log_err reason ;; VirtualTransport_connectionLost self reason).

(** [VirtualTransport.write] *)
Definition VirtualTransport_write (self : Ref) (data : string) : M unit :=
  t ← get_transport self;
  emit (EvSendCommand (vt_q2q t) "write" (vt_id t) data).

(** [VirtualTransport.loseConnection] up to the sending of CLOSE ... *)
Definition loseConnection (self : Ref) : M unit :=
  update_transport self (with_disconnecting true) ;;
  t ← get_transport self;
  emit (EvSendCommand (vt_q2q t) "close" (vt_id t) "").

(** ... and the two callbacks it attaches, run when the answer arrives. *)
Definition loseConnection_answered (self : Ref) (answer : Res unit) : M unit :=
  match answer with
  | Ok _ => VirtualTransport_connectionLost self CONNECTION_DONE
  | Raise reason => VirtualTransport_connectionLost self reason
  end.

(** ** Q2Q: connection loss, LISTEN, WRITE and CLOSE *)

(** [Q2Q.notifyOnConnectionLost] *)
Definition notifyOnConnectionLost (self : Ref) (observer : Ref) : M unit :=
  update_q2q self (with_connectionObservers (λ l, l ++ [observer])).

(** [Q2Q.connectionLost].  [self.connections.values()] is a list built
    before the loop starts; [producingTransports] belongs to the
    flow-control layer and is not modelled. *)
Definition Q2Q_connectionLost (self : Ref) (reason : exn) : M unit :=
  emit (EvJuiceConnectionLost self reason) ;;
  c ← get_q2q self;
  for_each (listeningClient c) (λ '(key, value),
    s ← get_service;
    l ← getitem (listeningClients s) key;
    match list_remove value l with
    | None => raise ValueError
    | Some l' => update_service (with_listeningClients (<[key := l']>))
    end) ;;
  update_q2q self (with_listeningClient (λ _, [])) ;;
  c ← get_q2q self;
  for_each (map_to_list (connections c)).*2 (λ xport,
    safely (VirtualTransport_connectionLost xport reason)) ;;
  for_each (connectionObservers c) (λ observer,
    safely (call_user (observer_call observer))).

(** [Q2Q.command_LISTEN]; the empty dictionary it returns is [()]. *)
Definition command_LISTEN
  (self : Ref) (protocols : list string) (From : Q2QAddress) (description : string)
  : M unit :=
  c ← get_q2q self;
  lift (verifyCertificateAllowed c From From) ;;
  theirCert ← lift (peerFromTransport c);
  for_each protocols (λ protocolName,
    if startswith protocolName "." then raise VerifyError
    else
      let key := (From, protocolName) in
      let value := (self, theirCert, description) in
      update_q2q self (with_listeningClient (λ l, l ++ [(key, value)])) ;;
      update_service
        (with_listeningClients (λ d, <[key := default [] (d !! key) ++ [value]]> d))) ;;
  mret ().

(** A Juice box: a dictionary of headers, the body under [BODY]. *)
Abbreviation Box := (gmap string string) (only parsing).

Definition BODY : string := "body".

(** [Q2Q.juice_WRITE] *)
Definition juice_WRITE (self : Ref) (box : Box) : M Box :=
  c ← get_q2q self;
  id ← getitem box "id";
  connection ← getitem (connections c) id;
  data ← getitem box BODY;
  VirtualTransport_dataReceived connection data ;;
  mret ∅.

(** [Q2Q.juice_CLOSE] *)
Definition juice_CLOSE (self : Ref) (box : Box) : M Box :=
  c ← get_q2q self;
  id ← getitem box "id";
  connection ← getitem (connections c) id;
  VirtualTransport_connectionLost connection CONNECTION_DONE ;;
  mret ∅.

(** ** The reactor's timed calls *)

(** Twisted keeps pending calls ordered by due time; a call is placed
    after those due no later than itself. *)
Fixpoint enqueue (t : N) (h : Ref) (q : list (N * Ref)) : list (N * Ref) :=
  match q with
  | [] => [(t, h)]
  | (t', h') :: q' =>
      if decide (t' ≤ t)%N then (t', h') :: enqueue t h q' else (t, h) :: q
  end.

(** [reactor.callLater(delay, func)] *)
Definition callLater (delay : N) (func : DelayedFunc) : M Ref :=
  call ← fresh_ref;
  w ← get_world;
  let time := (seconds w + delay)%N in
  modify (with_delayedCalls (<[call := mkDelayedCall time func false false]>)) ;;
  modify (with_pendingTimedCalls (enqueue time call)) ;;
  mret call.

(** [DelayedCall.cancel]; the reactor drops a cancelled call when it
    reaches it. *)
Definition DelayedCall_cancel (call : Ref) : M unit :=
  w ← get_world;
  let c := delayedCalls w !!! call in
  if dc_cancelled c then raise AlreadyCancelled
  else if dc_called c then raise AlreadyCalled
  else modify (with_delayedCalls
                 (<[call := mkDelayedCall (dc_time c) (dc_func c) (dc_called c) true]>)).

(** Running the function of a delayed call: [d.pop(listenerID, None)]
    removes the key when present and never raises. *)
Definition apply_delayed (func : DelayedFunc) : M unit :=
  match func with
  | inboundConnections_pop listenerID =>
      update_service (with_inboundConnections (delete listenerID))
  end.

Definition run_delayed (call : Ref) : M unit :=
  w ← get_world;
  let c := delayedCalls w !!! call in
  if dc_cancelled c then mret ()
  else
    modify (with_delayedCalls
              (<[call := mkDelayedCall (dc_time c) (dc_func c) true (dc_cancelled c)]>)) ;;
    safely (apply_delayed (dc_func c)).

(** [reactor.runUntilCurrent]: every pending call that is due leaves the
    queue and, unless cancelled, runs. *)
Definition runUntilCurrent : M unit :=
  w ← get_world;
  let due := filter (λ p, (p.1 ≤ seconds w)%N) (pendingTimedCalls w) in
  modify (with_pendingTimedCalls (filter (λ p, ¬ (p.1 ≤ seconds w)%N))) ;;
  for_each due (λ p, run_delayed p.2).

(** The clock moves on by [dt] seconds and the reactor turns. *)
Definition advance (dt : N) : M unit :=
  modify (λ w, with_seconds (seconds w + dt)%N w) ;;
  runUntilCurrent.

(** ** Q2QService: reservations *)

(** [_ConnectionWaiter.createProtocolWithTransport]: the factory is given
    [transport.getPeer()]. *)
Definition createProtocolWithTransport (self : ConnectionWaiter) (transport : Ref) : M Ref :=
  call_user (factory_buildProtocolFor (cw_protocolFactory self) transport) ;;
  prot ← fresh_ref;
  mret prot.

(** [Q2QService.protocolAndAuthFromId], by which a direct connection claims
    its reservation; without one the method falls off its end and returns
    [None]. *)
Definition protocolAndAuthFromId (id : string) (tpt : Ref)
  : M (option (Ref * Q2QAddress * Q2QAddress)) :=
  s ← get_service;
  match inboundConnections s !! id with
  | Some (cwait, call) =>
      update_service (with_inboundConnections (delete id)) ;;
      proto ← createProtocolWithTransport cwait tpt;
      DelayedCall_cancel call ;;
      mret (Some (proto, cw_to cwait, cw_From cwait))
  | None => mret None
  end.

(** [str(n)] for a non-negative integer. *)
Definition str_of_N (n : N) : string := NilEmpty.string_of_uint (N.to_uint n).

(** [Q2QService._nextConnectionID] *)
Definition _nextConnectionID (From to : Q2QAddress) : M string :=
  s ← get_service;
  let lcid := _lastConnID s in
  update_service (with_lastConnID (lcid + 1)%N) ;;
  let fmt := Q2QAddress_str From +:+ "->" +:+ Q2QAddress_str to +:+ ":" +:+ str_of_N lcid in
  mret fmt.

(** [Q2QService.mapListener]; [expires] is [call.getTime()]. *)
Definition mapListener
  (to From : Q2QAddress) (protocolName : string) (protocolFactory : Ref) (isClient : bool)
  : M (N * string) :=
  listenerID ← _nextConnectionID From to;
  call ← callLater 120 (inboundConnections_pop listenerID);
  w ← get_world;
  let expires := dc_time (delayedCalls w !!! call) in
  update_service
    (with_inboundConnections
       (<[listenerID := (mkConnectionWaiter From to protocolName protocolFactory isClient,
                         call)]>)) ;;
  mret (expires, listenerID).

(** [Q2QService.stopService], as far as reservations go: every timer is
    cancelled and the table is cleared.  What follows in the method stops
    ports and caches, which are not part of this model. *)
Definition stopService : M unit :=
  s ← get_service;
  for_each (map_to_list (inboundConnections s)).*2
    (λ '(cwait, delayed), DelayedCall_cancel delayed) ;;
  update_service (with_inboundConnections (λ _, ∅)).

(** [Q2Q.command_VIRTUAL]; the dictionary it returns holds the new
    transport under [__transport__]. *)
Definition command_VIRTUAL (self : Ref) (id : string) : M Ref :=
  s ← get_service;
  '(cwait, call) ← getitem (inboundConnections s) id;
  update_service (with_inboundConnections (delete id)) ;;
  DelayedCall_cancel call ;;
  tpt ← VirtualTransport_init self (cw_to cwait) (cw_From cwait) (cw_protocolName cwait)
          id (cw_protocolFactory cwait) false;
  mret tpt.

(** ** Certificate store and SIGN *)

(** A distinguished name is a dictionary from field names to values; a
    certificate request carries one as its subject. *)
Abbreviation DistinguishedName := (gmap string string) (only parsing).

Record CertificateRequest := mkCertificateRequest {
  getSubject : DistinguishedName
}.

(** [DefaultCertificateStore.getPrivateCertificate] *)
Definition getPrivateCertificate (self : DefaultCertificateStore) (domainName : string)
  : Res Certificate :=
  match localStore self !! domainName with
  | Some cert => Ok cert
  | None => Raise KeyError
  end.

(** [DefaultCertificateStore.checkUser]: the Deferred it returns has fired
    with [True] or failed with [KeyError]. *)
Definition checkUser (self : DefaultCertificateStore) (domain username privateSecret : string)
  : Res bool :=
  if decide (users self !! (domain, username) ≠ Some privateSecret)
  then Raise KeyError
  else Ok true.

(** [Q2QService.checkPrivateSecret] *)
Definition checkPrivateSecret (self : Q2QService) (username domain privateSecret : string)
  : Res bool :=
  checkUser (certificateStorage self) domain username privateSecret.

(** The [errors] table of the [Sign] command: the error code sent to the
    peer for an exception; an exception without an entry is not a declared
    outcome of the command. *)
Definition Sign_errors (e : exn) : option string :=
  match e with
  | KeyError => Some "NoSuchUser"
  | BadCertificateRequest => Some "BadCertificateRequest"
  | _ => None
  end.

Section Signing.

(** Signing and serial numbers are the business of [sslverify] and [md5]:
    [ourCert.signRequestObject(request, serial)] and
    [DefaultCertificateStore.genSerial(name)]. *)
Variable signRequestObject : Certificate → CertificateRequest → N → Certificate.
Variable genSerial : string → N.

(** [Q2Q.command_SIGN].  Unpacking [username, domain = ...] raises
    [ValueError] unless the split yields exactly two parts. *)
Definition command_SIGN (self : Ref) (certificate_request : CertificateRequest)
  (password : string) : M Certificate :=
  let subj := getSubject certificate_request in
  if decide ((map_to_list subj).*1 ≠ ["CN"]) then raise BadCertificateRequest
  else
    commonName ← getitem subj "CN";
    match split at_sign commonName with
    | [username; domain] =>
        s ← get_service;
        let CS := certificateStorage s in
        ourCert ← lift (getPrivateCertificate CS domain);
        lift (checkPrivateSecret s username domain password) ;;
        let newCert := signRequestObject ourCert certificate_request (genSerial domain) in
        mret newCert
    | _ => raise ValueError
    end.

End Signing.

(** ** Specification vocabulary *)

(** Addresses that can be read back from their textual form: without a
    resource the domain holds no at-sign; with one, the resource is not
    empty and holds no at-sign. *)
Definition parseable (a : Q2QAddress) : Prop :=
  match resource a with
  | None => contains at_sign (domain a) = false
  | Some r => r ≠ "" ∧ contains at_sign r = false
  end.

(** The authorization rule in the words of the specification: the peer is
    anonymous on a connection that is not authorized; or the connection is
    authorized, our domain issued the certificate we presented, and one of
    three alternatives holds for the peer certificate. *)
Definition spec_certificate_allowed
  (self : Q2Q) (ourCert peerCert : Certificate) (ourAddr theirAddr : Q2QAddress) : Prop :=
  (domain theirAddr = "" ∧ authorized self = false)
  ∨ (authorized self = true
     ∧ issuer_commonName ourCert = domain ourAddr
     ∧ ((issuer_commonName peerCert = domain theirAddr
         ∧ (subject_commonName peerCert = Q2QAddress_str theirAddr
            ∨ subject_commonName peerCert = domain theirAddr))
        ∨ issuer_commonName peerCert = domain ourAddr
        ∨ issuer_commonName peerCert = Q2QAddress_str ourAddr)).

(** The rule the code applies: the second and third alternative are only
    consulted when the peer's claimed domain did not issue its certificate. *)
Definition certificate_allowed
  (self : Q2Q) (ourCert peerCert : Certificate) (ourAddr theirAddr : Q2QAddress) : Prop :=
  (domain theirAddr = "" ∧ authorized self = false)
  ∨ (authorized self = true
     ∧ issuer_commonName ourCert = domain ourAddr
     ∧ ((issuer_commonName peerCert = domain theirAddr
         ∧ (subject_commonName peerCert = Q2QAddress_str theirAddr
            ∨ subject_commonName peerCert = domain theirAddr))
        ∨ (issuer_commonName peerCert ≠ domain theirAddr
           ∧ (issuer_commonName peerCert = domain ourAddr
              ∨ issuer_commonName peerCert = Q2QAddress_str ourAddr)))).

(** A secured connection of the server for [divmod.com] whose peer holds a
    certificate that [divmod.com] issued to [bob@divmod.com]. *)
Definition divmod_server_conn : Q2Q :=
  mkQ2Q true None
        (Some (mkCertificate "divmod.com" "divmod.com"))
        (Some (mkCertificate "divmod.com" "bob@divmod.com"))
        ∅ [] [].

(** Relayable methods in the words of the specification: only TCP, PTCP and
    RPTCP. *)
Definition spec_relayable (meth : Method) : bool :=
  match meth with
  | TCPMethod _ _ | PTCPMethod _ _ | RPTCPMethod _ _ => true
  | VirtualMethod | UnknownMethod _ => false
  end.

(** What relaying makes of one listener entry when the listening client's
    peer certificate is [cert]: nothing if no method is relayable,
    otherwise the entry with the surviving methods and [cert]. *)
Definition relayed (cert : Certificate) (li : ListenerInfo) : option ListenerInfo :=
  match filter (λ meth, relayable meth = true) (li_methods li) with
  | [] => None
  | meth :: methods =>
      Some (mkListenerInfo (li_id li) (Some cert) (meth :: methods)
                           (li_expires li) (li_description li))
  end.

(** A listening client whose TLS peer certificate is that of
    [radix@twistedmatrix.com]. *)
Definition radix_listener : Q2Q :=
  mkQ2Q true None
        (Some (mkCertificate "twistedmatrix.com" "twistedmatrix.com"))
        (Some (mkCertificate "twistedmatrix.com" "radix@twistedmatrix.com"))
        ∅ [] [].

(** Making the calls of [fs] one after the other, each one failing: the
    failures in order and the world after the last call; [None] as soon as
    one of them succeeds. *)
Fixpoint all_fail {A} (fs : list (M A)) (w : World) : option (list exn * World) :=
  match fs with
  | [] => Some ([], w)
  | f :: fs' =>
      match f w with
      | (Ok _, _) => None
      | (Raise e, w') =>
          match all_fail fs' w' with
          | Some (es, w'') => Some (e :: es, w'')
          | None => None
          end
      end
  end.

(** A service that has just been created, at time zero, whose application
    code never raises: [_lastConnID] starts at 1. *)
Definition initial_world : World :=
  mkWorld (mkQ2QService (mkDefaultCertificateStore ∅ ∅ ∅) ∅ ∅ 1)
          ∅ ∅ 0 ∅ [] 0 (λ _, None) [].

(** The world after [self] has been registered as listener for one more
    protocol name: one entry more in its own list and in the service's
    registry. *)
Definition register_listener
  (self : Ref) (From : Q2QAddress) (theirCert : Certificate) (description : string)
  (w : World) (protocolName : string) : World :=
  let key := (From, protocolName) in
  let value := (self, theirCert, description) in
  with_service
    (with_listeningClients (λ d, <[key := default [] (d !! key) ++ [value]]> d))
    (with_q2qs
       (λ h, <[self := with_listeningClient (λ l, l ++ [(key, value)]) (h !!! self)]> h) w).

(** The world of [initial_world] with one connection, number 0: the
    secured connection of [divmod_server_conn]. *)
Definition divmod_world : World :=
  with_q2qs (λ _, {[ 0 := divmod_server_conn ]}) initial_world.

(** The world with more events on its trace. *)
Definition logged (events : list Event) (w : World) : World :=
  with_trace (λ tr, tr ++ events) w.

(** How handing [data] to the protocol of channel [v] fails, if it does:
    there is no protocol yet, or the protocol's [dataReceived] raises. *)
Definition dataReceived_failure (w : World) (v : Ref) (data : string) : option exn :=
  match vt_protocol (transports w !!! v) with
  | None => Some AttributeError
  | Some p => user_raises w (protocol_dataReceived p data)
  end.

(** What [VirtualTransport.dataReceived] puts on the trace before it
    returns or turns to [connectionLost]. *)
Definition dataReceived_events (w : World) (v : Ref) (data : string) : list Event :=
  EvDataReceived v data ::
  match vt_protocol (transports w !!! v) with
  | None => []
  | Some p => [EvUser (protocol_dataReceived p data)]
  end.

(** A WRITE box for channel [id]. *)
Definition write_box (id data : string) : gmap string string :=
  <["id" := id]> (<[BODY := data]> ∅).

(** [divmod_world] after the server has opened a virtual channel on
    connection 0 (the transport is object 0), without and with its
    protocol started (the protocol is object 1). *)
Definition unstarted_channel_world : World :=
  (VirtualTransport_init 0 (mkQ2QAddress "divmod.com" (Some "radix"))
     (mkQ2QAddress "divmod.com" (Some "bob")) "q2q-example"
     "bob@divmod.com->radix@divmod.com:1" 7 false divmod_world).2.

Definition channel_world : World := (startProtocol 0 unstarted_channel_world).2.

(** ** What can happen to a world *)

(** The entry points through which the reactor and the peers drive the
    model: commands and frames arriving on a connection, answers to CLOSE,
    loss of a connection, a direct connection claiming its reservation,
    the passing of time, the service stopping, and the calls the service
    and the connection methods make on behalf of the application. *)
Inductive Op :=
| OpMapListener (to From : Q2QAddress) (protocolName : string) (protocolFactory : Ref)
                (isClient : bool)
| OpAdvance (dt : N)
| OpVirtual (self : Ref) (id : string)
| OpNewTransport (q2q : Ref) (hostAddress peerAddress : Q2QAddress)
                 (protocolName connectionID : string) (protocolFactory : Ref)
                 (isClient : bool)
| OpStartProtocol (v : Ref)
| OpWrite (self : Ref) (box : gmap string string)
| OpClose (self : Ref) (box : gmap string string)
| OpLoseConnection (v : Ref)
| OpCloseAnswered (v : Ref) (answer : Res unit)
| OpConnectionLost (self : Ref) (reason : exn)
| OpListen (self : Ref) (protocols : list string) (From : Q2QAddress) (description : string)
| OpNotifyOnConnectionLost (self : Ref) (observer : Ref)
| OpProtocolAndAuthFromId (id : string) (tpt : Ref)
| OpStopService.

Definition run_op (op : Op) : M unit :=
  match op with
  | OpMapListener to From protocolName protocolFactory isClient =>
      mapListener to From protocolName protocolFactory isClient ;; mret ()
  | OpAdvance dt => advance dt
  | OpVirtual self id => command_VIRTUAL self id ;; mret ()
  | OpNewTransport q2q hostAddress peerAddress protocolName connectionID
                   protocolFactory isClient =>
      VirtualTransport_init q2q hostAddress peerAddress protocolName connectionID
        protocolFactory isClient ;; mret ()
  | OpStartProtocol v => startProtocol v ;; mret ()
  | OpWrite self box => juice_WRITE self box ;; mret ()
  | OpClose self box => juice_CLOSE self box ;; mret ()
  | OpLoseConnection v => loseConnection v
  | OpCloseAnswered v answer => loseConnection_answered v answer
  | OpConnectionLost self reason => Q2Q_connectionLost self reason
  | OpListen self protocols From description =>
      command_LISTEN self protocols From description
  | OpNotifyOnConnectionLost self observer => notifyOnConnectionLost self observer
  | OpProtocolAndAuthFromId id tpt => protocolAndAuthFromId id tpt ;; mret ()
  | OpStopService => stopService
  end.

(** An exception that leaves a handler is answered to the peer or logged by
    the reactor; the world goes on from where the handler left it. *)
Definition step (w : World) (op : Op) : World := (run_op op w).2.

Definition run_ops (ops : list Op) (w : World) : World := foldl step w ops.

(** ** Virtual transports: liveness and invariant *)

(** [connectionLost] has run on [v]. *)
Definition lost (w : World) (v : Ref) : Prop :=
  ∃ reason, EvConnectionLost v reason ∈ trace w.

(** The transport object [v] exists. *)
Definition allocated (w : World) (v : Ref) : Prop := is_Some (transports w !! v).

(** No transport ever created on connection [q] had the id [id]. *)
Definition fresh_id (w : World) (q : Ref) (id : string) : Prop :=
  ∀ v t, transports w !! v = Some t → vt_q2q t = q → vt_id t ≠ id.

(** The precondition of an operation, as far as virtual transports go: a
    method is called on a transport that exists, and a transport is created
    under a connection id that is new for its connection, as the
    constructor's documentation asks. *)
Definition op_ok (w : World) (op : Op) : Prop :=
  match op with
  | OpNewTransport q2q _ _ _ connectionID _ _ => fresh_id w q2q connectionID
  | OpVirtual self id => fresh_id w self id
  | OpStartProtocol v | OpLoseConnection v | OpCloseAnswered v _ => allocated w v
  | _ => True
  end.

Fixpoint ops_ok (w : World) (ops : list Op) : Prop :=
  match ops with
  | [] => True
  | op :: ops' => op_ok w op ∧ ops_ok (step w op) ops'
  end.

Record vt_inv (w : World) : Prop := mk_vt_inv {
  vt_bound : ∀ v, allocated w v → v < next_ref w;
  vt_lost_allocated : ∀ v, lost w v → allocated w v;
  vt_entries : ∀ q id v,
    connections (q2qs w !!! q) !! id = Some v →
    ∃ t, transports w !! v = Some t ∧ vt_q2q t = q ∧ vt_id t = id ∧ ¬ lost w v;
  vt_live : ∀ v t,
    transports w !! v = Some t → ¬ lost w v →
    connections (q2qs w !!! vt_q2q t) !! vt_id t = Some v;
  vt_unique : ∀ v1 v2 t1 t2,
    transports w !! v1 = Some t1 → transports w !! v2 = Some t2 →
    vt_q2q t1 = vt_q2q t2 → vt_id t1 = vt_id t2 → v1 = v2
}.

(** A world in which no virtual transport has been created yet: every
    connection is as [connectionMade] leaves it. *)
Definition no_transports (w : World) : Prop :=
  transports w = ∅
  ∧ (∀ q, connections (q2qs w !!! q) = ∅)
  ∧ (∀ v, ¬ lost w v).

(** ** Frames: what a computation leaves alone *)

(** [m] takes every world to one related to it by [R], whether it returns
    or raises. *)
Definition frames {A} (R : relation World) (m : M A) : Prop := ∀ w, R w (m w).2.

(** Nothing that matters to the bookkeeping of virtual transports changed:
    the same transports with the same connection and id, the same
    connection maps, [connectionLost] run on the same transports, and no
    reference given back. *)
Definition vt_same : relation World := λ w w',
  (∀ v, (λ t, (vt_q2q t, vt_id t)) <$> transports w' !! v
        = (λ t, (vt_q2q t, vt_id t)) <$> transports w !! v)
  ∧ (∀ q, connections (q2qs w' !!! q) = connections (q2qs w !!! q))
  ∧ (∀ v, lost w' v ↔ lost w v)
  ∧ (next_ref w ≤ next_ref w')%nat.

(** Nothing that matters to the listener registry changed. *)
Definition reg_same : relation World := λ w w',
  listeningClients (service w') = listeningClients (service w)
  ∧ (∀ q, listeningClient (q2qs w' !!! q) = listeningClient (q2qs w !!! q)).

(** Nothing that matters to reservations and their timers changed. *)
Definition res_same : relation World := λ w w',
  inboundConnections (service w') = inboundConnections (service w)
  ∧ _lastConnID (service w') = _lastConnID (service w)
  ∧ delayedCalls w' = delayedCalls w
  ∧ pendingTimedCalls w' = pendingTimedCalls w
  ∧ seconds w' = seconds w
  ∧ (next_ref w ≤ next_ref w')%nat.

(** [m] keeps [P], whether it returns or raises. *)
Definition preserves {A} (P : World → Prop) (m : M A) : Prop := ∀ w, P w → P (m w).2.

(** ** The listener registry: invariant *)

(** The connection of a registry entry. *)
Definition lv_listener (value : ListenValue) : Ref := value.1.1.

(** The registry list under a key; a missing key holds no entry. *)
Definition registry (w : World) (key : ListenKey) : list ListenValue :=
  default [] (listeningClients (service w) !! key).

(** Number of occurrences of [x] in [l]. *)
Definition occurrences {A} `{EqDecision A} (x : A) (l : list A) : nat :=
  length (filter (λ y, y = x) l).

(** Every connection's own list holds entries of that connection only, and
    it holds what the registry holds of that connection, key by key and
    with multiplicity. *)
Definition reg_inv (w : World) : Prop :=
  ∀ q,
    (∀ key value, (key, value) ∈ listeningClient (q2qs w !!! q) → lv_listener value = q)
    ∧ (∀ key value, lv_listener value = q →
         occurrences value (registry w key)
         = occurrences (key, value) (listeningClient (q2qs w !!! q))).

(** A service on which nobody has listened yet. *)
Definition no_listeners (w : World) : Prop :=
  listeningClients (service w) = ∅ ∧ ∀ q, listeningClient (q2qs w !!! q) = [].

(** The [connectionLost] calls on virtual transports recorded in a trace,
    and the observers called. *)
Definition connectionLost_calls (tr : list Event) : list (Ref * exn) :=
  omap (λ e, match e with EvConnectionLost v reason => Some (v, reason) | _ => None end) tr.

Definition observer_calls (tr : list Event) : list Ref :=
  omap (λ e, match e with EvUser (observer_call o) => Some o | _ => None end) tr.

(** The transport objects are as they were. *)
Definition transports_same : relation World := λ w w', transports w' = transports w.

(** A service that has just been started: no virtual transport and no
    listener yet. *)
Definition just_started (w : World) : Prop := no_transports w ∧ no_listeners w.

(** [divmod_world] with one more connection, number 1: a listening client
    of [radix_listener]. *)
Definition two_connections_world : World :=
  with_q2qs (λ h, <[1 := radix_listener]> h) divmod_world.

(** A day in the life of that service: [bob] listens on connection 0 and
    asks to be told when it is lost, [radix] listens on connection 1, a
    channel to [radix] is reserved, opened by VIRTUAL on connection 0 and
    started, and it carries a WRITE. *)
Definition example_ops : list Op :=
  [ OpListen 0 ["q2q-example"; "q2q-example2"] (mkQ2QAddress "divmod.com" (Some "bob"))
      "some simple protocols";
    OpNotifyOnConnectionLost 0 5;
    OpListen 1 ["q2q-example"] (mkQ2QAddress "twistedmatrix.com" (Some "radix")) "at lab";
    OpMapListener (mkQ2QAddress "divmod.com" (Some "radix"))
      (mkQ2QAddress "divmod.com" (Some "bob")) "q2q-example" 7 false;
    OpVirtual 0 "bob@divmod.com->radix@divmod.com:1";
    OpStartProtocol 1;
    OpWrite 0 (write_box "bob@divmod.com->radix@divmod.com:1" "HELLO WORLD") ].

(** ** Reservations: invariant *)

(** The connection id made of two addresses and a counter value, as
    [_nextConnectionID] formats it. *)
Definition connection_id (From to : Q2QAddress) (lcid : N) : string :=
  Q2QAddress_str From +:+ "->" +:+ Q2QAddress_str to +:+ ":" +:+ str_of_N lcid.

(** What follows the last colon of a string (the whole string if it has
    none). *)
Fixpoint last_field (s : string) : string :=
  match s with
  | EmptyString => EmptyString
  | String c s' =>
      if contains ":" s' then last_field s'
      else if Ascii.eqb c ":" then s' else s
  end.

(** Every reservation in the table has its timer: a delayed call that is
    still to run, is due in the future, removes that reservation, and is
    known to the reactor.  Delayed calls are objects that exist. *)
Definition res_inv (w : World) : Prop :=
  (∀ id cwait call,
     inboundConnections (service w) !! id = Some (cwait, call) →
     ∃ c, delayedCalls w !! call = Some c
          ∧ dc_called c = false ∧ dc_cancelled c = false
          ∧ dc_func c = inboundConnections_pop id
          ∧ (seconds w < dc_time c)%N
          ∧ (dc_time c, call) ∈ pendingTimedCalls w)
  ∧ (∀ call, is_Some (delayedCalls w !! call) → call < next_ref w).

(** A service that has not reserved anything yet. *)
Definition no_reservations (w : World) : Prop :=
  inboundConnections (service w) = ∅ ∧ delayedCalls w = ∅.

(** The reactor has run the delayed calls of [due] between [w] and [w']:
    reservations were only removed; the reservation of every call that ran
    is gone; delayed calls that were not due are untouched, the others
    changed at most their [called] flag; the clock did not move. *)
Definition timers_ran (due : list (N * Ref)) : relation World := λ w w',
  (∀ id x, inboundConnections (service w') !! id = Some x →
           inboundConnections (service w) !! id = Some x)
  ∧ (∀ p id, p ∈ due →
       dc_cancelled (delayedCalls w !!! p.2) = false →
       dc_func (delayedCalls w !!! p.2) = inboundConnections_pop id →
       inboundConnections (service w') !! id = None)
  ∧ (∀ call, call ∉ due.*2 → delayedCalls w' !! call = delayedCalls w !! call)
  ∧ (∀ call, is_Some (delayedCalls w' !! call) ↔ is_Some (delayedCalls w !! call))
  ∧ (∀ call, dc_time (delayedCalls w' !!! call) = dc_time (delayedCalls w !!! call)
             ∧ dc_func (delayedCalls w' !!! call) = dc_func (delayedCalls w !!! call)
             ∧ dc_cancelled (delayedCalls w' !!! call)
               = dc_cancelled (delayedCalls w !!! call))
  ∧ seconds w' = seconds w
  ∧ pendingTimedCalls w' = pendingTimedCalls w
  ∧ next_ref w' = next_ref w
  ∧ _lastConnID (service w') = _lastConnID (service w).

(** Between [w] and [w'] reservations were only taken out of the table
    and timers only cancelled: the timer of every reservation that is
    still there is untouched, every delayed call keeps its due time and its
    function, and the clock, the reactor's queue and the counter are as
    they were. *)
Definition res_shrunk : relation World := λ w w',
  (∀ id x, inboundConnections (service w') !! id = Some x →
           inboundConnections (service w) !! id = Some x)
  ∧ (∀ id cwait call,
       inboundConnections (service w') !! id = Some (cwait, call) →
       delayedCalls w' !! call = delayedCalls w !! call)
  ∧ (∀ call, is_Some (delayedCalls w' !! call) ↔ is_Some (delayedCalls w !! call))
  ∧ (∀ call, dc_time (delayedCalls w' !!! call) = dc_time (delayedCalls w !!! call)
             ∧ dc_func (delayedCalls w' !!! call) = dc_func (delayedCalls w !!! call))
  ∧ _lastConnID (service w') = _lastConnID (service w)
  ∧ pendingTimedCalls w' = pendingTimedCalls w
  ∧ seconds w' = seconds w
  ∧ (next_ref w ≤ next_ref w')%nat.

(** What stays true of the reservation made under [id], with counter value
    [lcid], waiter [waiter] and timer [call] due at [T], whatever happens
    afterwards: the counter has moved on; the timer exists and keeps its
    due time and its function; the table holds under [id] nothing but that
    reservation; and every reservation has its timer. *)
Definition reservation_inv
  (id : string) (lcid : N) (waiter : ConnectionWaiter) (call : Ref) (T : N) (w : World)
  : Prop :=
  (lcid < _lastConnID (service w))%N
  ∧ call < next_ref w
  ∧ (∃ c, delayedCalls w !! call = Some c
          ∧ dc_time c = T ∧ dc_func c = inboundConnections_pop id)
  ∧ (∀ x, inboundConnections (service w) !! id = Some x → x = (waiter, call))
  ∧ res_inv w.


From Stdlib Require Import DecimalZ.

(** * More of the module *)

(** ** Q2QAddress: comparison and hashing *)

(** Python 2's [cmp] on two values that are [None] or a string: [None]
    sorts before every string, strings compare byte by byte. *)
Definition cmp_resource (r1 r2 : option string) : comparison :=
  match r1, r2 with
  | None, None => Eq
  | None, Some _ => Lt
  | Some _, None => Gt
  | Some a, Some b => String.compare a b
  end.

(** [Q2QAddress.__cmp__] for [other] a [Q2QAddress]: the tuples
    [(domain, resource)] are compared, the first difference deciding. *)
Definition Q2QAddress_cmp (self other : Q2QAddress) : comparison :=
  match String.compare (domain self) (domain other) with
  | Eq => cmp_resource (resource self) (resource other)
  | c => c
  end.

(** [Q2QAddress.__hash__], over the interpreter's [hash] of a string. *)
Definition Q2QAddress_hash (hash : string → Z) (self : Q2QAddress) : Z :=
  hash (Q2QAddress_str self).

(** ** The certificate store *)

(** [DefaultCertificateStore.addUser] *)
Definition addUser (self : DefaultCertificateStore) (domain username privateSecret : string)
  : DefaultCertificateStore :=
  mkDefaultCertificateStore (remoteStore self) (localStore self)
    (<[(domain, username) := privateSecret]> (users self)).

(** [DefaultCertificateStore.getSelfSignedCertificate]: the Deferred has
    fired with the certificate or failed with [KeyError]. *)
Definition getSelfSignedCertificate (self : DefaultCertificateStore) (domainName : string)
  : Res Certificate :=
  match remoteStore self !! domainName with
  | Some cert => Ok cert
  | None => Raise KeyError
  end.

(** [DefaultCertificateStore.storeSelfSignedCertificate]; the certificate
    is an object, never a string, so the assertion holds. *)
Definition storeSelfSignedCertificate
  (self : DefaultCertificateStore) (domainName : string) (mainCert : Certificate)
  : DefaultCertificateStore :=
  mkDefaultCertificateStore (<[domainName := mainCert]> (remoteStore self))
    (localStore self) (users self).

(** Exceptions of the interpreter met in this part, beside those of
    [exn]; and the outcome of a call that returns or raises one. *)
Inductive pyexn :=
| Exn (e : exn)
| AssertionError
| TypeError.

Inductive Outcome (A : Type) :=
| Returned (a : A)
| Raised (e : pyexn).
Arguments Returned {A} a.
Arguments Raised {A} e.

(** [DefaultCertificateStore.addPrivateCertificate].  Without an existing
    certificate a new key signs its own request for the distinguished name
    [commonName=subjectName]: issuer and subject of the certificate are
    both [subjectName]. *)
Definition addPrivateCertificate
  (self : DefaultCertificateStore) (subjectName : string)
  (existingCertificate : option Certificate) : Outcome DefaultCertificateStore :=
  match existingCertificate with
  | None =>
      if contains at_sign subjectName then Raised AssertionError
      else
        let mainCert := mkCertificate subjectName subjectName in
        Returned (mkDefaultCertificateStore (remoteStore self)
                  (<[subjectName := mainCert]> (localStore self)) (users self))
  | Some existingCertificate =>
      let mainCert := existingCertificate in
      Returned (mkDefaultCertificateStore (remoteStore self)
                (<[subjectName := mainCert]> (localStore self)) (users self))
  end.

(** ** Arguments on the wire *)

(** [s.split(sep)] for a separator of two characters [a] and [b]: the
    string is scanned from the left, every occurrence found ends a field
    and the scan goes on after it; [cur] is the field being read. *)
Fixpoint split2 (a b : ascii) (cur s : string) : list string :=
  match s with
  | EmptyString => [cur]
  | String c t =>
      match t with
      | EmptyString => [cur +:+ String c EmptyString]
      | String d s' =>
          if Ascii.eqb c a && Ascii.eqb d b then cur :: split2 a b EmptyString s'
          else split2 a b (cur +:+ String c EmptyString) t
      end
  end.

(** [sep in s] for such a separator. *)
Fixpoint contains2 (a b : ascii) (s : string) : bool :=
  match s with
  | EmptyString => false
  | String c t =>
      match t with
      | EmptyString => false
      | String d _ => (Ascii.eqb c a && Ascii.eqb d b) || contains2 a b t
      end
  end.

(** [sep.join(l)] *)
Fixpoint join (sep : string) (l : list string) : string :=
  match l with
  | [] => EmptyString
  | x :: l' =>
      match l' with
      | [] => x
      | _ :: _ => x +:+ sep +:+ join sep l'
      end
  end.

(** [SimpleStringList.separator], a comma and a space. *)
Definition separator : string := ", ".

(** [SimpleStringList.toString] *)
Definition SimpleStringList_toString (inObj : list string) : Outcome string :=
  if existsb (contains2 "," " ") inObj then Raised AssertionError
  else Returned (join separator inObj).

(** [SimpleStringList.fromString] *)
Definition SimpleStringList_fromString (inString : string) : list string :=
  if decide (inString = "") then []
  else split2 "," " " EmptyString inString.

(** ["%d" % n] for an integer. *)
Definition str_of_Z (n : Z) : string := NilEmpty.string_of_int (Z.to_int n).

(** The wire forms need [int(s)] on a string, which is the interpreter's:
    it gives the integer or raises [ValueError], here [None]. *)
Section Int.

Variable int : string → option Z.

(** [HostPort.toString] on a pair of a host and a port. *)
Definition HostPort_toString (inObj : string * Z) : string :=
  inObj.1 +:+ ":" +:+ str_of_Z inObj.2.

(** [HostPort.fromString]: unpacking the split raises [ValueError] unless
    it has two parts. *)
Definition HostPort_fromString (inStr : string) : Outcome (string * Z) :=
  match split ":" inStr with
  | [host; sPort] =>
      match int sPort with
      | Some port => Returned (host, port)
      | None => Raised (Exn ValueError)
      end
  | _ => Raised (Exn ValueError)
  end.

(** [TCPMethod.__init__], which [PTCPMethod] and [RPTCPMethod] inherit;
    [cls] is the class being instantiated. *)
Definition TCPMethod_init (cls : string → Z → Method) (hostport : string) : Outcome Method :=
  match split ":" hostport with
  | [host; port] =>
      match int port with
      | Some port => Returned (cls host port)
      | None => Raised (Exn ValueError)
      end
  | _ => Raised (Exn ValueError)
  end.

(** [x.toString()] for a method [x]: [virtual], or the class attribute
    [ptype], an at-sign, the host, a colon and the port; [UnknownMethod] has
    no such attribute. *)
Definition Method_toString (meth : Method) : Outcome string :=
  match meth with
  | VirtualMethod => Returned "virtual"
  | TCPMethod host port => Returned ("tcp" +:+ "@" +:+ host +:+ ":" +:+ str_of_Z port)
  | PTCPMethod host port => Returned ("ptcp" +:+ "@" +:+ host +:+ ":" +:+ str_of_Z port)
  | RPTCPMethod host port => Returned ("rptcp" +:+ "@" +:+ host +:+ ":" +:+ str_of_Z port)
  | UnknownMethod _ => Raised (Exn AttributeError)
  end.

(** The dictionary [_methodFactories]. *)
Definition _methodFactories (factoryName : string) : option (string → Outcome Method) :=
  if decide (factoryName = "virtual") then Some (λ _, Returned VirtualMethod)
  else if decide (factoryName = "tcp") then Some (TCPMethod_init TCPMethod)
  else if decide (factoryName = "ptcp") then Some (TCPMethod_init PTCPMethod)
  else if decide (factoryName = "rptcp") then Some (TCPMethod_init RPTCPMethod)
  else None.

(** A list built by calls that may raise: the first exception ends it. *)
Fixpoint collect {A B} (f : A → Outcome B) (l : list A) : Outcome (list B) :=
  match l with
  | [] => Returned []
  | x :: l' =>
      match f x with
      | Raised e => Raised e
      | Returned y =>
          match collect f l' with
          | Raised e => Raised e
          | Returned ys => Returned (y :: ys)
          end
      end
  end.

(** [MethodsList.toString] *)
Definition MethodsList_toString (inObj : list Method) : Outcome string :=
  match collect Method_toString inObj with
  | Raised e => Raised e
  | Returned strings => SimpleStringList_toString strings
  end.

(** One turn of the loop of [MethodsList.fromString]. *)
Definition method_fromString (string : string) : Outcome Method :=
  let f := split_max1 at_sign string in
  let factoryName := default EmptyString (f !! 0) in
  let factoryData := if decide (1 < length f) then default EmptyString (f !! 1)
                     else EmptyString in
  match _methodFactories factoryName with
  | None => Returned (UnknownMethod string)
  | Some methodFactory => methodFactory factoryData
  end.

(** [MethodsList.fromString] *)
Definition MethodsList_fromString (inString : string) : Outcome (list Method) :=
  let strings := SimpleStringList_fromString inString in
  collect method_fromString strings.

End Int.

(** A reader of decimal numerals, which is what [int] does on the strings
    that ["%d"] prints. *)
Definition int_of_decimal (s : string) : option Z :=
  Z.of_int <$> NilEmpty.int_of_string s.

(** Methods that the wire form carries: a virtual method, or a TCP-like
    method whose host holds neither a colon nor the list separator. *)
Definition wire_method_ok (meth : Method) : Prop :=
  match meth with
  | VirtualMethod => True
  | TCPMethod host _ | PTCPMethod host _ | RPTCPMethod host _ =>
      contains ":" host = false ∧ contains2 "," " " host = false
  | UnknownMethod _ => False
  end.

(** ** Direct connections: the Q2Q line *)

(** [s.split(sep, 1)] for a separator of two characters [a] and [b]: the
    part before its first occurrence and the part after it, if it occurs. *)
Fixpoint partition2 (a b : ascii) (s : string) : option (string * string) :=
  match s with
  | EmptyString => None
  | String c t =>
      match t with
      | EmptyString => None
      | String d s' =>
          if Ascii.eqb c a && Ascii.eqb d b then Some (EmptyString, s')
          else match partition2 a b t with
               | Some (x, y) => Some (String c x, y)
               | None => None
               end
      end
  end.

Definition CR : ascii := "013"%char.
Definition LF : ascii := "010"%char.

(** A [Q2QTCPListener]: the class attributes [buf], [subProtocol],
    [q2qhost] and [q2qpeer], and whether [loseConnection] has been called
    on its transport. *)
Record Q2QTCPListener := mkQ2QTCPListener {
  buf : string;
  subProtocol : option Ref;
  q2qhost : option Q2QAddress;
  q2qpeer : option Q2QAddress;
  transport_lost : bool
}.

(** [Q2QTCPListener()] as [Q2QTCPListenerFactory.buildProtocol] makes it. *)
Definition Q2QTCPListener_new : Q2QTCPListener :=
  mkQ2QTCPListener EmptyString None None None false.

(** A computation of the first part seen from here. *)
Definition outcome_of {A} (r : Res A) : Outcome A :=
  match r with
  | Ok a => Returned a
  | Raise e => Raised (Exn e)
  end.

(** [Q2QTCPListener.dataReceived]; [self] is the reference of the listener
    [l], and the listener as the call leaves it is returned with the
    outcome.  Unpacking the [None] that [protocolAndAuthFromId] returns for
    an id without reservation raises [TypeError]. *)
Definition Q2QTCPListener_dataReceived
  (self : Ref) (l : Q2QTCPListener) (data : string) (w : World)
  : Outcome unit * Q2QTCPListener * World :=
  match subProtocol l with
  | None =>
      let l := mkQ2QTCPListener (buf l +:+ data) (subProtocol l) (q2qhost l) (q2qpeer l)
                 (transport_lost l) in
      match partition2 CR LF (buf l) with
      | Some (intro, rest) =>
          match split_max1 " " intro with
          | [command; id] =>
              if decide (command ≠ "Q2Q") then
                (Returned (),
                 mkQ2QTCPListener (buf l) (subProtocol l) (q2qhost l) (q2qpeer l) true, w)
              else
                match protocolAndAuthFromId id self w with
                | (Raise e, w) => (Raised (Exn e), l, w)
                | (Ok None, w) => (Raised TypeError, l, w)
                | (Ok (Some (proto, host, peer)), w) =>
                    let l := mkQ2QTCPListener (buf l) (Some proto) (Some host) (Some peer)
                               (transport_lost l) in
                    match call_user (protocol_makeConnection proto self) w with
                    | (Raise e, w) => (Raised (Exn e), l, w)
                    | (Ok _, w) =>
                        if decide (rest ≠ "") then
                          match call_user (protocol_dataReceived proto rest) w with
                          | (r, w) => (outcome_of r, l, w)
                          end
                        else (Returned (), l, w)
                    end
                end
          | _ => (Raised (Exn ValueError), l, w)
          end
      | None => (Returned (), l, w)
      end
  | Some p =>
      match call_user (protocol_dataReceived p data) w with
      | (r, w) => (outcome_of r, l, w)
      end
  end.

(** * Part II: properties *)

(** ** Running computations *)

Lemma bind_run {A B} (m : M A) (k : A → M B) w :
  (m ≫= k) w =
    match m w with
    | (Ok a, w') => k a w'
    | (Raise e, w') => (Raise e, w')
    end.
Proof. reflexivity. Qed.

Lemma bind_Ok {A B} (m : M A) (k : A → M B) w a w' :
  m w = (Ok a, w') → (m ≫= k) w = k a w'.
Proof. intros H. by rewrite bind_run, H. Qed.

Lemma bind_Raise {A B} (m : M A) (k : A → M B) w e w' :
  m w = (Raise e, w') → (m ≫= k) w = (Raise e, w').
Proof. intros H. by rewrite bind_run, H. Qed.

Lemma for_each_nil {A} (body : A → M unit) w : for_each [] body w = (Ok (), w).
Proof. reflexivity. Qed.

Lemma for_each_cons {A} x (xs : list A) (body : A → M unit) w :
  for_each (x :: xs) body w =
    match body x w with
    | (Ok _, w') => for_each xs body w'
    | (Raise e, w') => (Raise e, w')
    end.
Proof. reflexivity. Qed.

Lemma for_each_app {A} (xs ys : list A) (body : A → M unit) w :
  for_each (xs ++ ys) body w =
    match for_each xs body w with
    | (Ok _, w') => for_each ys body w'
    | (Raise e, w') => (Raise e, w')
    end.
Proof.
  revert w. induction xs as [|x xs IH]; intros w; [done |].
  simpl app. rewrite !for_each_cons.
  destruct (body x w) as [[[]|e] w']; [apply IH | done].
Qed.

(** A loop whose body cannot raise runs to the end. *)
Lemma for_each_total {A} (xs : list A) (body : A → M unit) :
  (∀ x w, x ∈ xs → ∃ w', body x w = (Ok (), w')) →
  ∀ w, ∃ w', for_each xs body w = (Ok (), w').
Proof.
  induction xs as [|x xs IH]; intros Hbody w.
  - by exists w.
  - rewrite for_each_cons.
    destruct (Hbody x w) as [w1 ->]; [left |].
    apply IH. intros y w2 Hy. apply Hbody. by right.
Qed.

(** [safely] never raises. *)
Lemma safely_total (f : M unit) w : ∃ w', safely f w = (Ok (), w').
Proof.
  unfold safely, try_except.
  destruct (f w) as [[[]|e] w']; [by eexists |].
  unfold log_err, emit, modify. by eexists.
Qed.

(** One step of a computation, by the primitive it starts with. *)
Lemma bind_mret {A B} (a : A) (k : A → M B) w : ((mret a : M A) ≫= k) w = k a w.
Proof. reflexivity. Qed.

Lemma bind_raise {A B} e (k : A → M B) w : (raise e ≫= k) w = (Raise e, w).
Proof. reflexivity. Qed.

Lemma bind_lift_Ok {A B} (a : A) (k : A → M B) w : (lift (Ok a) ≫= k) w = k a w.
Proof. reflexivity. Qed.

Lemma bind_lift_Raise {A B} e (k : A → M B) w : (lift (Raise e) ≫= k) w = (Raise e, w).
Proof. reflexivity. Qed.

Lemma bind_get_world {B} (k : World → M B) w : (get_world ≫= k) w = k w w.
Proof. reflexivity. Qed.

Lemma bind_get_q2q {B} q (k : Q2Q → M B) w : (get_q2q q ≫= k) w = k (q2qs w !!! q) w.
Proof. reflexivity. Qed.

Lemma bind_get_transport {B} v (k : VirtualTransport → M B) w :
  (get_transport v ≫= k) w = k (transports w !!! v) w.
Proof. reflexivity. Qed.

Lemma bind_get_service {B} (k : Q2QService → M B) w :
  (get_service ≫= k) w = k (service w) w.
Proof. reflexivity. Qed.

Lemma bind_modify {B} f (k : () → M B) w : (modify f ≫= k) w = k () (f w).
Proof. reflexivity. Qed.

Lemma bind_update_q2q {B} q f (k : () → M B) w :
  (update_q2q q f ≫= k) w = k () (with_q2qs (λ h, <[q := f (h !!! q)]> h) w).
Proof. reflexivity. Qed.

Lemma bind_update_transport {B} v f (k : () → M B) w :
  (update_transport v f ≫= k) w
  = k () (with_transports (λ h, <[v := f (h !!! v)]> h) w).
Proof. reflexivity. Qed.

Lemma bind_update_service {B} f (k : () → M B) w :
  (update_service f ≫= k) w = k () (with_service f w).
Proof. reflexivity. Qed.

Lemma bind_emit {B} e (k : () → M B) w :
  (emit e ≫= k) w = k () (with_trace (λ tr, tr ++ [e]) w).
Proof. reflexivity. Qed.

Lemma bind_log_err {B} e (k : () → M B) w :
  (log_err e ≫= k) w = k () (with_trace (λ tr, tr ++ [EvLogErr e]) w).
Proof. reflexivity. Qed.

Lemma bind_fresh_ref {B} (k : Ref → M B) w :
  (fresh_ref ≫= k) w = k (next_ref w) (with_next_ref (S (next_ref w)) w).
Proof. reflexivity. Qed.

Lemma bind_getitem_Some {K A B} `{Countable K} (d : gmap K A) key a (k : A → M B) w :
  d !! key = Some a → (getitem d key ≫= k) w = k a w.
Proof. intros Hd. unfold getitem. by rewrite Hd. Qed.

Lemma bind_getitem_None {K A B} `{Countable K} (d : gmap K A) key (k : A → M B) w :
  d !! key = None → (getitem d key ≫= k) w = (Raise KeyError, w).
Proof. intros Hd. unfold getitem. by rewrite Hd. Qed.

Lemma bind_assoc {A B C} (m : M A) (f : A → M B) (g : B → M C) w :
  ((m ≫= f) ≫= g) w = (m ≫= (λ a, f a ≫= g)) w.
Proof. rewrite !bind_run. by destruct (m w) as [[a|e] w']. Qed.

Lemma call_user_run c w :
  call_user c w =
    (match user_raises w c with Some e => Raise e | None => Ok () end,
     with_trace (λ tr, tr ++ [EvUser c]) w).
Proof. unfold call_user. rewrite bind_emit, bind_get_world. simpl. by destruct (user_raises w c). Qed.

Lemma mret_run {A} (a : A) w : (mret a : M A) w = (Ok a, w).
Proof. reflexivity. Qed.

Lemma raise_run {A} e w : raise (A:=A) e w = (Raise e, w).
Proof. reflexivity. Qed.

Create Rewrite HintDb mrun.
#[export] Hint Rewrite @bind_mret @bind_raise @bind_lift_Ok @bind_lift_Raise @bind_get_world
  @bind_get_q2q @bind_get_transport @bind_get_service @bind_modify @bind_update_q2q
  @bind_update_transport @bind_update_service @bind_emit @bind_log_err @bind_fresh_ref
  @mret_run @raise_run @bind_assoc : mrun.

(** Field reads of updated records. *)
Ltac wsimpl :=
  cbn [service q2qs transports seconds delayedCalls pendingTimedCalls next_ref
       user_raises trace with_service with_q2qs with_transports with_seconds
       with_delayedCalls with_pendingTimedCalls with_next_ref with_trace logged
       authorized publicIP hostCertificate transport_peerCertificate connections
       listeningClient connectionObservers with_connections with_listeningClient
       with_connectionObservers
       vt_q2q vt_host vt_peer vt_id vt_isClient vt_protocolName vt_protocolFactory
       vt_protocol vt_disconnecting with_protocol with_disconnecting
       certificateStorage listeningClients inboundConnections _lastConnID
       with_listeningClients with_inboundConnections with_lastConnID
       dc_time dc_func dc_called dc_cancelled fst snd] in *.

Ltac mrun := repeat (progress (autorewrite with mrun; wsimpl)).

(** Unfolding the primitives of the monad. *)
Ltac run :=
  repeat first
    [ progress simpl
    | progress unfold mbind, M_bind, mret, M_ret, raise, lift, modify, get_world,
        get_q2q, get_transport, get_service, update_q2q, update_transport,
        update_service, fresh_ref, emit, log_err, getitem, try_except ].

(** ** Addresses *)

Example fromString_user : fromString "glyph@divmod.com" = Some (mkQ2QAddress "divmod.com" (Some "glyph")).
Proof. reflexivity. Qed.

Example fromString_domain : fromString "divmod.com" = Some (mkQ2QAddress "divmod.com" None).
Proof. reflexivity. Qed.

Lemma append_nil_l (t : string) : "" +:+ t = t.
Proof. reflexivity. Qed.

Lemma append_cons c (s t : string) : String c s +:+ t = String c (s +:+ t).
Proof. reflexivity. Qed.

Lemma append_empty_r (s : string) : s +:+ "" = s.
Proof. induction s as [|c s IH]; [done |]. by rewrite append_cons, IH. Qed.

Lemma append_assoc' (s t u : string) : (s +:+ t) +:+ u = s +:+ t +:+ u.
Proof. induction s as [|c s IH]; [done |]. by rewrite !append_cons, IH. Qed.

Lemma contains_append sep (s t : string) :
  contains sep (s +:+ t) = contains sep s || contains sep t.
Proof.
  induction s as [|c s IH]; [done |].
  rewrite append_cons. simpl. by rewrite IH, orb_assoc.
Qed.

(** Splitting happens at the first separator: what precedes it is free of
    the separator and the input is the two parts around it. *)
Lemma str_partition_Some sep s a b :
  str_partition sep s = Some (a, b) →
  s = a +:+ String sep b ∧ contains sep a = false.
Proof.
  revert a b. induction s as [|c s IH]; intros a b; simpl; [done |].
  destruct (Ascii.eqb c sep) eqn:Hc.
  - intros [= <- <-]. apply Ascii.eqb_eq in Hc as ->. done.
  - destruct (str_partition sep s) as [[a' b']|]; [| done].
    intros [= <- <-]. destruct (IH a' b' eq_refl) as [-> Ha].
    simpl. by rewrite Hc, Ha.
Qed.

Lemma str_partition_None sep s :
  str_partition sep s = None ↔ contains sep s = false.
Proof.
  induction s as [|c s IH]; simpl; [done |].
  destruct (Ascii.eqb c sep); simpl; [split; done |].
  destruct (str_partition sep s) as [[a b]|]; [| tauto].
  split; [done |]. intros H. apply IH in H. done.
Qed.

Lemma str_partition_first sep u d :
  contains sep u = false →
  str_partition sep (u +:+ String sep d) = Some (u, d).
Proof.
  induction u as [|c u IH].
  - intros _. rewrite append_nil_l. simpl. by rewrite Ascii.eqb_refl.
  - simpl. intros H. apply orb_false_iff in H as [Hc Hu].
    by rewrite Hc, (IH Hu).
Qed.

Lemma fromString_user_domain u d :
  contains at_sign u = false →
  fromString (u +:+ "@" +:+ d) = Some (mkQ2QAddress d (Some u)).
Proof.
  intros Hu. unfold fromString, split_max1.
  change ("@" +:+ d) with (String at_sign d).
  by rewrite (str_partition_first _ _ _ Hu).
Qed.

Lemma fromString_domain_only s :
  contains at_sign s = false →
  fromString s = Some (mkQ2QAddress s None).
Proof.
  intros Hs. unfold fromString, split_max1.
  by rewrite (proj2 (str_partition_None _ _) Hs).
Qed.

(** Parsing never fails, and it always splits at the first at-sign. *)
Lemma fromString_total s :
  fromString s =
    Some match str_partition at_sign s with
         | Some (u, d) => mkQ2QAddress d (Some u)
         | None => mkQ2QAddress s None
         end.
Proof.
  unfold fromString, split_max1.
  by destruct (str_partition at_sign s) as [[u d]|].
Qed.

Lemma Q2QAddress_str_resource d r :
  r ≠ "" → Q2QAddress_str (mkQ2QAddress d (Some r)) = r +:+ "@" +:+ d.
Proof.
  intros Hr. unfold Q2QAddress_str; simpl.
  destruct r; [done |]. simpl. apply append_assoc'.
Qed.

Lemma Q2QAddress_str_domain d : Q2QAddress_str (mkQ2QAddress d None) = d.
Proof. done. Qed.

(** The textual form of the domain address is the domain. *)
Lemma Q2QAddress_str_domainAddress a : Q2QAddress_str (domainAddress a) = domain a.
Proof. destruct a as [d [r|]]; done. Qed.

(** An address that is read back from its textual form is parseable. *)
Lemma fromString_str_only_parseable (a : Q2QAddress) :
  fromString (Q2QAddress_str a) = Some a → parseable a.
Proof.
  rewrite fromString_total. intros [= H].
  destruct (str_partition at_sign (Q2QAddress_str a)) as [[u d]|] eqn:Hs.
  - apply str_partition_Some in Hs as [Hstr Hu].
    subst a. unfold parseable; simpl.
    split; [| done]. intros ->.
    change (d = String at_sign d) in Hstr.
    apply (f_equal String.length) in Hstr. simpl in Hstr. lia.
  - apply str_partition_None in Hs.
    destruct a as [d' [r|]]; [done |].
    unfold parseable; simpl. exact Hs.
Qed.

(** The textual form holds an at-sign when the resource is non-empty, and
    otherwise when the domain holds one. *)
Lemma Q2QAddress_str_contains (a : Q2QAddress) :
  contains at_sign (Q2QAddress_str a)
  = truthy (resource a) || contains at_sign (domain a).
Proof.
  destruct a as [d [[|c r]|]]; try done.
  rewrite Q2QAddress_str_resource by done.
  rewrite contains_append. simpl. by rewrite !orb_true_r.
Qed.

(** C4, as the code has it: the addresses read back from their textual
    form are exactly those whose resource is absent, with a domain free of
    at-signs, or a non-empty string free of at-signs; the textual form of
    any address holds an at-sign exactly when the resource is non-empty or
    the domain holds one, so for every address with a domain free of
    at-signs, the anonymous one included, exactly when the resource is
    non-empty; and parsing splits at the first at-sign: what precedes it
    becomes the resource, the rest the domain, and a string without one is
    a bare domain. *)
Theorem fromString_str_roundtrip (a : Q2QAddress) :
  (fromString (Q2QAddress_str a) = Some a ↔ parseable a)
  ∧ (contains at_sign (Q2QAddress_str a) = true
     ↔ truthy (resource a) = true ∨ contains at_sign (domain a) = true)
  ∧ (contains at_sign (domain a) = false →
     (contains at_sign (Q2QAddress_str a) = true ↔ truthy (resource a) = true))
  ∧ (∀ u d, contains at_sign u = false →
            fromString (u +:+ "@" +:+ d) = Some (mkQ2QAddress d (Some u)))
  ∧ (∀ s, contains at_sign s = false → fromString s = Some (mkQ2QAddress s None)).
Proof.
  split; [| split; [| split; [| split]]].
  - split; [apply fromString_str_only_parseable |].
    intros Hp. destruct a as [d [r|]]; unfold parseable in Hp; simpl in Hp.
    + destruct Hp as [Hr Hat].
      rewrite Q2QAddress_str_resource by done.
      by apply fromString_user_domain.
    + rewrite Q2QAddress_str_domain. by apply fromString_domain_only.
  - rewrite Q2QAddress_str_contains. apply orb_true_iff.
  - intros Hd. rewrite Q2QAddress_str_contains, Hd. by rewrite orb_false_r.
  - apply fromString_user_domain.
  - apply fromString_domain_only.
Qed.

Lemma fromString_str_roundtrip_witness :
  fromString (Q2QAddress_str (mkQ2QAddress "divmod.com" (Some "glyph")))
  = Some (mkQ2QAddress "divmod.com" (Some "glyph"))
  ∧ (contains at_sign (Q2QAddress_str (mkQ2QAddress "" (Some ""))) = true
     ↔ truthy (resource (mkQ2QAddress "" (Some ""))) = true).
Proof.
  split.
  - apply (proj2 (proj1 (fromString_str_roundtrip (mkQ2QAddress "divmod.com" (Some "glyph"))))).
    unfold parseable; simpl. split; [discriminate | reflexivity].
  - apply (proj1 (proj2 (proj2 (fromString_str_roundtrip (mkQ2QAddress "" (Some "")))))).
    reflexivity.
Defined.

(** C4 as stated fails: [fromString "@divmod.com"] is an address with the
    empty string as resource; its textual form is ["divmod.com"], which
    parses to the address without resource.  A resource holding an at-sign
    is split too early, and a domain holding one puts an at-sign into the
    textual form of an address that has no resource. *)
Lemma fromString_str_roundtrip_fails :
  fromString "@divmod.com" = Some (mkQ2QAddress "divmod.com" (Some ""))
  ∧ fromString (Q2QAddress_str (mkQ2QAddress "divmod.com" (Some "")))
    ≠ Some (mkQ2QAddress "divmod.com" (Some ""))
  ∧ fromString (Q2QAddress_str (mkQ2QAddress "divmod.com" (Some "a@b")))
    ≠ Some (mkQ2QAddress "divmod.com" (Some "a@b"))
  ∧ (contains at_sign (Q2QAddress_str (mkQ2QAddress "glyph@divmod.com" None)) = true
     ∧ truthy (resource (mkQ2QAddress "glyph@divmod.com" None)) = false).
Proof. repeat split; vm_compute; congruence. Qed.

(** ** The authorization rule *)

Lemma claimedAsIssuerOf_domainAddress a cert :
  claimedAsIssuerOf (domainAddress a) cert = bool_decide (issuer_commonName cert = domain a).
Proof. unfold claimedAsIssuerOf. by rewrite Q2QAddress_str_domainAddress. Qed.

Lemma claimedAsSubjectOf_domainAddress a cert :
  claimedAsSubjectOf (domainAddress a) cert = bool_decide (subject_commonName cert = domain a).
Proof. unfold claimedAsSubjectOf. by rewrite Q2QAddress_str_domainAddress. Qed.

(** On a connection that is not authorized only the anonymous peer passes,
    and no certificate is looked at. *)
Lemma verifyCertificateAllowed_unauthorized self our their :
  authorized self = false →
  verifyCertificateAllowed self our their =
    if bool_decide (domain their = "") then Ok (Some true) else Raise VerifyError.
Proof. intros H. unfold verifyCertificateAllowed. by rewrite H. Qed.

(** On an authorized connection with both certificates at hand the outcome
    is a function of four name comparisons. *)
Lemma verifyCertificateAllowed_authorized self ourCert peerCert our their :
  authorized self = true →
  hostCertificate self = Some ourCert →
  transport_peerCertificate self = Some peerCert →
  verifyCertificateAllowed self our their =
    if bool_decide (issuer_commonName ourCert = domain our) then
      if bool_decide (issuer_commonName peerCert = domain their) then
        if bool_decide (subject_commonName peerCert = Q2QAddress_str their)
           || bool_decide (subject_commonName peerCert = domain their)
        then Ok None else Raise VerifyError
      else if bool_decide (issuer_commonName peerCert = domain our) then Ok None
      else if bool_decide (issuer_commonName peerCert = Q2QAddress_str our) then Ok None
      else Raise VerifyError
    else Raise VerifyError.
Proof.
  intros Ha Hh Hp. unfold verifyCertificateAllowed, peerFromTransport.
  rewrite Ha, Hh, Hp. simpl.
  rewrite !claimedAsIssuerOf_domainAddress, claimedAsSubjectOf_domainAddress.
  unfold claimedAsIssuerOf, claimedAsSubjectOf.
  by destruct (bool_decide (issuer_commonName ourCert = domain our)).
Qed.

(** C1, as the code has it: the check succeeds exactly when the peer is
    anonymous on an unauthorized connection, or the connection is
    authorized, our domain issued our certificate, and either the peer's
    claimed domain issued the peer certificate and its subject is the
    claimed address or domain, or the peer's claimed domain did not issue it
    and our domain or our address did.  Every other call raises
    [VerifyError]. *)
Theorem verifyCertificateAllowed_iff self ourCert peerCert our their :
  (authorized self = true →
   hostCertificate self = Some ourCert ∧ transport_peerCertificate self = Some peerCert) →
  (is_Ok (verifyCertificateAllowed self our their) = true
   ↔ certificate_allowed self ourCert peerCert our their)
  ∧ (is_Ok (verifyCertificateAllowed self our their) = false →
     verifyCertificateAllowed self our their = Raise VerifyError).
Proof.
  intros Hcerts. unfold certificate_allowed.
  destruct (authorized self) eqn:Ha.
  - destruct (Hcerts eq_refl) as [Hh Hp].
    rewrite (verifyCertificateAllowed_authorized _ _ _ _ _ Ha Hh Hp).
    clear Hcerts Hh Hp.
    repeat case_bool_decide; simpl; (split; [| done]); intuition congruence.
  - rewrite (verifyCertificateAllowed_unauthorized _ _ _ Ha). clear Hcerts.
    case_bool_decide; simpl; (split; [| done]); intuition congruence.
Qed.

Lemma verifyCertificateAllowed_iff_witness :
  is_Ok (verifyCertificateAllowed divmod_server_conn
           (mkQ2QAddress "divmod.com" None) (mkQ2QAddress "divmod.com" (Some "bob"))) = true
  ↔ certificate_allowed divmod_server_conn
      (mkCertificate "divmod.com" "divmod.com") (mkCertificate "divmod.com" "bob@divmod.com")
      (mkQ2QAddress "divmod.com" None) (mkQ2QAddress "divmod.com" (Some "bob")).
Proof.
  apply (verifyCertificateAllowed_iff divmod_server_conn
           (mkCertificate "divmod.com" "divmod.com")
           (mkCertificate "divmod.com" "bob@divmod.com")).
  intros _. split; reflexivity.
Defined.

(** C1 as stated fails: [bob@divmod.com], holding a certificate issued by
    [divmod.com], tells the [divmod.com] server that he is
    [glyph@divmod.com].  The domain of our address is the issuer of the peer
    certificate, so the stated rule lets the call succeed; the code raises
    [VerifyError], because the peer's claimed domain issued the certificate
    and its subject is neither the claimed address nor the domain. *)
Lemma verifyCertificateAllowed_spec_rule_fails :
  spec_certificate_allowed divmod_server_conn
    (mkCertificate "divmod.com" "divmod.com") (mkCertificate "divmod.com" "bob@divmod.com")
    (mkQ2QAddress "divmod.com" None) (mkQ2QAddress "divmod.com" (Some "glyph"))
  ∧ verifyCertificateAllowed divmod_server_conn
      (mkQ2QAddress "divmod.com" None) (mkQ2QAddress "divmod.com" (Some "glyph"))
    = Raise VerifyError.
Proof.
  split; [| reflexivity].
  right. split; [reflexivity |]. split; [reflexivity |].
  right. left. reflexivity.
Qed.

(** The examples of the docstring of [verifyCertificateAllowed]. *)
Example verify_docstring_valid :
  verifyCertificateAllowed
    (mkQ2Q true None (Some (mkCertificate "divmod.com" "glyph@divmod.com"))
           (Some (mkCertificate "twistedmatrix.com" "exarkun@twistedmatrix.com")) ∅ [] [])
    (mkQ2QAddress "divmod.com" (Some "glyph"))
    (mkQ2QAddress "twistedmatrix.com" (Some "exarkun")) = Ok None.
Proof. reflexivity. Qed.

Example verify_docstring_verisign :
  verifyCertificateAllowed
    (mkQ2Q true None (Some (mkCertificate "divmod.com" "divmod.com"))
           (Some (mkCertificate "verisign.com" "twistedmatrix.com")) ∅ [] [])
    (mkQ2QAddress "divmod.com" None)
    (mkQ2QAddress "twistedmatrix.com" None) = Raise VerifyError.
Proof. reflexivity. Qed.

Example verify_docstring_own_domain :
  verifyCertificateAllowed
    (mkQ2Q true None (Some (mkCertificate "divmod.com" "divmod.com"))
           (Some (mkCertificate "divmod.com" "glyph@twistedmatrix.com")) ∅ [] [])
    (mkQ2QAddress "divmod.com" None)
    (mkQ2QAddress "twistedmatrix.com" (Some "glyph")) = Ok None.
Proof. reflexivity. Qed.

Example verify_docstring_anonymous :
  verifyCertificateAllowed
    (mkQ2Q false None (Some (mkCertificate "divmod.com" "divmod.com"))
           (Some (mkCertificate "@" "@")) ∅ [] [])
    (mkQ2QAddress "divmod.com" None)
    (mkQ2QAddress "" (Some "")) = Ok (Some true).
Proof. reflexivity. Qed.

(** ** Relaying INBOUND replies *)

Lemma relayable_iff meth : relayable meth = true ↔ meth ≠ VirtualMethod.
Proof. destruct meth; simpl; split; congruence. Qed.

Lemma massage_relayed listener cert irl result :
  transport_peerCertificate listener = Some cert →
  _massageClientInboundResponse irl listener result
  = (Ok (), result ++ omap (relayed cert) irl).
Proof.
  intros Hcert. revert result.
  induction irl as [|li irl IH]; intros result; simpl.
  - by rewrite app_nil_r.
  - unfold relayed at 1, peerFromTransport. rewrite Hcert.
    destruct (filter _ (li_methods li)) as [|meth methods]; simpl.
    + apply IH.
    + rewrite IH. by rewrite <- app_assoc.
Qed.

Lemma relayed_Some cert li e :
  relayed cert li = Some e →
  li_certificate e = Some cert
  ∧ li_methods e = filter (λ meth, relayable meth = true) (li_methods li)
  ∧ li_methods e ≠ []
  ∧ li_id e = li_id li ∧ li_expires e = li_expires li
  ∧ li_description e = li_description li.
Proof.
  unfold relayed.
  destruct (filter _ (li_methods li)) as [|meth methods]; [done |].
  intros [= <-]. simpl. done.
Qed.

Lemma relayed_None cert li :
  relayed cert li = None ↔ ∀ meth, meth ∈ li_methods li → meth = VirtualMethod.
Proof.
  unfold relayed.
  destruct (filter _ (li_methods li)) as [|meth methods] eqn:Hf.
  - split; [| done]. intros _ meth Hin.
    destruct (decide (relayable meth = true)) as [Hr|Hr].
    + assert (meth ∈ filter (λ meth, relayable meth = true) (li_methods li))
        by (by apply list_elem_of_filter).
      rewrite Hf in H. by apply elem_of_nil in H.
    + destruct meth; simpl in Hr; congruence.
  - split; [done |]. intros Hall.
    assert (Hin : meth ∈ filter (λ meth, relayable meth = true) (li_methods li))
      by (rewrite Hf; left).
    apply list_elem_of_filter in Hin as [Hr Hin].
    apply Hall in Hin. subst. done.
Qed.

(** C3, as the code has it: the methods that survive relaying are all but
    [VirtualMethod] (TCP, PTCP, RPTCP and also unrecognised methods); an
    entry left without methods is dropped; every entry that keeps a method
    carries the TLS peer certificate of the listening client's connection,
    whatever certificate it advertised, and is appended to the reply in
    order. *)
Theorem massage_relays_all_but_virtual listener cert irl result :
  transport_peerCertificate listener = Some cert →
  _massageClientInboundResponse irl listener result
  = (Ok (), result ++ omap (relayed cert) irl)
  ∧ (∀ li e, relayed cert li = Some e →
       li_certificate e = Some cert
       ∧ li_methods e = filter (λ meth, relayable meth = true) (li_methods li)
       ∧ li_methods e ≠ [])
  ∧ (∀ li, relayed cert li = None ↔ ∀ meth, meth ∈ li_methods li → meth = VirtualMethod)
  ∧ (∀ meth, relayable meth = true ↔ meth ≠ VirtualMethod).
Proof.
  intros Hcert. split; [by apply massage_relayed |].
  split; [| split].
  - intros li e He. apply relayed_Some in He. tauto.
  - apply relayed_None.
  - apply relayable_iff.
Qed.

Lemma massage_relays_all_but_virtual_witness :
  _massageClientInboundResponse
    [mkListenerInfo "glyph@divmod.com->radix@twistedmatrix.com:1" None
       [TCPMethod "187.48.38.3" 49812; VirtualMethod] 120 "my home machine";
     mkListenerInfo "glyph@divmod.com->radix@twistedmatrix.com:2" None
       [VirtualMethod] 120 "at lab"]
    radix_listener []
  = (Ok (),
     [mkListenerInfo "glyph@divmod.com->radix@twistedmatrix.com:1"
        (Some (mkCertificate "twistedmatrix.com" "radix@twistedmatrix.com"))
        [TCPMethod "187.48.38.3" 49812] 120 "my home machine"]).
Proof.
  exact (proj1 (massage_relays_all_but_virtual radix_listener
                  (mkCertificate "twistedmatrix.com" "radix@twistedmatrix.com")
                  _ [] eq_refl)).
Defined.

(** C3 as stated fails: a method the receiver does not recognise, such as
    the [udp@...] method of the docstring of [Inbound], is relayable in the
    code, although it is none of TCP, PTCP and RPTCP; it survives the relay
    filter and keeps its entry in the reply. *)
Lemma massage_relays_unknown_method :
  spec_relayable (UnknownMethod "udp@187.48.38.3:49814") = false
  ∧ relayable (UnknownMethod "udp@187.48.38.3:49814") = true
  ∧ _massageClientInboundResponse
      [mkListenerInfo "glyph@divmod.com->radix@twistedmatrix.com:1" None
         [UnknownMethod "udp@187.48.38.3:49814"; VirtualMethod] 120 "my home machine"]
      radix_listener []
    = (Ok (),
       [mkListenerInfo "glyph@divmod.com->radix@twistedmatrix.com:1"
          (Some (mkCertificate "twistedmatrix.com" "radix@twistedmatrix.com"))
          [UnknownMethod "udp@187.48.38.3:49814"] 120 "my home machine"]).
Proof. repeat split. Qed.

(** ** Trying connection methods in turn *)

Section Endeferify.

Context {A : Type}.
Implicit Types (fs pre post : list (M A)) (f : M A) (w : World) (fc es : list exn).

(** Once a chain of failures is being carried, an exhausted list fails with
    [AttemptsFailed] of the chain. *)
Lemma endeferify_chain_nil fc w :
  _endeferify (A:=A) [] (Some fc) w = (Raise (AttemptsFailed fc), w).
Proof. reflexivity. Qed.

Lemma endeferify_chain_cons f fs fc w :
  _endeferify (f :: fs) (Some fc) w =
    match f w with
    | (Ok v, w') => (Ok v, w')
    | (Raise e, w') => _endeferify fs (Some (fc ++ [e])) w'
    end.
Proof. reflexivity. Qed.

(** The first call of a non-empty list starts the chain. *)
Lemma endeferify_start f fs w :
  _endeferify (f :: fs) None w = _endeferify (f :: fs) (Some []) w.
Proof. reflexivity. Qed.

Lemma endeferify_chain_success pre : ∀ f post fc w es w1 v w2,
  all_fail pre w = Some (es, w1) →
  f w1 = (Ok v, w2) →
  _endeferify (pre ++ f :: post) (Some fc) w = (Ok v, w2).
Proof.
  induction pre as [|g pre IH]; intros f post fc w es w1 v w2 Hpre Hf.
  - simpl in Hpre. injection Hpre as <- <-.
    simpl app. rewrite endeferify_chain_cons. by rewrite Hf.
  - simpl in Hpre. simpl app. rewrite endeferify_chain_cons.
    destruct (g w) as [[v'|e] w'] eqn:Hg; [done |].
    destruct (all_fail pre w') as [[es' w'']|] eqn:Hrest; [| done].
    injection Hpre as <- <-.
    by apply (IH _ _ _ _ _ _ _ _ Hrest Hf).
Qed.

Lemma endeferify_chain_failure fs : ∀ fc w es w',
  all_fail fs w = Some (es, w') →
  _endeferify fs (Some fc) w = (Raise (AttemptsFailed (fc ++ es)), w').
Proof.
  induction fs as [|g fs IH]; intros fc w es w' Hall.
  - simpl in Hall. injection Hall as <- <-.
    by rewrite endeferify_chain_nil, app_nil_r.
  - simpl in Hall. rewrite endeferify_chain_cons.
    destruct (g w) as [[v'|e] w1] eqn:Hg; [done |].
    destruct (all_fail fs w1) as [[es' w'']|] eqn:Hrest; [| done].
    injection Hall as <- <-.
    rewrite (IH _ _ _ _ Hrest). by rewrite <- app_assoc.
Qed.

(** C2.  Called on a list of calls, [_endeferify] makes them in order.  If
    the calls before [f] all fail and [f] succeeds, the result is the
    result of [f], and the world is the one [f] left: no later call is
    made.  If every call of a non-empty list fails, the result is
    [AttemptsFailed] carrying the failures in order.  On the empty list it
    is [NoAttemptsMade]. *)
Theorem endeferify_first_success w :
  (∀ pre f post es w1 v w2,
     all_fail pre w = Some (es, w1) →
     f w1 = (Ok v, w2) →
     _endeferify (pre ++ f :: post) None w = (Ok v, w2))
  ∧ (∀ fs es w',
       fs ≠ [] →
       all_fail fs w = Some (es, w') →
       _endeferify fs None w = (Raise (AttemptsFailed es), w'))
  ∧ _endeferify (A:=A) [] None w = (Raise NoAttemptsMade, w).
Proof.
  split; [| split].
  - intros pre f post es w1 v w2 Hpre Hf.
    destruct pre as [|g pre].
    + simpl app. rewrite endeferify_start.
      by apply (endeferify_chain_success [] _ _ _ _ _ _ _ _ Hpre Hf).
    + simpl app. rewrite endeferify_start.
      by apply (endeferify_chain_success (g :: pre) _ _ _ _ _ _ _ _ Hpre Hf).
  - intros fs es w' Hne Hall.
    destruct fs as [|g fs]; [done |].
    rewrite endeferify_start.
    by rewrite (endeferify_chain_failure _ _ _ _ _ Hall).
  - reflexivity.
Qed.

End Endeferify.

(** Three attempts: the first fails, the second succeeds, the third is
    never made (its trace entry is missing). *)
Lemma endeferify_first_success_witness :
  _endeferify
    [ (emit (EvLogErr ConnectionError) ;; raise ConnectionError) : M nat;
      (emit (EvLogErr NoAttemptsMade) ;; mret 7);
      (emit (EvLogErr KeyError) ;; raise KeyError) ]
    None initial_world
  = (Ok 7, with_trace (λ _, [EvLogErr ConnectionError; EvLogErr NoAttemptsMade])
             initial_world).
Proof.
  exact (proj1 (endeferify_first_success initial_world)
           [emit (EvLogErr ConnectionError) ;; raise ConnectionError]
           (emit (EvLogErr NoAttemptsMade) ;; mret 7)
           [emit (EvLogErr KeyError) ;; raise KeyError]
           [ConnectionError] _ 7 _ eq_refl eq_refl).
Defined.

Example endeferify_all_fail :
  _endeferify [raise ConnectionError : M nat; raise KeyError] None initial_world
  = (Raise (AttemptsFailed [ConnectionError; KeyError]), initial_world).
Proof. reflexivity. Qed.

(** ** LISTEN *)

Section Listen.

Variables (self : Ref) (From : Q2QAddress) (theirCert : Certificate) (description : string).

Local Abbreviation value := (self, theirCert, description).

(** Registering never removes anything. *)
Lemma register_listener_keeps_own w pn kv :
  kv ∈ listeningClient (q2qs w !!! self) →
  kv ∈ listeningClient
         (q2qs (register_listener self From theirCert description w pn) !!! self).
Proof.
  intros Hin. unfold register_listener; simpl.
  rewrite lookup_total_insert_eq. simpl. apply elem_of_app. by left.
Qed.

Lemma register_listener_keeps_registry w pn key v :
  v ∈ default [] (listeningClients (service w) !! key) →
  v ∈ default []
        (listeningClients
           (service (register_listener self From theirCert description w pn)) !! key).
Proof.
  intros Hin. unfold register_listener; simpl.
  destruct (decide ((From, pn) = key)) as [<-|Hne].
  - rewrite lookup_insert_eq. simpl. apply elem_of_app. by left.
  - by rewrite lookup_insert_ne.
Qed.

Lemma register_listener_adds_own w pn :
  ((From, pn), value)
  ∈ listeningClient
      (q2qs (register_listener self From theirCert description w pn) !!! self).
Proof.
  unfold register_listener; simpl.
  rewrite lookup_total_insert_eq. simpl. apply elem_of_app. right. left.
Qed.

Lemma register_listener_adds_registry w pn :
  value
  ∈ default []
      (listeningClients
         (service (register_listener self From theirCert description w pn))
       !! (From, pn)).
Proof.
  unfold register_listener; simpl.
  rewrite lookup_insert_eq. simpl. apply elem_of_app. right. left.
Qed.

Lemma registered_all pre : ∀ w pn,
  pn ∈ pre →
  let w' := foldl (register_listener self From theirCert description) w pre in
  ((From, pn), value) ∈ listeningClient (q2qs w' !!! self)
  ∧ value ∈ default [] (listeningClients (service w') !! (From, pn)).
Proof.
  induction pre as [|x pre IH] using rev_ind; intros w pn Hin; [by apply elem_of_nil in Hin |].
  simpl. rewrite foldl_app. simpl.
  apply elem_of_app in Hin as [Hin|Hin].
  - destruct (IH w pn Hin) as [H1 H2]. split.
    + by apply register_listener_keeps_own.
    + by apply register_listener_keeps_registry.
  - apply list_elem_of_singleton in Hin as ->. split.
    + apply register_listener_adds_own.
    + apply register_listener_adds_registry.
Qed.

(** The loop of [command_LISTEN] over names that do not start with a dot. *)
Lemma listen_loop_ok pre : ∀ w,
  Forall (λ pn, startswith pn "." = false) pre →
  for_each pre (λ protocolName,
    if startswith protocolName "." then raise VerifyError
    else
      let key := (From, protocolName) in
      let value := (self, theirCert, description) in
      update_q2q self (with_listeningClient (λ l, l ++ [(key, value)])) ;;
      update_service
        (with_listeningClients (λ d, <[key := default [] (d !! key) ++ [value]]> d))) w
  = (Ok (), foldl (register_listener self From theirCert description) w pre).
Proof.
  induction pre as [|x pre IH]; intros w Hpre; [done |].
  apply Forall_cons in Hpre as [Hx Hpre].
  rewrite for_each_cons. rewrite Hx. simpl foldl.
  rewrite <- (IH _ Hpre). reflexivity.
Qed.

End Listen.

(** C10.  When the protocol list of a LISTEN holds a name that starts with
    a dot, the command raises [VerifyError] on reaching the first such
    name, and the world it leaves is the one a successful LISTEN of the
    names before it leaves: each of them is registered in the connection's
    own list and in the service's registry. *)
Theorem command_LISTEN_not_atomic self pre p rest From description w theirCert :
  is_Ok (verifyCertificateAllowed (q2qs w !!! self) From From) = true →
  transport_peerCertificate (q2qs w !!! self) = Some theirCert →
  Forall (λ pn, startswith pn "." = false) pre →
  startswith p "." = true →
  ∃ w',
    command_LISTEN self (pre ++ p :: rest) From description w = (Raise VerifyError, w')
    ∧ command_LISTEN self pre From description w = (Ok (), w')
    ∧ ∀ pn, pn ∈ pre →
        ((From, pn), (self, theirCert, description)) ∈ listeningClient (q2qs w' !!! self)
        ∧ (self, theirCert, description)
          ∈ default [] (listeningClients (service w') !! (From, pn)).
Proof.
  intros Hverify Hcert Hpre Hp.
  exists (foldl (register_listener self From theirCert description) w pre).
  assert (Hrun : ∀ protocols,
    command_LISTEN self protocols From description w =
      match for_each protocols (λ protocolName,
        if startswith protocolName "." then raise VerifyError
        else
          let key := (From, protocolName) in
          let value := (self, theirCert, description) in
          update_q2q self (with_listeningClient (λ l, l ++ [(key, value)])) ;;
          update_service
            (with_listeningClients (λ d, <[key := default [] (d !! key) ++ [value]]> d))) w
      with
      | (Ok _, w') => (Ok (), w')
      | (Raise e, w') => (Raise e, w')
      end).
  { intros protocols. unfold command_LISTEN.
    rewrite bind_run. unfold get_q2q at 1. cbv beta iota.
    rewrite bind_run. unfold lift at 1.
    destruct (verifyCertificateAllowed (q2qs w !!! self) From From) as [r|e]; [| done].
    rewrite bind_run. unfold lift at 1, peerFromTransport. rewrite Hcert.
    rewrite bind_run. reflexivity. }
  split; [| split].
  - rewrite Hrun, for_each_app, (listen_loop_ok _ _ _ _ _ _ Hpre).
    rewrite for_each_cons, Hp. reflexivity.
  - rewrite Hrun, (listen_loop_ok _ _ _ _ _ _ Hpre). reflexivity.
  - intros pn Hin. by apply registered_all.
Qed.

Lemma command_LISTEN_not_atomic_witness :
  ∃ w',
    command_LISTEN 0 (["q2q-example"; "q2q-example2"] ++ ".internal" :: ["other"])
      (mkQ2QAddress "divmod.com" (Some "bob")) "some simple protocols" divmod_world
    = (Raise VerifyError, w')
    ∧ command_LISTEN 0 ["q2q-example"; "q2q-example2"]
        (mkQ2QAddress "divmod.com" (Some "bob")) "some simple protocols" divmod_world
      = (Ok (), w')
    ∧ ∀ pn, pn ∈ ["q2q-example"; "q2q-example2"] →
        ((mkQ2QAddress "divmod.com" (Some "bob"), pn),
         (0, mkCertificate "divmod.com" "bob@divmod.com", "some simple protocols"))
        ∈ listeningClient (q2qs w' !!! 0)
        ∧ (0, mkCertificate "divmod.com" "bob@divmod.com", "some simple protocols")
          ∈ default [] (listeningClients (service w')
                          !! (mkQ2QAddress "divmod.com" (Some "bob"), pn)).
Proof.
  apply (command_LISTEN_not_atomic 0 ["q2q-example"; "q2q-example2"] ".internal" ["other"]
           (mkQ2QAddress "divmod.com" (Some "bob")) "some simple protocols" divmod_world
           (mkCertificate "divmod.com" "bob@divmod.com")).
  - reflexivity.
  - reflexivity.
  - repeat constructor.
  - reflexivity.
Defined.

(** ** Virtual transports *)

Lemma logged_logged es1 es2 w : logged es2 (logged es1 w) = logged (es1 ++ es2) w.
Proof. unfold logged, with_trace; simpl. by rewrite app_assoc. Qed.

Lemma logged_nil w : logged [] w = w.
Proof. destruct w. unfold logged, with_trace; simpl. by rewrite app_nil_r. Qed.

(** [VirtualTransport.connectionLost], case by case. *)
Lemma VirtualTransport_connectionLost_run v reason w :
  let t := transports w !!! v in
  let q := vt_q2q t in
  let w1 := logged [EvConnectionLost v reason] w in
  VirtualTransport_connectionLost v reason w =
    match connections (q2qs w !!! q) !! vt_id t with
    | None => (Raise KeyError, w1)
    | Some _ =>
        let w2 :=
          with_q2qs (λ h, <[q := with_connections (delete (vt_id t)) (h !!! q)]> h) w1 in
        match vt_protocol t with
        | None => (Raise AttributeError, w2)
        | Some p =>
            let w3 := logged [EvUser (protocol_connectionLost p reason)] w2 in
            match user_raises w (protocol_connectionLost p reason) with
            | Some e => (Raise e, w3)
            | None =>
                if vt_isClient t then
                  (match user_raises w
                           (factory_clientConnectionLost (vt_protocolFactory t) reason) with
                   | Some e => Raise e
                   | None => Ok ()
                   end,
                   logged [EvUser (factory_clientConnectionLost
                                     (vt_protocolFactory t) reason)] w3)
                else (Ok (), w3)
            end
        end
    end.
Proof.
  intros t q w1. unfold VirtualTransport_connectionLost. mrun.
  fold t. fold q.
  destruct (connections (q2qs w !!! q) !! vt_id t) as [x|] eqn:Hc.
  - rewrite (bind_getitem_Some _ _ _ _ _ Hc). mrun.
    rewrite bind_run.
    destruct (vt_protocol t) as [p|].
    + rewrite call_user_run. wsimpl.
      destruct (user_raises w (protocol_connectionLost p reason)) as [e|]; [done |].
      destruct (vt_isClient t); [| done].
      by rewrite call_user_run.
    + done.
  - by rewrite (bind_getitem_None _ _ _ _ Hc).
Qed.

(** What [connectionLost] leaves alone: the service, the transports, the
    reactor, the application's behaviour. *)
Lemma VirtualTransport_connectionLost_frame v reason w :
  let w' := (VirtualTransport_connectionLost v reason w).2 in
  service w' = service w ∧ transports w' = transports w
  ∧ seconds w' = seconds w ∧ delayedCalls w' = delayedCalls w
  ∧ pendingTimedCalls w' = pendingTimedCalls w
  ∧ next_ref w' = next_ref w ∧ user_raises w' = user_raises w.
Proof.
  intros w'. unfold w'. rewrite VirtualTransport_connectionLost_run.
  repeat case_match; simpl; done.
Qed.

(** Its effect on the connection maps: the entry under the channel's own id
    goes, on the channel's own connection; nothing else changes. *)
Lemma VirtualTransport_connectionLost_connections v reason w q id :
  let t := transports w !!! v in
  connections (q2qs (VirtualTransport_connectionLost v reason w).2 !!! q) !! id =
    if decide (q = vt_q2q t ∧ id = vt_id t) then None
    else connections (q2qs w !!! q) !! id.
Proof.
  intros t. rewrite VirtualTransport_connectionLost_run. fold t.
  destruct (connections (q2qs w !!! vt_q2q t) !! vt_id t) as [x|] eqn:Hc.
  - assert (Hq : ∀ w', q2qs w' = <[vt_q2q t := with_connections (delete (vt_id t))
                                      (q2qs w !!! vt_q2q t)]> (q2qs w) →
                  connections (q2qs w' !!! q) !! id =
                    if decide (q = vt_q2q t ∧ id = vt_id t) then None
                    else connections (q2qs w !!! q) !! id).
    { intros w' ->. destruct (decide (q = vt_q2q t)) as [->|Hq].
      - rewrite lookup_total_insert_eq. simpl.
        destruct (decide (id = vt_id t)) as [->|Hid].
        + rewrite lookup_delete_eq. by rewrite decide_True.
        + rewrite lookup_delete_ne by done. rewrite decide_False; [done | by intros [_ ?]].
      - rewrite lookup_total_insert_ne by done.
        rewrite decide_False; [done | by intros [? _]]. }
    repeat case_match; apply Hq; done.
  - simpl. case_decide as Hd; [| done]. destruct Hd as [-> ->]. done.
Qed.

(** Entering [connectionLost] leaves the trace so far in place. *)
Lemma VirtualTransport_connectionLost_trace v reason w :
  ∃ rest, trace (VirtualTransport_connectionLost v reason w).2
          = trace w ++ EvConnectionLost v reason :: rest.
Proof.
  rewrite VirtualTransport_connectionLost_run.
  repeat case_match; simpl; rewrite <- ?app_assoc; simpl; by eexists.
Qed.

(** ** Frames *)

Section Frames.

Context (R : relation World) `{!PreOrder R}.

Lemma frames_mret {A} (a : A) : frames R (mret a : M A).
Proof. intros w. simpl. reflexivity. Qed.

Lemma frames_raise {A} e : frames R (raise e : M A).
Proof. intros w. simpl. reflexivity. Qed.

Lemma frames_lift {A} (r : Res A) : frames R (lift r).
Proof. intros w. simpl. reflexivity. Qed.

Lemma frames_get_world : frames R get_world.
Proof. intros w. simpl. reflexivity. Qed.

Lemma frames_get_q2q q : frames R (get_q2q q).
Proof. intros w. simpl. reflexivity. Qed.

Lemma frames_get_transport v : frames R (get_transport v).
Proof. intros w. simpl. reflexivity. Qed.

Lemma frames_get_service : frames R get_service.
Proof. intros w. simpl. reflexivity. Qed.

Lemma frames_getitem {K A} `{Countable K} (d : gmap K A) k : frames R (getitem d k).
Proof. intros w. unfold getitem. destruct (d !! k); simpl; reflexivity. Qed.

Lemma frames_bind {A B} (m : M A) (k : A → M B) :
  frames R m → (∀ a, frames R (k a)) → frames R (m ≫= k).
Proof.
  intros Hm Hk w. rewrite bind_run. specialize (Hm w).
  destruct (m w) as [[a|e] w']; simpl in *; [| done].
  etrans; [exact Hm | apply Hk].
Qed.

Lemma frames_for_each {A} (xs : list A) (body : A → M unit) :
  (∀ x, frames R (body x)) → frames R (for_each xs body).
Proof.
  intros Hbody. induction xs as [|x xs IH]; [apply frames_mret |].
  simpl. apply frames_bind; [apply Hbody | intros _; apply IH].
Qed.

Lemma frames_try_except {A} (m : M A) (handler : exn → M A) :
  frames R m → (∀ e, frames R (handler e)) → frames R (try_except m handler).
Proof.
  intros Hm Hh w. unfold try_except. specialize (Hm w).
  destruct (m w) as [[a|e] w']; simpl in *; [done |].
  etrans; [exact Hm | apply Hh].
Qed.

Lemma frames_modify f : (∀ w, R w (f w)) → frames R (modify f).
Proof. intros Hf w. apply Hf. Qed.

End Frames.

(** The three frame relations are preorders. *)
Global Instance vt_same_preorder : PreOrder vt_same.
Proof.
  split.
  - intros w. unfold vt_same. repeat split; auto.
  - intros w1 w2 w3 (Ha & Hb & Hc & Hd) (Ha' & Hb' & Hc' & Hd').
    unfold vt_same. repeat split.
    + intros v. by rewrite Ha', Ha.
    + intros q. by rewrite Hb', Hb.
    + intros H. by apply Hc, Hc'.
    + intros H. by apply Hc', Hc.
    + lia.
Qed.

Global Instance reg_same_preorder : PreOrder reg_same.
Proof.
  split.
  - intros w. by split.
  - intros w1 w2 w3 (Ha & Hb) (Ha' & Hb'). split.
    + by rewrite Ha', Ha.
    + intros q. by rewrite Hb', Hb.
Qed.

Global Instance res_same_preorder : PreOrder res_same.
Proof.
  split.
  - intros w. unfold res_same. repeat split; auto.
  - intros w1 w2 w3 (Ha & Hb & Hc & Hd & He & Hf) (Ha' & Hb' & Hc' & Hd' & He' & Hf').
    unfold res_same. repeat split; try congruence. lia.
Qed.

(** A field of every connection is as before when the one connection that
    is updated keeps it. *)
Lemma q2q_update_field {X} (field : Q2Q → X) (f : Q2Q → Q2Q) (h : gmap Ref Q2Q) q q' :
  (∀ c, field (f c) = field c) →
  field (<[q := f (h !!! q)]> h !!! q') = field (h !!! q').
Proof.
  intros Hf. destruct (decide (q = q')) as [->|Hne].
  - by rewrite lookup_total_insert_eq.
  - by rewrite lookup_total_insert_ne.
Qed.

Lemma lost_logged w es v :
  lost (logged es w) v ↔ lost w v ∨ ∃ reason, EvConnectionLost v reason ∈ es.
Proof.
  unfold lost, logged; simpl. split.
  - intros [r Hr]. apply elem_of_app in Hr as [Hr|Hr]; [left | right]; eauto.
  - intros [[r Hr]|[r Hr]]; exists r; apply elem_of_app; auto.
Qed.

Lemma lost_emit w e v :
  (∀ reason, e ≠ EvConnectionLost v reason) →
  lost (with_trace (λ tr, tr ++ [e]) w) v ↔ lost w v.
Proof.
  intros He. change (with_trace _ w) with (logged [e] w).
  rewrite lost_logged. split; [| by left].
  intros [H|[r Hr]]; [done |].
  apply list_elem_of_singleton in Hr. by destruct (He r).
Qed.

Lemma frames_fresh_ref (R : relation World) :
  (∀ w, R w (with_next_ref (S (next_ref w)) w)) → frames R fresh_ref.
Proof. intros H w. apply H. Qed.

(** Goals [R w (f w)] for a primitive update [f] and one of the three
    frame relations. *)
Ltac solve_same :=
  intros; unfold vt_same, reg_same, res_same; wsimpl;
  repeat match goal with |- _ ∧ _ => split end;
  intros;
  first
    [ done
    | lia
    | by apply (q2q_update_field connections)
    | by apply (q2q_update_field listeningClient)
    | by apply lost_emit ].

(** Decomposition of a computation into its primitives. *)
Ltac frames_step :=
  lazymatch goal with
  | |- frames _ (_ ≫= _) => apply frames_bind; [typeclasses eauto | | intros ?]
  | |- frames _ (mret _) => apply frames_mret; typeclasses eauto
  | |- frames _ (raise _) => apply frames_raise; typeclasses eauto
  | |- frames _ (lift _) => apply frames_lift; typeclasses eauto
  | |- frames _ get_world => apply frames_get_world; typeclasses eauto
  | |- frames _ (get_q2q _) => apply frames_get_q2q; typeclasses eauto
  | |- frames _ (get_transport _) => apply frames_get_transport; typeclasses eauto
  | |- frames _ get_service => apply frames_get_service; typeclasses eauto
  | |- frames _ (getitem _ _) => apply frames_getitem; typeclasses eauto
  | |- frames _ (for_each _ _) => apply frames_for_each; [typeclasses eauto | intros ?]
  | |- frames _ (try_except _ _) =>
      apply frames_try_except; [typeclasses eauto | | intros ?]
  | |- frames _ (safely _) => unfold safely
  | |- frames _ (call_user _) => unfold call_user
  | |- frames _ (log_err _) => unfold log_err
  | |- frames _ (emit _) => unfold emit
  | |- frames _ (update_q2q _ _) => unfold update_q2q
  | |- frames _ (update_service _) => unfold update_service
  | |- frames _ (update_transport _ _) => unfold update_transport
  | |- frames _ (modify _) => apply frames_modify; solve_same
  | |- frames _ fresh_ref => apply frames_fresh_ref; solve_same
  | |- frames _ (match ?x with _ => _ end) => destruct x
  end.

Ltac solve_frames := repeat frames_step.

(** *** The registry is left alone by everything but LISTEN and the loss
    of a connection *)

Lemma VirtualTransport_connectionLost_reg_same v reason :
  frames reg_same (VirtualTransport_connectionLost v reason).
Proof. unfold VirtualTransport_connectionLost. solve_frames. Qed.

Lemma VirtualTransport_dataReceived_reg_same v data :
  frames reg_same (VirtualTransport_dataReceived v data).
Proof.
  unfold VirtualTransport_dataReceived. solve_frames.
  apply VirtualTransport_connectionLost_reg_same.
Qed.

Lemma VirtualTransport_init_reg_same q h p pn id f c :
  frames reg_same (VirtualTransport_init q h p pn id f c).
Proof. unfold VirtualTransport_init. solve_frames. Qed.

Lemma startProtocol_reg_same v : frames reg_same (startProtocol v).
Proof. unfold startProtocol. solve_frames. Qed.

Lemma loseConnection_reg_same v : frames reg_same (loseConnection v).
Proof. unfold loseConnection. solve_frames. Qed.

Lemma loseConnection_answered_reg_same v answer :
  frames reg_same (loseConnection_answered v answer).
Proof.
  unfold loseConnection_answered.
  destruct answer; apply VirtualTransport_connectionLost_reg_same.
Qed.

Lemma juice_WRITE_reg_same self box : frames reg_same (juice_WRITE self box).
Proof.
  unfold juice_WRITE. solve_frames. apply VirtualTransport_dataReceived_reg_same.
Qed.

Lemma juice_CLOSE_reg_same self box : frames reg_same (juice_CLOSE self box).
Proof.
  unfold juice_CLOSE. solve_frames. apply VirtualTransport_connectionLost_reg_same.
Qed.

Lemma notifyOnConnectionLost_reg_same self o :
  frames reg_same (notifyOnConnectionLost self o).
Proof. unfold notifyOnConnectionLost. solve_frames. Qed.

Lemma callLater_reg_same delay func : frames reg_same (callLater delay func).
Proof. unfold callLater. solve_frames. Qed.

Lemma mapListener_reg_same to From pn pf c : frames reg_same (mapListener to From pn pf c).
Proof.
  unfold mapListener, _nextConnectionID. solve_frames.
  apply callLater_reg_same.
Qed.

Lemma DelayedCall_cancel_reg_same call : frames reg_same (DelayedCall_cancel call).
Proof. unfold DelayedCall_cancel. solve_frames. Qed.

Lemma run_delayed_reg_same call : frames reg_same (run_delayed call).
Proof. unfold run_delayed, apply_delayed. solve_frames. Qed.

Lemma advance_reg_same dt : frames reg_same (advance dt).
Proof.
  unfold advance, runUntilCurrent. solve_frames. apply run_delayed_reg_same.
Qed.

Lemma command_VIRTUAL_reg_same self id : frames reg_same (command_VIRTUAL self id).
Proof.
  unfold command_VIRTUAL. solve_frames.
  - apply DelayedCall_cancel_reg_same.
  - apply VirtualTransport_init_reg_same.
Qed.

Lemma protocolAndAuthFromId_reg_same id tpt :
  frames reg_same (protocolAndAuthFromId id tpt).
Proof.
  unfold protocolAndAuthFromId, createProtocolWithTransport. solve_frames.
  apply DelayedCall_cancel_reg_same.
Qed.

Lemma stopService_reg_same : frames reg_same stopService.
Proof. unfold stopService. solve_frames. apply DelayedCall_cancel_reg_same. Qed.

(** *** Reservations and timers are left alone by everything but
    [mapListener], VIRTUAL, direct connections, the passing of time and
    the service stopping *)

Lemma VirtualTransport_connectionLost_res_same v reason :
  frames res_same (VirtualTransport_connectionLost v reason).
Proof. unfold VirtualTransport_connectionLost. solve_frames. Qed.

Lemma VirtualTransport_dataReceived_res_same v data :
  frames res_same (VirtualTransport_dataReceived v data).
Proof.
  unfold VirtualTransport_dataReceived. solve_frames.
  apply VirtualTransport_connectionLost_res_same.
Qed.

Lemma VirtualTransport_init_res_same q h p pn id f c :
  frames res_same (VirtualTransport_init q h p pn id f c).
Proof. unfold VirtualTransport_init. solve_frames. Qed.

Lemma startProtocol_res_same v : frames res_same (startProtocol v).
Proof. unfold startProtocol. solve_frames. Qed.

Lemma loseConnection_res_same v : frames res_same (loseConnection v).
Proof. unfold loseConnection. solve_frames. Qed.

Lemma loseConnection_answered_res_same v answer :
  frames res_same (loseConnection_answered v answer).
Proof.
  unfold loseConnection_answered.
  destruct answer; apply VirtualTransport_connectionLost_res_same.
Qed.

Lemma juice_WRITE_res_same self box : frames res_same (juice_WRITE self box).
Proof.
  unfold juice_WRITE. solve_frames. apply VirtualTransport_dataReceived_res_same.
Qed.

Lemma juice_CLOSE_res_same self box : frames res_same (juice_CLOSE self box).
Proof.
  unfold juice_CLOSE. solve_frames. apply VirtualTransport_connectionLost_res_same.
Qed.

Lemma notifyOnConnectionLost_res_same self o :
  frames res_same (notifyOnConnectionLost self o).
Proof. unfold notifyOnConnectionLost. solve_frames. Qed.

Lemma command_LISTEN_res_same self protocols From description :
  frames res_same (command_LISTEN self protocols From description).
Proof. unfold command_LISTEN. solve_frames. Qed.

Lemma Q2Q_connectionLost_res_same self reason :
  frames res_same (Q2Q_connectionLost self reason).
Proof.
  unfold Q2Q_connectionLost. solve_frames.
  apply VirtualTransport_connectionLost_res_same.
Qed.

(** *** Virtual transports are left alone by the registry, the
    reservations and the clock *)

Lemma notifyOnConnectionLost_vt_same self o :
  frames vt_same (notifyOnConnectionLost self o).
Proof. unfold notifyOnConnectionLost. solve_frames. Qed.

Lemma command_LISTEN_vt_same self protocols From description :
  frames vt_same (command_LISTEN self protocols From description).
Proof. unfold command_LISTEN. solve_frames. Qed.

Lemma callLater_vt_same delay func : frames vt_same (callLater delay func).
Proof. unfold callLater. solve_frames. Qed.

Lemma mapListener_vt_same to From pn pf c : frames vt_same (mapListener to From pn pf c).
Proof.
  unfold mapListener, _nextConnectionID. solve_frames.
  apply callLater_vt_same.
Qed.

Lemma run_delayed_vt_same call : frames vt_same (run_delayed call).
Proof. unfold run_delayed, apply_delayed. solve_frames. Qed.

Lemma advance_vt_same dt : frames vt_same (advance dt).
Proof.
  unfold advance, runUntilCurrent. solve_frames. apply run_delayed_vt_same.
Qed.

Lemma DelayedCall_cancel_vt_same call : frames vt_same (DelayedCall_cancel call).
Proof. unfold DelayedCall_cancel. solve_frames. Qed.

Lemma protocolAndAuthFromId_vt_same id tpt :
  frames vt_same (protocolAndAuthFromId id tpt).
Proof.
  unfold protocolAndAuthFromId, createProtocolWithTransport. solve_frames.
  apply DelayedCall_cancel_vt_same.
Qed.

Lemma stopService_vt_same : frames vt_same stopService.
Proof. unfold stopService. solve_frames. apply DelayedCall_cancel_vt_same. Qed.

(** *** Invariants through computations *)

Lemma preserves_bind {A B} (P : World → Prop) (m : M A) (k : A → M B) :
  preserves P m → (∀ a, preserves P (k a)) → preserves P (m ≫= k).
Proof.
  intros Hm Hk w HP. rewrite bind_run. specialize (Hm w HP).
  destruct (m w) as [[a|e] w']; simpl in *; [by apply Hk | done].
Qed.

Lemma preserves_for_each {A} (P : World → Prop) (xs : list A) (body : A → M unit) :
  (∀ x, x ∈ xs → preserves P (body x)) → preserves P (for_each xs body).
Proof.
  induction xs as [|x xs IH]; intros Hbody; [by intros w |].
  simpl. apply preserves_bind.
  - apply Hbody. left.
  - intros _. apply IH. intros y Hy. apply Hbody. by right.
Qed.

Lemma preserves_frames {A} (P : World → Prop) (R : relation World) (m : M A) :
  (∀ w w', P w → R w w' → P w') → frames R m → preserves P m.
Proof. intros HPR Hm w HP. by apply (HPR w), Hm. Qed.

Lemma preserves_safely (P : World → Prop) (f : M unit) :
  preserves P f → (∀ e, preserves P (log_err e)) → preserves P (safely f).
Proof.
  intros Hf Hlog w HP. unfold safely, try_except. specialize (Hf w HP).
  destruct (f w) as [[[]|e] w']; simpl in *; [done |].
  by apply (Hlog e).
Qed.

Lemma log_err_vt_same e : frames vt_same (log_err e).
Proof. solve_frames. Qed.

Lemma call_user_vt_same c : frames vt_same (call_user c).
Proof. solve_frames. Qed.

(** *** The transport objects are left alone by the loss of channels and
    connections *)

Global Instance transports_same_preorder : PreOrder transports_same.
Proof.
  split; [by intros w |].
  intros w1 w2 w3 H1 H2. unfold transports_same in *. congruence.
Qed.





(** ** WRITE *)

(** [VirtualTransport.dataReceived]: the data reaches the protocol; when
    that fails the failure is logged and the channel is torn down. *)
Lemma VirtualTransport_dataReceived_run v data w :
  VirtualTransport_dataReceived v data w =
    match dataReceived_failure w v data with
    | None => (Ok (), logged (dataReceived_events w v data) w)
    | Some e =>
        VirtualTransport_connectionLost v e
          (logged (dataReceived_events w v data ++ [EvLogErr e]) w)
    end.
Proof.
  unfold VirtualTransport_dataReceived, dataReceived_failure, dataReceived_events.
  rewrite bind_emit, bind_get_transport. simpl.
  unfold try_except.
  destruct (vt_protocol (transports w !!! v)) as [p|].
  - rewrite call_user_run. simpl.
    destruct (user_raises w (protocol_dataReceived p data)) as [e|].
    + rewrite bind_log_err. f_equal.
      unfold logged, with_trace; simpl. by rewrite <- !app_assoc.
    + f_equal. unfold logged, with_trace; simpl. by rewrite <- !app_assoc.
  - rewrite raise_run, bind_log_err. f_equal.
    unfold logged, with_trace; simpl. by rewrite <- !app_assoc.
Qed.

Lemma juice_WRITE_run self box id data w v :
  box !! "id" = Some id → box !! BODY = Some data →
  connections (q2qs w !!! self) !! id = Some v →
  juice_WRITE self box w =
    match VirtualTransport_dataReceived v data w with
    | (Ok _, w') => (Ok ∅, w')
    | (Raise e, w') => (Raise e, w')
    end.
Proof.
  intros Hid Hbody Hv. unfold juice_WRITE.
  rewrite bind_get_q2q.
  rewrite (bind_getitem_Some _ _ _ _ _ Hid).
  rewrite (bind_getitem_Some _ _ _ _ _ Hv).
  rewrite (bind_getitem_Some _ _ _ _ _ Hbody).
  rewrite bind_run.
  by destruct (VirtualTransport_dataReceived v data w) as [[[]|e] w'].
Qed.

(** C9, as the code has it.  A WRITE whose id is registered in the
    connection's map is handed, body and all, to the [dataReceived] of the
    channel registered under it.  If the channel's protocol takes the data
    the answer is the empty box and nothing else happens.  If it fails
    (there is no protocol yet, or it raises), the failure is logged, the
    channel is told [connectionLost] with it, and the answer is the empty
    box unless that raises in turn.  A WRITE whose id is not registered
    raises [KeyError] and changes nothing. *)
Theorem juice_WRITE_delivers self box id data w :
  box !! "id" = Some id →
  box !! BODY = Some data →
  (∀ v, connections (q2qs w !!! self) !! id = Some v →
     (∃ rest, trace (juice_WRITE self box w).2 = trace w ++ EvDataReceived v data :: rest)
     ∧ (dataReceived_failure w v data = None →
        juice_WRITE self box w = (Ok ∅, logged (dataReceived_events w v data) w))
     ∧ (∀ e, dataReceived_failure w v data = Some e →
        juice_WRITE self box w =
          match VirtualTransport_connectionLost v e
                  (logged (dataReceived_events w v data ++ [EvLogErr e]) w) with
          | (Ok _, w') => (Ok ∅, w')
          | (Raise e', w') => (Raise e', w')
          end))
  ∧ (connections (q2qs w !!! self) !! id = None →
     juice_WRITE self box w = (Raise KeyError, w)).
Proof.
  intros Hid Hbody. split.
  - intros v Hv.
    rewrite (juice_WRITE_run _ _ _ _ _ _ Hid Hbody Hv).
    rewrite VirtualTransport_dataReceived_run.
    split; [| split].
    + destruct (dataReceived_failure w v data) as [e|].
      * destruct (VirtualTransport_connectionLost_trace v e
                    (logged (dataReceived_events w v data ++ [EvLogErr e]) w))
          as [rest Hrest].
        destruct (VirtualTransport_connectionLost v e _) as [[[]|e'] w'];
          simpl in *; rewrite Hrest; unfold dataReceived_events; simpl;
          rewrite <- !app_assoc; simpl; by eexists.
      * simpl. unfold dataReceived_events. by eexists.
    + by intros ->.
    + by intros e ->.
  - intros Hnone. unfold juice_WRITE.
    rewrite bind_get_q2q.
    rewrite (bind_getitem_Some _ _ _ _ _ Hid).
    by rewrite (bind_getitem_None _ _ _ _ Hnone).
Qed.

Lemma juice_WRITE_delivers_witness :
  juice_WRITE 0 (write_box "bob@divmod.com->radix@divmod.com:1" "HELLO WORLD") channel_world
  = (Ok ∅, logged [EvDataReceived 0 "HELLO WORLD";
                   EvUser (protocol_dataReceived 1 "HELLO WORLD")] channel_world).
Proof.
  exact (proj1 (proj2 (proj1 (juice_WRITE_delivers 0
           (write_box "bob@divmod.com->radix@divmod.com:1" "HELLO WORLD")
           "bob@divmod.com->radix@divmod.com:1" "HELLO WORLD" channel_world
           eq_refl eq_refl) 0 eq_refl)) eq_refl).
Defined.

(** C9 as stated fails: a WRITE for an id that no channel is registered
    under raises [KeyError]; and a WRITE for a channel whose protocol has
    not been started ends in the [AttributeError] of the teardown. *)
Lemma juice_WRITE_unknown_id_raises :
  juice_WRITE 0 (write_box "no-such-channel" "HELLO WORLD") divmod_world
  = (Raise KeyError, divmod_world)
  ∧ (juice_WRITE 0 (write_box "bob@divmod.com->radix@divmod.com:1" "HELLO WORLD")
       unstarted_channel_world).1
    = Raise AttributeError.
Proof. split; reflexivity. Qed.

(** ** The invariant of virtual transports *)

Lemma vt_same_lookup w w' v t' :
  vt_same w w' → transports w' !! v = Some t' →
  ∃ t, transports w !! v = Some t ∧ vt_q2q t = vt_q2q t' ∧ vt_id t = vt_id t'.
Proof.
  intros (Ht & _) Hv. specialize (Ht v). rewrite Hv in Ht. simpl in Ht.
  destruct (transports w !! v) as [t|]; [| done].
  exists t. simpl in Ht. by simplify_eq.
Qed.

Lemma vt_same_allocated w w' v : vt_same w w' → allocated w' v ↔ allocated w v.
Proof.
  intros (Ht & _). unfold allocated.
  rewrite <- (fmap_is_Some (λ t, (vt_q2q t, vt_id t)) (transports w' !! v)).
  rewrite <- (fmap_is_Some (λ t, (vt_q2q t, vt_id t)) (transports w !! v)).
  by rewrite Ht.
Qed.

(** The invariant only looks at what [vt_same] keeps. *)
Lemma vt_inv_same w w' : vt_inv w → vt_same w w' → vt_inv w'.
Proof.
  intros [Hb Hl He Hv Hu] Hsame.
  pose proof Hsame as (Ht & Hc & Hlost & Hn).
  split.
  - intros v Hv'. apply (vt_same_allocated _ _ _ Hsame) in Hv'.
    apply Hb in Hv'. lia.
  - intros v Hv'. apply (vt_same_allocated _ _ _ Hsame). apply Hl. by apply Hlost.
  - intros q id v Hq. rewrite Hc in Hq.
    destruct (He _ _ _ Hq) as (t & Ht1 & Ht2 & Ht3 & Ht4).
    specialize (Ht v). rewrite Ht1 in Ht. simpl in Ht.
    destruct (transports w' !! v) as [t'|] eqn:Hv'; [| done].
    simpl in Ht. exists t'. simplify_eq. repeat split; try done.
    by rewrite Hlost.
  - intros v t' Hv' Hnl.
    destruct (vt_same_lookup _ _ _ _ Hsame Hv') as (t & Ht1 & <- & <-).
    rewrite Hc. apply Hv; [done |]. by rewrite <- Hlost.
  - intros v1 v2 t1' t2' H1 H2 Hq Hid.
    destruct (vt_same_lookup _ _ _ _ Hsame H1) as (t1 & Ht1 & Hq1 & Hid1).
    destruct (vt_same_lookup _ _ _ _ Hsame H2) as (t2 & Ht2 & Hq2 & Hid2).
    apply (Hu v1 v2 t1 t2); congruence.
Qed.

(** A dead transport has no entry: its id is free again in the map. *)
Lemma vt_inv_dead w v t :
  vt_inv w → transports w !! v = Some t → lost w v →
  connections (q2qs w !!! vt_q2q t) !! vt_id t = None.
Proof.
  intros [Hb Hl He Hv Hu] Ht Hlost.
  destruct (connections (q2qs w !!! vt_q2q t) !! vt_id t) as [v'|] eqn:Hc; [| done].
  destruct (He _ _ _ Hc) as (t' & Ht' & Hq & Hid & Hnl).
  assert (v' = v) as -> by (by apply (Hu v' v t' t)).
  done.
Qed.

(** *** Creation *)

Lemma VirtualTransport_init_run q h p pn id f c w :
  VirtualTransport_init q h p pn id f c w =
    (Ok (next_ref w),
     with_q2qs (λ hq, <[q := with_connections (<[id := next_ref w]>) (hq !!! q)]> hq)
       (with_transports (<[next_ref w := mkVirtualTransport q h p id c pn f None false]>)
          (with_next_ref (S (next_ref w)) w))).
Proof. reflexivity. Qed.

Lemma vt_inv_init q h p pn id f c w :
  fresh_id w q id → vt_inv w →
  vt_inv (VirtualTransport_init q h p pn id f c w).2.
Proof.
  intros Hfresh [Hb Hl He Hv Hu]. rewrite VirtualTransport_init_run. simpl.
  set (v := next_ref w).
  assert (Hnew : transports w !! v = None).
  { destruct (transports w !! v) as [t|] eqn:Ht; [| done].
    assert (v < next_ref w) by (apply Hb; by exists t). unfold v in *. lia. }
  assert (Hnl : ¬ lost w v).
  { intros Hlost. apply Hl in Hlost. destruct Hlost as [t Ht]. congruence. }
  split; unfold allocated, lost in *; simpl.
  - intros v' [t Ht]. destruct (decide (v = v')) as [<-|Hne]; [unfold v; lia |].
    rewrite lookup_insert_ne in Ht by done.
    assert (v' < next_ref w) by (apply Hb; by exists t). lia.
  - intros v' Hlost. destruct (decide (v = v')) as [<-|Hne].
    + by rewrite lookup_insert_eq.
    + rewrite lookup_insert_ne by done. by apply Hl.
  - intros q' id' v' Hc.
    destruct (decide (q = q')) as [<-|Hq].
    + rewrite lookup_total_insert_eq in Hc. simpl in Hc.
      destruct (decide (id = id')) as [<-|Hid].
      * rewrite lookup_insert_eq in Hc. injection Hc as <-.
        rewrite lookup_insert_eq. eexists. by repeat split.
      * rewrite lookup_insert_ne in Hc by done.
        destruct (He _ _ _ Hc) as (t & Ht & ? & ? & ?).
        exists t. rewrite lookup_insert_ne by congruence. done.
    + rewrite lookup_total_insert_ne in Hc by done.
      destruct (He _ _ _ Hc) as (t & Ht & ? & ? & ?).
      exists t. rewrite lookup_insert_ne by congruence. done.
  - intros v' t Ht Hnl'.
    destruct (decide (v = v')) as [<-|Hne].
    + rewrite lookup_insert_eq in Ht. injection Ht as <-. simpl.
      rewrite lookup_total_insert_eq. simpl. by rewrite lookup_insert_eq.
    + rewrite lookup_insert_ne in Ht by done.
      destruct (decide (q = vt_q2q t)) as [Hq|Hq].
      * rewrite <- Hq, lookup_total_insert_eq. simpl.
        rewrite lookup_insert_ne by (by apply not_eq_sym, (Hfresh v' t)).
        rewrite Hq. by apply Hv.
      * rewrite lookup_total_insert_ne by done. by apply Hv.
  - intros v1 v2 t1 t2 H1 H2 Hq Hid.
    destruct (decide (v = v1)) as [<-|Hne1], (decide (v = v2)) as [<-|Hne2]; [done | | |].
    + rewrite lookup_insert_eq in H1. rewrite lookup_insert_ne in H2 by done.
      injection H1 as <-. simpl in *. by destruct (Hfresh v2 t2).
    + rewrite lookup_insert_eq in H2. rewrite lookup_insert_ne in H1 by done.
      injection H2 as <-. simpl in *. by destruct (Hfresh v1 t1).
    + rewrite lookup_insert_ne in H1, H2 by done. by apply (Hu v1 v2 t1 t2).
Qed.

(** *** Loss *)

Lemma VirtualTransport_connectionLost_lost v reason w v' :
  lost (VirtualTransport_connectionLost v reason w).2 v' ↔ lost w v' ∨ v' = v.
Proof.
  rewrite VirtualTransport_connectionLost_run.
  assert (Hstart : lost (logged [EvConnectionLost v reason] w) v' ↔ lost w v' ∨ v' = v).
  { rewrite lost_logged. split; (intros [H|H]; [by left | right]).
    - destruct H as [r Hr]. apply list_elem_of_singleton in Hr. congruence.
    - subst. exists reason. by left. }
  assert (Huser : ∀ w0 c, lost (logged [EvUser c] w0) v' ↔ lost w0 v').
  { intros w0 c. rewrite lost_logged. split; [| by left].
    intros [H|[r Hr]]; [done |]. by apply list_elem_of_singleton in Hr. }
  repeat case_match; simpl; rewrite ?Huser; exact Hstart.
Qed.

Lemma vt_inv_connectionLost v reason w :
  allocated w v → vt_inv w → vt_inv (VirtualTransport_connectionLost v reason w).2.
Proof.
  intros [t Ht] Hinv.
  pose proof Hinv as [Hb Hl He Hv Hu].
  pose proof (VirtualTransport_connectionLost_frame v reason w)
    as (_ & Htr & _ & _ & _ & Hn & _).
  pose proof (VirtualTransport_connectionLost_connections v reason w) as Hc.
  pose proof (VirtualTransport_connectionLost_lost v reason w) as Hlost.
  rewrite (lookup_total_correct _ _ _ Ht) in Hc. simpl in Hc.
  set (w' := (VirtualTransport_connectionLost v reason w).2) in *.
  split; unfold allocated.
  - intros v'. rewrite Htr, Hn. apply Hb.
  - intros v' Hv'. rewrite Htr. apply Hlost in Hv' as [Hv'| ->]; [by apply Hl | by exists t].
  - intros q id v'' Hq. rewrite Hc in Hq. case_decide as Hd; [done |].
    destruct (He _ _ _ Hq) as (t'' & Ht'' & Hq'' & Hid'' & Hnl).
    exists t''. rewrite Htr. repeat split; try done.
    rewrite Hlost. intros [H| ->]; [done |].
    apply Hd. split; congruence.
  - intros v' t' Ht' Hnl. rewrite Htr in Ht'. rewrite Hlost in Hnl.
    rewrite Hc. case_decide as Hd.
    + destruct Hd as [Hq Hid]. destruct Hnl. right. by apply (Hu v' v t' t).
    + apply Hv; [done |]. tauto.
  - intros v1 v2 t1 t2. rewrite Htr. apply Hu.
Qed.

(** A transport handed out by a connection map exists. *)
Lemma vt_inv_entry_allocated w q id v :
  vt_inv w → connections (q2qs w !!! q) !! id = Some v → allocated w v.
Proof. intros Hinv Hq. destruct (vt_entries _ Hinv _ _ _ Hq) as (t & Ht & _). by exists t. Qed.

Lemma vt_inv_dataReceived v data w :
  allocated w v → vt_inv w → vt_inv (VirtualTransport_dataReceived v data w).2.
Proof.
  intros Hv Hinv. rewrite VirtualTransport_dataReceived_run.
  assert (Hlog : ∀ es, (∀ v' r, EvConnectionLost v' r ∉ es) → vt_same w (logged es w)).
  { intros es Hes. unfold vt_same; simpl. repeat split; try done.
    - rewrite lost_logged. intros [H|[r Hr]]; [done | by destruct (Hes v0 r)].
    - intros H. apply lost_logged. by left. }
  destruct (dataReceived_failure w v data) as [e|].
  - apply vt_inv_connectionLost.
    + unfold allocated in *. by simpl.
    + apply (vt_inv_same w); [done |]. apply Hlog.
      intros v' r. unfold dataReceived_events.
      destruct (vt_protocol _); set_solver.
  - simpl. apply (vt_inv_same w); [done |]. apply Hlog.
    intros v' r. unfold dataReceived_events.
    destruct (vt_protocol _); set_solver.
Qed.

(** *** Methods that only touch a transport's own fields *)

Lemma update_transport_key (f : VirtualTransport → VirtualTransport) w v v' :
  allocated w v →
  (∀ t, (vt_q2q (f t), vt_id (f t)) = (vt_q2q t, vt_id t)) →
  (λ t, (vt_q2q t, vt_id t)) <$> (<[v := f (transports w !!! v)]> (transports w)) !! v'
  = (λ t, (vt_q2q t, vt_id t)) <$> transports w !! v'.
Proof.
  intros [t Ht] Hf. destruct (decide (v = v')) as [<-|Hne].
  - rewrite lookup_insert_eq, Ht, (lookup_total_correct _ _ _ Ht). simpl. by rewrite Hf.
  - by rewrite lookup_insert_ne.
Qed.

Lemma lost_user_event w c v : lost (with_trace (λ tr, tr ++ [EvUser c]) w) v ↔ lost w v.
Proof. by apply lost_emit. Qed.

Lemma lost_send_event w q cmd id body v :
  lost (with_trace (λ tr, tr ++ [EvSendCommand q cmd id body]) w) v ↔ lost w v.
Proof. by apply lost_emit. Qed.

Lemma startProtocol_vt_same v w : allocated w v → vt_same w (startProtocol v w).2.
Proof.
  intros Hv. unfold startProtocol.
  rewrite bind_get_transport, bind_run, call_user_run.
  destruct (user_raises w _) as [e|]; simpl.
  - unfold vt_same; simpl. repeat split; try done; by apply lost_user_event.
  - mrun. rewrite bind_run, call_user_run. wsimpl.
    assert (Hsame : vt_same w
      (with_trace (λ tr, tr ++ [EvUser (protocol_makeConnection (next_ref w) v)])
        (with_transports
           (λ h, <[v:=with_protocol (Some (next_ref w)) (h !!! v)]> h)
           (with_next_ref (S (next_ref w))
              (with_trace
                 (λ tr, tr ++ [EvUser (factory_buildProtocol
                     (vt_protocolFactory (transports w !!! v))
                     (vt_peer (transports w !!! v)))]) w))))).
    { unfold vt_same; simpl. repeat split; try done; try lia.
      - intros v'. by apply update_transport_key.
      - intros H. by apply lost_user_event, lost_user_event in H.
      - intros H. by apply lost_user_event, lost_user_event. }
    by destruct (user_raises w (protocol_makeConnection (next_ref w) v)).
Qed.

Lemma loseConnection_vt_same v w : allocated w v → vt_same w (loseConnection v w).2.
Proof.
  intros Hv. unfold loseConnection. mrun. simpl.
  unfold vt_same; simpl. repeat split; try done.
  - intros v'. by apply update_transport_key.
  - intros H. by apply lost_send_event in H.
  - intros H. by apply lost_send_event.
Qed.

(** *** Frames arriving on a connection *)

Lemma vt_inv_juice_WRITE self box w :
  vt_inv w → vt_inv (juice_WRITE self box w).2.
Proof.
  intros Hinv. unfold juice_WRITE. rewrite bind_get_q2q.
  destruct (box !! "id") as [id|] eqn:Hid;
    [rewrite (bind_getitem_Some _ _ _ _ _ Hid)
    | by rewrite (bind_getitem_None _ _ _ _ Hid)].
  destruct (connections (q2qs w !!! self) !! id) as [v|] eqn:Hv;
    [rewrite (bind_getitem_Some _ _ _ _ _ Hv)
    | by rewrite (bind_getitem_None _ _ _ _ Hv)].
  destruct (box !! BODY) as [data|] eqn:Hbody;
    [rewrite (bind_getitem_Some _ _ _ _ _ Hbody)
    | by rewrite (bind_getitem_None _ _ _ _ Hbody)].
  rewrite bind_run.
  pose proof (vt_inv_dataReceived v data w (vt_inv_entry_allocated _ _ _ _ Hinv Hv) Hinv).
  by destruct (VirtualTransport_dataReceived v data w) as [[[]|e] w'].
Qed.

Lemma vt_inv_juice_CLOSE self box w :
  vt_inv w → vt_inv (juice_CLOSE self box w).2.
Proof.
  intros Hinv. unfold juice_CLOSE. rewrite bind_get_q2q.
  destruct (box !! "id") as [id|] eqn:Hid;
    [rewrite (bind_getitem_Some _ _ _ _ _ Hid)
    | by rewrite (bind_getitem_None _ _ _ _ Hid)].
  destruct (connections (q2qs w !!! self) !! id) as [v|] eqn:Hv;
    [rewrite (bind_getitem_Some _ _ _ _ _ Hv)
    | by rewrite (bind_getitem_None _ _ _ _ Hv)].
  rewrite bind_run.
  pose proof (vt_inv_connectionLost v CONNECTION_DONE w
                (vt_inv_entry_allocated _ _ _ _ Hinv Hv) Hinv).
  by destruct (VirtualTransport_connectionLost v CONNECTION_DONE w) as [[[]|e] w'].
Qed.

Lemma vt_inv_loseConnection_answered v answer w :
  allocated w v → vt_inv w → vt_inv (loseConnection_answered v answer w).2.
Proof.
  intros Hv Hinv. unfold loseConnection_answered.
  destruct answer; by apply vt_inv_connectionLost.
Qed.

(** *** Loss of the connection itself *)

(** The invariant together with the existence of the transports in [S]. *)
Lemma vt_inv_allocated_same (S : list Ref) w w' :
  vt_inv w ∧ (∀ v, v ∈ S → allocated w v) → vt_same w w' →
  vt_inv w' ∧ (∀ v, v ∈ S → allocated w' v).
Proof.
  intros [Hinv HS] Hsame. split; [by apply (vt_inv_same w) |].
  intros v Hv. apply (vt_same_allocated _ _ _ Hsame). by apply HS.
Qed.

Lemma vt_inv_lose_all (S : list Ref) reason :
  preserves (λ w, vt_inv w ∧ ∀ v, v ∈ S → allocated w v)
    (for_each S (λ xport, safely (VirtualTransport_connectionLost xport reason))).
Proof.
  apply preserves_for_each. intros v Hv. apply preserves_safely.
  - intros w [Hinv HS]. split; [apply vt_inv_connectionLost; auto |].
    intros v' Hv'. unfold allocated.
    pose proof (VirtualTransport_connectionLost_frame v reason w) as (_ & -> & _).
    by apply HS.
  - intros e. apply (preserves_frames _ vt_same); [apply vt_inv_allocated_same |].
    apply log_err_vt_same.
Qed.

Lemma vt_inv_bind_same {A B} (m : M A) (k : A → M B) w :
  frames vt_same m → vt_inv w →
  (∀ a w', vt_inv w' → vt_inv (k a w').2) →
  vt_inv ((m ≫= k) w).2.
Proof.
  intros Hm Hinv Hk. rewrite bind_run.
  pose proof (vt_inv_same _ _ Hinv (Hm w)) as Hinv'.
  destruct (m w) as [[a|e] w']; simpl in *; [by apply Hk | done].
Qed.

Lemma vt_inv_Q2Q_connectionLost self reason w :
  vt_inv w → vt_inv (Q2Q_connectionLost self reason w).2.
Proof.
  intros Hinv. unfold Q2Q_connectionLost.
  apply vt_inv_bind_same; [solve_frames | done |]. clear w Hinv.
  intros _ w Hinv. rewrite bind_get_q2q.
  apply vt_inv_bind_same; [solve_frames | done |]. clear w Hinv.
  intros _ w Hinv.
  apply vt_inv_bind_same; [solve_frames | done |]. clear w Hinv.
  intros _ w Hinv. rewrite bind_get_q2q.
  set (S := (map_to_list (connections (q2qs w !!! self))).*2).
  assert (HS : ∀ v, v ∈ S → allocated w v).
  { intros v Hv. apply list_elem_of_fmap in Hv as [[id v'] [-> Hin]].
    apply elem_of_map_to_list in Hin.
    by apply (vt_inv_entry_allocated _ _ _ _ Hinv Hin). }
  rewrite bind_run.
  pose proof (vt_inv_lose_all S reason w (conj Hinv HS)) as [Hinv' _].
  destruct (for_each S _ w) as [[[]|e] w']; simpl in *; [| done].
  apply (vt_inv_same w'); [done |].
  generalize w'. change (frames vt_same
    (for_each (connectionObservers (q2qs w !!! self))
       (λ observer, safely (call_user (observer_call observer))))).
  solve_frames.
Qed.

(** *** VIRTUAL *)

Lemma fresh_id_same w w' q id : vt_same w w' → fresh_id w q id → fresh_id w' q id.
Proof.
  intros Hsame Hfresh v t' Ht'.
  destruct (vt_same_lookup _ _ _ _ Hsame Ht') as (t & Ht & <- & <-).
  exact (Hfresh v t Ht).
Qed.

Lemma vt_inv_command_VIRTUAL self id w :
  fresh_id w self id → vt_inv w → vt_inv (command_VIRTUAL self id w).2.
Proof.
  intros Hfresh Hinv. unfold command_VIRTUAL. rewrite bind_get_service.
  destruct (inboundConnections (service w) !! id) as [[cwait call]|] eqn:Hid;
    [rewrite (bind_getitem_Some _ _ _ _ _ Hid)
    | by rewrite (bind_getitem_None _ _ _ _ Hid)].
  rewrite bind_update_service, bind_run.
  set (w1 := with_service _ w).
  assert (Hsame1 : vt_same w w1) by (unfold w1; solve_same).
  pose proof (DelayedCall_cancel_vt_same call w1) as Hsame2.
  assert (Hsame : vt_same w (DelayedCall_cancel call w1).2) by (by etrans).
  destruct (DelayedCall_cancel call w1) as [[[]|e] w2]; cbn [fst snd] in *.
  - rewrite bind_run.
    pose proof (vt_inv_init self (cw_to cwait) (cw_From cwait) (cw_protocolName cwait) id
                  (cw_protocolFactory cwait) false w2
                  (fresh_id_same _ _ _ _ Hsame Hfresh) (vt_inv_same _ _ Hinv Hsame)).
    by destruct (VirtualTransport_init _ _ _ _ _ _ _ w2) as [[tpt|e] w3].
  - by apply (vt_inv_same w).
Qed.

(** *** Every operation keeps the invariant *)

Lemma vt_inv_unit_tail {A} (m : M A) w P :
  P (m w).2 → P ((m ;; mret ()) w).2.
Proof. rewrite bind_run. by destruct (m w) as [[a|e] w']. Qed.

Lemma vt_inv_step w op : op_ok w op → vt_inv w → vt_inv (step w op).
Proof.
  intros Hok Hinv. unfold step.
  destruct op; simpl in Hok; simpl run_op.
  - apply vt_inv_unit_tail. apply (vt_inv_same w); [done | apply mapListener_vt_same].
  - apply (vt_inv_same w); [done | apply advance_vt_same].
  - apply vt_inv_unit_tail. by apply vt_inv_command_VIRTUAL.
  - apply vt_inv_unit_tail. by apply vt_inv_init.
  - apply vt_inv_unit_tail. apply (vt_inv_same w); [done | by apply startProtocol_vt_same].
  - apply vt_inv_unit_tail. by apply vt_inv_juice_WRITE.
  - apply vt_inv_unit_tail. by apply vt_inv_juice_CLOSE.
  - apply (vt_inv_same w); [done | by apply loseConnection_vt_same].
  - by apply vt_inv_loseConnection_answered.
  - by apply vt_inv_Q2Q_connectionLost.
  - apply (vt_inv_same w); [done | apply command_LISTEN_vt_same].
  - apply (vt_inv_same w); [done | apply notifyOnConnectionLost_vt_same].
  - apply vt_inv_unit_tail.
    apply (vt_inv_same w); [done | apply protocolAndAuthFromId_vt_same].
  - apply (vt_inv_same w); [done | apply stopService_vt_same].
Qed.

Lemma vt_inv_run_ops ops : ∀ w, ops_ok w ops → vt_inv w → vt_inv (run_ops ops w).
Proof.
  induction ops as [|op ops IH]; intros w Hok Hinv; [done |].
  destruct Hok as [Hop Hops]. simpl. apply IH; [done |]. by apply vt_inv_step.
Qed.

Lemma vt_inv_no_transports w : no_transports w → (∀ v, ¬ allocated w v) ∧ vt_inv w.
Proof.
  intros (Ht & Hc & Hl).
  assert (Hna : ∀ v, ¬ allocated w v).
  { intros v [t Hv]. rewrite Ht in Hv. by rewrite lookup_empty in Hv. }
  split; [done |]. split.
  - intros v Hv. by destruct (Hna v).
  - intros v Hv. by destruct (Hl v).
  - intros q id v Hq. rewrite Hc in Hq. by rewrite lookup_empty in Hq.
  - intros v t Hv. rewrite Ht in Hv. by rewrite lookup_empty in Hv.
  - intros v1 v2 t1 t2 Hv. rewrite Ht in Hv. by rewrite lookup_empty in Hv.
Qed.

(** ** The listener registry *)

Section Occurrences.

Context {A : Type} `{EqDecision A}.
Implicit Types (x y : A) (l : list A).

Lemma occurrences_nil x : occurrences x [] = 0.
Proof. reflexivity. Qed.

Lemma occurrences_cons x y l :
  occurrences x (y :: l) = (if decide (y = x) then 1 else 0) + occurrences x l.
Proof. unfold occurrences. rewrite filter_cons. by case_decide. Qed.

Lemma occurrences_app x l1 l2 :
  occurrences x (l1 ++ l2) = occurrences x l1 + occurrences x l2.
Proof. unfold occurrences. by rewrite filter_app, length_app. Qed.

Lemma occurrences_zero x l : occurrences x l = 0 ↔ x ∉ l.
Proof.
  induction l as [|y l IH].
  - split; [intros _; apply not_elem_of_nil | done].
  - rewrite occurrences_cons, not_elem_of_cons.
    destruct (decide (y = x)) as [Hy|Hy].
    + split; [lia | intros [Hne _]; congruence].
    + rewrite <- IH. split; [intros; split; [congruence | lia] | intros [_ ?]; lia].
Qed.

Lemma occurrences_pos x l : 0 < occurrences x l → x ∈ l.
Proof.
  intros Hpos. destruct (decide (x ∈ l)) as [|Hnot]; [done |].
  apply occurrences_zero in Hnot. lia.
Qed.

Lemma list_remove_elem x l : x ∈ l → ∃ l', list_remove x l = Some l'.
Proof.
  induction l as [|y l IH]; intros Hin; [by apply elem_of_nil in Hin |].
  simpl. case_decide; [by eexists |].
  apply elem_of_cons in Hin as [->|Hin]; [done |].
  destruct (IH Hin) as [l' ->]. by eexists.
Qed.

Lemma occurrences_list_remove x y l l' :
  list_remove x l = Some l' →
  occurrences y l = (if decide (x = y) then 1 else 0) + occurrences y l'.
Proof.
  revert l'. induction l as [|z l IH]; intros l'; simpl; [done |].
  destruct (decide (z = x)) as [->|Hz].
  - intros Heq. injection Heq as ->. by rewrite occurrences_cons.
  - destruct (list_remove x l) as [l''|]; simpl; [| done].
    intros Heq. injection Heq as <-.
    rewrite !occurrences_cons, (IH l'' eq_refl). lia.
Qed.

Lemma filter_list_remove (P : A → Prop) `{∀ x, Decision (P x)} x l l' :
  list_remove x l = Some l' → ¬ P x → filter P l' = filter P l.
Proof.
  revert l'. induction l as [|z l IH]; intros l'; simpl; [done |].
  destruct (decide (z = x)) as [->|Hz].
  - intros Heq HP. injection Heq as ->. by rewrite filter_cons_False.
  - destruct (list_remove x l) as [l''|]; simpl; [| done].
    intros Heq HP. injection Heq as <-.
    rewrite !filter_cons. by rewrite (IH l'' eq_refl HP).
Qed.

End Occurrences.

Lemma filter_all {A} (P : A → Prop) `{∀ x, Decision (P x)} (l : list A) :
  (∀ x, x ∈ l → P x) → filter P l = l.
Proof.
  induction l as [|x l IH]; intros Hall; [done |].
  rewrite filter_cons_True by (apply Hall; left).
  f_equal. apply IH. intros y Hy. apply Hall. by right.
Qed.

(** *** Removing the registrations of a lost connection *)

Lemma registry_insert w key l key' :
  registry (with_service (with_listeningClients (<[key := l]>)) w) key'
  = if decide (key = key') then l else registry w key'.
Proof.
  unfold registry; simpl. case_decide as Hk.
  - subst. by rewrite lookup_insert_eq.
  - by rewrite lookup_insert_ne.
Qed.

(** The first loop of [Q2Q.connectionLost], run on a list [L] of entries
    that all belong to connection [q] and are all in the registry: it runs
    to the end, removes exactly the entries of [q], and touches nothing
    but the registry. *)
Lemma connectionLost_unregisters q L : ∀ w,
  (∀ key value, (key, value) ∈ L → lv_listener value = q) →
  (∀ key value, lv_listener value = q →
     occurrences value (registry w key) = occurrences (key, value) L) →
  ∃ d,
    for_each L (λ '(key, value),
      s ← get_service;
      l ← getitem (listeningClients s) key;
      match list_remove value l with
      | None => raise ValueError
      | Some l' => update_service (with_listeningClients (<[key := l']>))
      end) w
    = (Ok (), with_service (with_listeningClients (λ _, d)) w)
    ∧ ∀ key, default [] (d !! key) = filter (λ v, lv_listener v ≠ q) (registry w key).
Proof.
  induction L as [|[k v] L IH]; intros w Hown Hocc.
  - exists (listeningClients (service w)). split.
    + rewrite for_each_nil. by destruct w as [[]].
    + intros key. symmetry. apply filter_all. intros x Hx Hq.
      specialize (Hocc key x Hq). rewrite occurrences_nil in Hocc.
      by apply occurrences_zero in Hocc.
  - rewrite for_each_cons, bind_get_service.
    assert (Hv : lv_listener v = q) by (apply (Hown k); left).
    assert (Hin : v ∈ registry w k).
    { apply occurrences_pos. rewrite (Hocc k v Hv), occurrences_cons.
      rewrite decide_True by done. lia. }
    unfold registry in Hin.
    destruct (listeningClients (service w) !! k) as [l|] eqn:Hk;
      [| by apply elem_of_nil in Hin].
    simpl in Hin. rewrite (bind_getitem_Some _ _ _ _ _ Hk).
    destruct (list_remove_elem _ _ Hin) as [l' Hl'].
    rewrite Hl'. unfold update_service, modify.
    set (w1 := with_service (with_listeningClients (<[k := l']>)) w).
    destruct (IH w1) as (d & Hrun & Hd).
    + intros key value Hkv. apply (Hown key). by right.
    + intros key value Hq. unfold w1. rewrite registry_insert.
      specialize (Hocc key value Hq). rewrite occurrences_cons in Hocc.
      destruct (decide (k = key)) as [<-|Hkey].
      * unfold registry in Hocc. rewrite Hk in Hocc. simpl in Hocc.
        rewrite (occurrences_list_remove _ value _ _ Hl') in Hocc.
        destruct (decide (v = value)) as [->|Hne].
        -- rewrite decide_True in Hocc by done. lia.
        -- rewrite decide_False in Hocc by congruence. lia.
      * rewrite decide_False in Hocc by congruence. lia.
    + exists d. split; [exact Hrun |].
      intros key. rewrite Hd. unfold w1. rewrite registry_insert.
      destruct (decide (k = key)) as [<-|Hkey]; [| done].
      unfold registry. rewrite Hk. simpl.
      apply (filter_list_remove _ _ _ _ Hl'). intros Hne. by apply Hne.
Qed.

(** *** Telling the channels and the observers *)

Lemma connectionLost_calls_app tr1 tr2 :
  connectionLost_calls (tr1 ++ tr2) = connectionLost_calls tr1 ++ connectionLost_calls tr2.
Proof. apply omap_app. Qed.

Lemma observer_calls_app tr1 tr2 :
  observer_calls (tr1 ++ tr2) = observer_calls tr1 ++ observer_calls tr2.
Proof. apply omap_app. Qed.

(** One channel, told under [safely]: the call is made, whatever it or the
    application does, and no exception leaves. *)
Lemma safely_connectionLost_trace v reason w :
  ∃ w' events,
    safely (VirtualTransport_connectionLost v reason) w = (Ok (), w')
    ∧ trace w' = trace w ++ events
    ∧ connectionLost_calls events = [(v, reason)]
    ∧ observer_calls events = [].
Proof.
  unfold safely, try_except. rewrite VirtualTransport_connectionLost_run. cbv zeta.
  repeat case_match; simplify_eq; unfold log_err, emit, modify;
    eexists _, _; (split; [reflexivity |]); simpl; rewrite <- ?app_assoc;
    (split; [reflexivity |]); by simpl.
Qed.

Lemma lose_all_trace reason (S : list Ref) : ∀ w,
  ∃ w' events,
    for_each S (λ xport, safely (VirtualTransport_connectionLost xport reason)) w
    = (Ok (), w')
    ∧ trace w' = trace w ++ events
    ∧ connectionLost_calls events = (λ v, (v, reason)) <$> S
    ∧ observer_calls events = [].
Proof.
  induction S as [|v S IH]; intros w.
  - exists w, []. rewrite for_each_nil, app_nil_r. done.
  - rewrite for_each_cons.
    destruct (safely_connectionLost_trace v reason w) as (w1 & es1 & -> & Htr1 & Hc1 & Ho1).
    destruct (IH w1) as (w2 & es2 & -> & Htr2 & Hc2 & Ho2).
    exists w2, (es1 ++ es2). split; [done |].
    rewrite Htr2, Htr1, <- app_assoc, connectionLost_calls_app, observer_calls_app.
    rewrite Hc1, Hc2, Ho1, Ho2. done.
Qed.

Lemma safely_observer_trace o w :
  ∃ w' events,
    safely (call_user (observer_call o)) w = (Ok (), w')
    ∧ trace w' = trace w ++ events
    ∧ connectionLost_calls events = []
    ∧ observer_calls events = [o].
Proof.
  unfold safely, try_except. rewrite call_user_run.
  destruct (user_raises w (observer_call o)) as [e|]; unfold log_err, emit, modify;
    eexists _, _; (split; [reflexivity |]); simpl; rewrite <- ?app_assoc;
    (split; [reflexivity |]); by simpl.
Qed.

Lemma observers_trace (O : list Ref) : ∀ w,
  ∃ w' events,
    for_each O (λ observer, safely (call_user (observer_call observer))) w = (Ok (), w')
    ∧ trace w' = trace w ++ events
    ∧ connectionLost_calls events = []
    ∧ observer_calls events = O.
Proof.
  induction O as [|o O IH]; intros w.
  - exists w, []. rewrite for_each_nil, app_nil_r. done.
  - rewrite for_each_cons.
    destruct (safely_observer_trace o w) as (w1 & es1 & -> & Htr1 & Hc1 & Ho1).
    destruct (IH w1) as (w2 & es2 & -> & Htr2 & Hc2 & Ho2).
    exists w2, (es1 ++ es2). split; [done |].
    rewrite Htr2, Htr1, <- app_assoc, connectionLost_calls_app, observer_calls_app.
    rewrite Hc1, Hc2, Ho1, Ho2. done.
Qed.

Lemma lose_all_reg_same reason (S : list Ref) :
  frames reg_same
    (for_each S (λ xport, safely (VirtualTransport_connectionLost xport reason))).
Proof. solve_frames. apply VirtualTransport_connectionLost_reg_same. Qed.

Lemma observers_reg_same (O : list Ref) :
  frames reg_same
    (for_each O (λ observer, safely (call_user (observer_call observer)))).
Proof. solve_frames. Qed.

Lemma reg_same_registry w w' key : reg_same w w' → registry w' key = registry w key.
Proof. intros [Hr _]. unfold registry. by rewrite Hr. Qed.

(** [Q2Q.connectionLost] on a world that satisfies the registry invariant. *)
Lemma Q2Q_connectionLost_spec self reason w :
  reg_inv w →
  ∃ w' events,
    Q2Q_connectionLost self reason w = (Ok (), w')
    ∧ trace w' = trace w ++ events
    ∧ connectionLost_calls events
      = (λ v, (v, reason)) <$> (map_to_list (connections (q2qs w !!! self))).*2
    ∧ observer_calls events = connectionObservers (q2qs w !!! self)
    ∧ (∀ key, registry w' key = filter (λ v, lv_listener v ≠ self) (registry w key))
    ∧ listeningClient (q2qs w' !!! self) = []
    ∧ (∀ q, q ≠ self → listeningClient (q2qs w' !!! q) = listeningClient (q2qs w !!! q)).
Proof.
  intros Hinv. destruct (Hinv self) as [Hown Hocc].
  unfold Q2Q_connectionLost. rewrite bind_emit, bind_get_q2q. wsimpl.
  set (w1 := with_trace (λ tr, tr ++ [EvJuiceConnectionLost self reason]) w).
  destruct (connectionLost_unregisters self (listeningClient (q2qs w !!! self)) w1 Hown Hocc)
    as (d & Hrun1 & Hd).
  rewrite bind_run, Hrun1. rewrite bind_update_q2q, bind_get_q2q. wsimpl.
  set (w3 := with_q2qs _ _).
  assert (Hself : q2qs w3 !!! self = with_listeningClient (λ _, []) (q2qs w !!! self)).
  { unfold w3; simpl. by rewrite lookup_total_insert_eq. }
  replace (<[self:=with_listeningClient (λ _, []) (q2qs w !!! self)]> (q2qs w) !!! self)
    with (q2qs w3 !!! self) by done.
  rewrite Hself. wsimpl.
  destruct (lose_all_trace reason (map_to_list (connections (q2qs w !!! self))).*2 w3)
    as (w4 & es2 & Hrun2 & Htr2 & Hc2 & Ho2).
  pose proof (lose_all_reg_same reason (map_to_list (connections (q2qs w !!! self))).*2 w3)
    as Hsame34.
  rewrite bind_run, Hrun2. rewrite Hrun2 in Hsame34. simpl in Hsame34.
  destruct (observers_trace (connectionObservers (q2qs w !!! self)) w4)
    as (w5 & es3 & Hrun3 & Htr3 & Hc3 & Ho3).
  pose proof (observers_reg_same (connectionObservers (q2qs w !!! self)) w4) as Hsame45.
  rewrite Hrun3. rewrite Hrun3 in Hsame45. simpl in Hsame45.
  assert (Hsame : reg_same w3 w5) by (by etrans).
  exists w5, ([EvJuiceConnectionLost self reason] ++ es2 ++ es3).
  split; [done |]. split; [| split; [| split; [| split; [| split]]]].
  - rewrite Htr3, Htr2. unfold w3, w1; simpl. by rewrite <- !app_assoc.
  - rewrite !connectionLost_calls_app, Hc2, Hc3. simpl. by rewrite app_nil_r.
  - rewrite !observer_calls_app, Ho2, Ho3. done.
  - intros key. rewrite (reg_same_registry _ _ _ Hsame).
    unfold registry at 1. unfold w3; simpl. apply Hd.
  - destruct Hsame as [_ ->]. by rewrite Hself.
  - intros q Hq. destruct Hsame as [_ ->]. unfold w3; simpl.
    by rewrite lookup_total_insert_ne.
Qed.

(** *** The registry invariant holds in every reachable world *)

Lemma occurrences_filter {A} `{EqDecision A} (P : A → Prop) `{∀ x, Decision (P x)}
  (x : A) (l : list A) :
  occurrences x (filter P l) = if decide (P x) then occurrences x l else 0.
Proof.
  induction l as [|y l IH]; [by case_decide |].
  rewrite filter_cons. destruct (decide (P y)) as [Hy|Hy].
  - rewrite !occurrences_cons, IH. destruct (decide (P x)); [done |].
    rewrite decide_False by congruence. done.
  - rewrite IH, occurrences_cons. destruct (decide (P x)); [| done].
    rewrite decide_False by congruence. done.
Qed.

Lemma reg_inv_same w w' : reg_inv w → reg_same w w' → reg_inv w'.
Proof.
  intros Hinv Hsame q. destruct (Hinv q) as [Hown Hocc].
  pose proof Hsame as [_ Hl].
  split.
  - intros key value. rewrite Hl. apply Hown.
  - intros key value Hq. rewrite Hl, (reg_same_registry _ _ _ Hsame). by apply Hocc.
Qed.

Lemma reg_inv_Q2Q_connectionLost self reason w :
  reg_inv w → reg_inv (Q2Q_connectionLost self reason w).2.
Proof.
  intros Hinv.
  destruct (Q2Q_connectionLost_spec self reason w Hinv)
    as (w' & es & -> & _ & _ & _ & Hreg & Hself & Hother).
  simpl. intros q. destruct (Hinv q) as [Hown Hocc].
  destruct (decide (q = self)) as [->|Hq].
  - rewrite Hself. split; [intros key value Hin; by apply elem_of_nil in Hin |].
    intros key value Hv. rewrite Hreg, occurrences_filter.
    rewrite decide_False by (intros Hne; by apply Hne). done.
  - rewrite (Hother q Hq). split; [done |].
    intros key value Hv. rewrite Hreg, occurrences_filter.
    rewrite decide_True by congruence. by apply Hocc.
Qed.

Lemma reg_inv_register_listener self From theirCert description w pn :
  reg_inv w → reg_inv (register_listener self From theirCert description w pn).
Proof.
  intros Hinv q. destruct (Hinv q) as [Hown Hocc].
  unfold register_listener. split.
  - intros key value. simpl.
    destruct (decide (self = q)) as [<-|Hq].
    + rewrite lookup_total_insert_eq. simpl. intros Hin.
      apply elem_of_app in Hin as [Hin|Hin]; [by apply (Hown key) |].
      apply list_elem_of_singleton in Hin. by simplify_eq.
    + rewrite lookup_total_insert_ne by done. apply Hown.
  - intros key value Hv.
    set (w' := with_service _ _).
    assert (Hreg : registry w' key
                   = if decide ((From, pn) = key)
                     then registry w key ++ [(self, theirCert, description)]
                     else registry w key).
    { unfold registry, w'; simpl. case_decide as Hk.
      - subst. by rewrite lookup_insert_eq.
      - by rewrite lookup_insert_ne. }
    rewrite Hreg. clear Hreg. unfold w'; simpl.
    specialize (Hocc key value Hv).
    destruct (decide (self = q)) as [<-|Hq].
    + rewrite lookup_total_insert_eq. simpl. rewrite occurrences_app, <- Hocc.
      rewrite occurrences_cons, occurrences_nil.
      destruct (decide ((From, pn) = key)) as [<-|Hk].
      * rewrite occurrences_app, occurrences_cons, occurrences_nil.
        destruct (decide ((self, theirCert, description) = value)) as [<-|Hne].
        -- by rewrite decide_True.
        -- rewrite decide_False by congruence. done.
      * rewrite decide_False by congruence. lia.
    + rewrite lookup_total_insert_ne by done. rewrite <- Hocc.
      case_decide; [| done].
      rewrite occurrences_app, occurrences_cons, occurrences_nil.
      rewrite decide_False; [lia |].
      intros <-. by apply Hq.
Qed.

Lemma reg_inv_foldl_register self From theirCert description pre : ∀ w,
  reg_inv w → reg_inv (foldl (register_listener self From theirCert description) w pre).
Proof.
  induction pre as [|pn pre IH]; intros w Hinv; [done |].
  simpl. by apply IH, reg_inv_register_listener.
Qed.

(** Wherever the loop of LISTEN stops, it has registered a prefix. *)
Lemma listen_loop_prefix self From theirCert description protocols : ∀ w,
  ∃ pre,
    (for_each protocols (λ protocolName,
       if startswith protocolName "." then raise VerifyError
       else
         let key := (From, protocolName) in
         let value := (self, theirCert, description) in
         update_q2q self (with_listeningClient (λ l, l ++ [(key, value)])) ;;
         update_service
           (with_listeningClients (λ d, <[key := default [] (d !! key) ++ [value]]> d))) w).2
    = foldl (register_listener self From theirCert description) w pre.
Proof.
  induction protocols as [|pn protocols IH]; intros w; [by exists [] |].
  rewrite for_each_cons. destruct (startswith pn ".") eqn:Hdot.
  - by exists [].
  - rewrite bind_update_q2q.
    change (update_service ?f ?w0) with (Ok (), with_service f w0).
    cbv beta iota zeta.
    destruct (IH (register_listener self From theirCert description w pn)) as [pre Hpre].
    exists (pn :: pre). exact Hpre.
Qed.

Lemma reg_inv_command_LISTEN self protocols From description w :
  reg_inv w → reg_inv (command_LISTEN self protocols From description w).2.
Proof.
  intros Hinv. unfold command_LISTEN.
  rewrite bind_get_q2q, bind_run. unfold lift at 1.
  destruct (verifyCertificateAllowed _ _ _) as [r|e]; [| done].
  rewrite bind_run. unfold lift at 1.
  destruct (peerFromTransport _) as [theirCert|e]; [| done].
  rewrite bind_run.
  destruct (listen_loop_prefix self From theirCert description protocols w) as [pre Hpre].
  pose proof (reg_inv_foldl_register self From theirCert description pre w Hinv) as Hinv'.
  rewrite <- Hpre in Hinv'.
  by destruct (for_each protocols _ w) as [[[]|e] w'].
Qed.

Lemma reg_inv_step w op : reg_inv w → reg_inv (step w op).
Proof.
  intros Hinv. unfold step.
  destruct op; simpl run_op;
    try (rewrite bind_run;
         match goal with |- context [?m w] =>
           let H := fresh in
           assert (H : reg_inv (m w).2);
           [| by destruct (m w) as [[?|?] ?]] end).
  - apply (reg_inv_same w); [done | apply mapListener_reg_same].
  - apply (reg_inv_same w); [done | apply advance_reg_same].
  - apply (reg_inv_same w); [done | apply command_VIRTUAL_reg_same].
  - apply (reg_inv_same w); [done | apply VirtualTransport_init_reg_same].
  - apply (reg_inv_same w); [done | apply startProtocol_reg_same].
  - apply (reg_inv_same w); [done | apply juice_WRITE_reg_same].
  - apply (reg_inv_same w); [done | apply juice_CLOSE_reg_same].
  - apply (reg_inv_same w); [done | apply loseConnection_reg_same].
  - apply (reg_inv_same w); [done | apply loseConnection_answered_reg_same].
  - by apply reg_inv_Q2Q_connectionLost.
  - by apply reg_inv_command_LISTEN.
  - apply (reg_inv_same w); [done | apply notifyOnConnectionLost_reg_same].
  - apply (reg_inv_same w); [done | apply protocolAndAuthFromId_reg_same].
  - apply (reg_inv_same w); [done | apply stopService_reg_same].
Qed.

Lemma reg_inv_run_ops ops : ∀ w, reg_inv w → reg_inv (run_ops ops w).
Proof.
  induction ops as [|op ops IH]; intros w Hinv; [done |].
  simpl. by apply IH, reg_inv_step.
Qed.

Lemma reg_inv_no_listeners w : no_listeners w → reg_inv w.
Proof.
  intros [Hreg Hl] q. rewrite Hl. split.
  - intros key value Hin. by apply elem_of_nil in Hin.
  - intros key value _. unfold registry. by rewrite Hreg, lookup_empty.
Qed.

(** ** Loss of channels and connections *)

Lemma no_listeners_two_connections : no_listeners two_connections_world.
Proof.
  split; [reflexivity |]. intros q.
  destruct (decide (q = 1)) as [->|H1]; [reflexivity |].
  destruct (decide (q = 0)) as [->|H0]; [reflexivity |].
  unfold two_connections_world, divmod_world; simpl.
  rewrite lookup_total_insert_ne by done.
  by rewrite lookup_total_singleton_ne.
Qed.

Lemma no_transports_two_connections : no_transports two_connections_world.
Proof.
  split; [reflexivity |]. split.
  - intros q.
    destruct (decide (q = 1)) as [->|H1]; [reflexivity |].
    destruct (decide (q = 0)) as [->|H0]; [reflexivity |].
    unfold two_connections_world, divmod_world; simpl.
    rewrite lookup_total_insert_ne by done.
    by rewrite lookup_total_singleton_ne.
  - intros v [reason Hin]. by apply elem_of_nil in Hin.
Qed.

(** C6.  In every world the service can reach, the loss of a connection
    runs to the end whatever the channels and observers do: every virtual
    channel of its [connections] map is told [connectionLost] with the
    reason, once; every observer is called, once per registration and in
    order; the registry keeps exactly the entries of the other connections,
    so none refers to the lost one; and the connection's own list of
    registrations is empty. *)
Theorem Q2Q_connectionLost_cleans_up ops w0 self reason :
  no_listeners w0 →
  ∃ w' events,
    Q2Q_connectionLost self reason (run_ops ops w0) = (Ok (), w')
    ∧ trace w' = trace (run_ops ops w0) ++ events
    ∧ connectionLost_calls events
      = (λ v, (v, reason))
          <$> (map_to_list (connections (q2qs (run_ops ops w0) !!! self))).*2
    ∧ observer_calls events = connectionObservers (q2qs (run_ops ops w0) !!! self)
    ∧ (∀ key, registry w' key
              = filter (λ v, lv_listener v ≠ self) (registry (run_ops ops w0) key))
    ∧ (∀ key value, value ∈ registry w' key → lv_listener value ≠ self)
    ∧ listeningClient (q2qs w' !!! self) = [].
Proof.
  intros Hstart.
  pose proof (reg_inv_run_ops ops w0 (reg_inv_no_listeners _ Hstart)) as Hinv.
  destruct (Q2Q_connectionLost_spec self reason _ Hinv)
    as (w' & events & Hrun & Htr & Hc & Ho & Hreg & Hself & _).
  exists w', events. repeat split; try done.
  intros key value Hin. rewrite Hreg in Hin.
  by apply list_elem_of_filter in Hin as [Hne _].
Qed.

Lemma Q2Q_connectionLost_cleans_up_witness :
  ∃ w' events,
    Q2Q_connectionLost 0 ConnectionLost (run_ops example_ops two_connections_world)
    = (Ok (), w')
    ∧ trace w' = trace (run_ops example_ops two_connections_world) ++ events
    ∧ connectionLost_calls events
      = (λ v, (v, ConnectionLost))
          <$> (map_to_list
                 (connections
                    (q2qs (run_ops example_ops two_connections_world) !!! 0))).*2
    ∧ observer_calls events
      = connectionObservers (q2qs (run_ops example_ops two_connections_world) !!! 0)
    ∧ (∀ key, registry w' key
              = filter (λ v, lv_listener v ≠ 0)
                  (registry (run_ops example_ops two_connections_world) key))
    ∧ (∀ key value, value ∈ registry w' key → lv_listener value ≠ 0)
    ∧ listeningClient (q2qs w' !!! 0) = [].
Proof.
  exact (Q2Q_connectionLost_cleans_up example_ops two_connections_world 0 ConnectionLost
           no_listeners_two_connections).
Defined.

(** What the example comes to: one channel and one observer are told, and
    the two registrations of connection 0 are gone while that of
    connection 1 stays. *)
Example Q2Q_connectionLost_example :
  let w := run_ops example_ops two_connections_world in
  let r := Q2Q_connectionLost 0 ConnectionLost w in
  r.1 = Ok ()
  ∧ connectionLost_calls (trace r.2) = [(1, ConnectionLost)]
  ∧ observer_calls (trace r.2) = [5]
  ∧ registry w (mkQ2QAddress "divmod.com" (Some "bob"), "q2q-example")
    = [(0, mkCertificate "divmod.com" "bob@divmod.com", "some simple protocols")]
  ∧ registry r.2 (mkQ2QAddress "divmod.com" (Some "bob"), "q2q-example") = []
  ∧ registry r.2 (mkQ2QAddress "twistedmatrix.com" (Some "radix"), "q2q-example")
    = [(1, mkCertificate "twistedmatrix.com" "radix@twistedmatrix.com", "at lab")].
Proof. vm_compute. repeat split. Qed.




Lemma ops_ok_example : ops_ok two_connections_world example_ops.
Proof.
  unfold example_ops. cbn [ops_ok op_ok].
  repeat split.
  - intros v t Ht.
    assert (Hempty : transports
      (step (step (step (step two_connections_world
         (OpListen 0 ["q2q-example"; "q2q-example2"]
            (mkQ2QAddress "divmod.com" (Some "bob")) "some simple protocols"))
         (OpNotifyOnConnectionLost 0 5))
         (OpListen 1 ["q2q-example"] (mkQ2QAddress "twistedmatrix.com" (Some "radix"))
            "at lab"))
         (OpMapListener (mkQ2QAddress "divmod.com" (Some "radix"))
            (mkQ2QAddress "divmod.com" (Some "bob")) "q2q-example" 7 false)) = ∅)
      by (vm_compute; reflexivity).
    rewrite Hempty in Ht. by rewrite lookup_empty in Ht.
  - vm_compute. by eexists.
Qed.


(** The channel of the example is registered; after CLOSE it is not. *)
Example virtual_transport_example :
  let w := run_ops example_ops two_connections_world in
  connections (q2qs w !!! 0) !! "bob@divmod.com->radix@divmod.com:1" = Some 1
  ∧ connections
      (q2qs (step w (OpClose 0 (write_box "bob@divmod.com->radix@divmod.com:1" ""))) !!! 0)
    !! "bob@divmod.com->radix@divmod.com:1" = None.
Proof. vm_compute. by split. Qed.

(** Why ids must be unique per connection: a second transport made under
    an id already in use on connection 0 takes the entry, and the first,
    on which [connectionLost] has not run, is no longer the one found
    under its id. *)
Example duplicate_id_takes_entry :
  let bob := mkQ2QAddress "divmod.com" (Some "bob") in
  let radix := mkQ2QAddress "divmod.com" (Some "radix") in
  let new := OpNewTransport 0 bob radix "q2q-example" "id" 7 true in
  let w := run_ops [new; new] two_connections_world in
  (vt_id <$> transports w !! 0) = Some "id"
  ∧ (vt_q2q <$> transports w !! 0) = Some 0
  ∧ trace w = []
  ∧ connections (q2qs w !!! 0) !! "id" = Some 1
  ∧ ¬ ops_ok two_connections_world [new; new].
Proof.
  vm_compute. repeat split.
  intros (_ & Hfresh & _).
  by apply (Hfresh 0 (mkVirtualTransport 0 (mkQ2QAddress "divmod.com" (Some "bob"))
                        (mkQ2QAddress "divmod.com" (Some "radix")) "id" true
                        "q2q-example" 7 None false)).
Qed.


(** ** Reservations and their timers *)

(** *** Connection ids are told apart by their counter *)

Lemma last_field_append p d :
  contains ":" d = false → last_field (p +:+ ":" +:+ d) = d.
Proof.
  intros Hd. induction p as [|c p IH].
  - rewrite append_nil_l. change (":" +:+ d) with (String ":" d). simpl.
    by rewrite Hd.
  - rewrite append_cons. simpl. rewrite contains_append.
    change (":" +:+ d) with (String ":" d). simpl.
    rewrite orb_true_r. exact IH.
Qed.

Lemma string_of_uint_no_colon d : contains ":" (NilEmpty.string_of_uint d) = false.
Proof. induction d; simpl; done. Qed.

Lemma str_of_N_inj n m : str_of_N n = str_of_N m → n = m.
Proof.
  unfold str_of_N. intros H.
  apply DecimalN.Unsigned.to_uint_inj.
  apply (f_equal NilEmpty.uint_of_string) in H.
  rewrite !NilEmpty.usu in H. congruence.
Qed.

Lemma connection_id_inj From1 to1 n1 From2 to2 n2 :
  connection_id From1 to1 n1 = connection_id From2 to2 n2 → n1 = n2.
Proof.
  unfold connection_id. intros H.
  apply (f_equal last_field) in H.
  rewrite <- !(append_assoc' _ "->"), <- !(append_assoc' _ (Q2QAddress_str _)) in H.
  rewrite !last_field_append in H by apply string_of_uint_no_colon.
  by apply str_of_N_inj.
Qed.

(** *** The primitives, case by case *)

Lemma elem_of_enqueue t h q p : p ∈ enqueue t h q ↔ p = (t, h) ∨ p ∈ q.
Proof.
  induction q as [|[t' h'] q IH]; simpl.
  - rewrite list_elem_of_singleton, elem_of_nil. tauto.
  - case_decide; rewrite !elem_of_cons; [rewrite IH |]; tauto.
Qed.

Lemma mapListener_run to From pn pf isClient w :
  let id := connection_id From to (_lastConnID (service w)) in
  let call := next_ref w in
  let T := (seconds w + 120)%N in
  mapListener to From pn pf isClient w =
    (Ok (T, id),
     with_service
       (with_inboundConnections
          (<[id := (mkConnectionWaiter From to pn pf isClient, call)]>))
       (with_pendingTimedCalls (enqueue T call)
          (with_delayedCalls
             (<[call := mkDelayedCall T (inboundConnections_pop id) false false]>)
             (with_next_ref (S call)
                (with_service (with_lastConnID (_lastConnID (service w) + 1)%N) w))))).
Proof.
  intros id call T. unfold mapListener, _nextConnectionID, callLater. mrun.
  rewrite lookup_total_insert_eq. reflexivity.
Qed.

Lemma run_delayed_run call w :
  let c := delayedCalls w !!! call in
  run_delayed call w =
    (Ok (),
     if dc_cancelled c then w
     else
       match dc_func c with
       | inboundConnections_pop listenerID =>
           with_service (with_inboundConnections (delete listenerID))
             (with_delayedCalls
                (<[call := mkDelayedCall (dc_time c) (dc_func c) true (dc_cancelled c)]>) w)
       end).
Proof.
  intros c. unfold run_delayed. rewrite bind_get_world. fold c.
  destruct (dc_cancelled c); [done |].
  rewrite bind_modify. unfold safely, try_except, apply_delayed.
  by destruct (dc_func c).
Qed.

Lemma DelayedCall_cancel_run call w :
  let c := delayedCalls w !!! call in
  DelayedCall_cancel call w =
    if dc_cancelled c then (Raise AlreadyCancelled, w)
    else if dc_called c then (Raise AlreadyCalled, w)
    else (Ok (),
          with_delayedCalls
            (<[call := mkDelayedCall (dc_time c) (dc_func c) (dc_called c) true]>) w).
Proof.
  intros c. unfold DelayedCall_cancel. rewrite bind_get_world. fold c.
  by destruct (dc_cancelled c), (dc_called c).
Qed.

(** *** The reactor turning *)

Lemma timers_ran_nil w : timers_ran [] w w.
Proof.
  unfold timers_ran. repeat split; try done.
  intros p id Hp. by apply elem_of_nil in Hp.
Qed.

Lemma timers_ran_one t call w : timers_ran [(t, call)] w (run_delayed call w).2.
Proof.
  rewrite run_delayed_run. cbv zeta. simpl.
  destruct (dc_cancelled (delayedCalls w !!! call)) eqn:Hc.
  - unfold timers_ran. repeat split; try done.
    intros p id Hp. apply list_elem_of_singleton in Hp as ->. simpl. congruence.
  - assert (Hdom : is_Some (delayedCalls w !! call)).
    { destruct (delayedCalls w !! call) as [c|] eqn:Hl; [done |].
      rewrite lookup_total_alt, Hl in Hc. done. }
    destruct (dc_func (delayedCalls w !!! call)) as [listenerID] eqn:Hf.
    unfold timers_ran; simpl. repeat split.
    + intros id x Hx. apply lookup_delete_Some in Hx. tauto.
    + intros p id Hp _ Hfunc. apply list_elem_of_singleton in Hp as ->. simpl in Hfunc.
      rewrite Hf in Hfunc. injection Hfunc as ->. apply lookup_delete_eq.
    + intros h Hh. rewrite lookup_insert_ne; [done |]. set_solver.
    + destruct (decide (call = call0)) as [<-|Hne]; [done |].
      by rewrite lookup_insert_ne.
    + destruct (decide (call = call0)) as [<-|Hne];
        [by rewrite lookup_insert_eq | by rewrite lookup_insert_ne].
    + destruct (decide (call = call0)) as [<-|Hne];
        [by rewrite lookup_total_insert_eq | by rewrite lookup_total_insert_ne].
    + destruct (decide (call = call0)) as [<-|Hne];
        [by rewrite lookup_total_insert_eq | by rewrite lookup_total_insert_ne].
    + destruct (decide (call = call0)) as [<-|Hne];
        [by rewrite lookup_total_insert_eq | by rewrite lookup_total_insert_ne].
Qed.

Lemma timers_ran_cons p due w w1 w2 :
  timers_ran [p] w w1 → timers_ran due w1 w2 → timers_ran (p :: due) w w2.
Proof.
  intros (Ha & Hb & Hc & Hd & He & Hf & Hg & Hh & Hi)
         (Ha' & Hb' & Hc' & Hd' & He' & Hf' & Hg' & Hh' & Hi').
  unfold timers_ran. repeat split.
  - intros id x Hx. by apply Ha, Ha'.
  - intros p' id Hp Hcanc Hfunc. apply elem_of_cons in Hp as [->|Hp].
    + assert (Hnone : inboundConnections (service w1) !! id = None)
        by (apply (Hb p id); [left | done | done]).
      destruct (inboundConnections (service w2) !! id) as [x|] eqn:Hx; [| done].
      apply Ha' in Hx. congruence.
    + apply (Hb' p' id Hp).
      * destruct (He p'.2) as (_ & _ & ->). done.
      * destruct (He p'.2) as (_ & -> & _). done.
  - intros h Hh0. rewrite fmap_cons, not_elem_of_cons in Hh0. destruct Hh0 as [Hne Hh0].
    rewrite Hc' by done. apply Hc. simpl. set_solver.
  - by rewrite Hd', Hd.
  - by rewrite Hd', Hd.
  - destruct (He' call) as (-> & _), (He call) as (-> & _). done.
  - destruct (He' call) as (_ & -> & _), (He call) as (_ & -> & _). done.
  - destruct (He' call) as (_ & _ & ->), (He call) as (_ & _ & ->). done.
  - congruence.
  - congruence.
  - congruence.
  - congruence.
Qed.

Lemma run_due_ran due : ∀ w,
  ∃ w', for_each due (λ p, run_delayed p.2) w = (Ok (), w') ∧ timers_ran due w w'.
Proof.
  induction due as [|[t call] due IH]; intros w.
  - exists w. split; [done | apply timers_ran_nil].
  - rewrite for_each_cons. simpl.
    pose proof (timers_ran_one t call w) as Hone.
    rewrite run_delayed_run in *. cbv zeta in *. simpl in *.
    set (w1 := if dc_cancelled _ then w else _) in *.
    destruct (IH w1) as (w2 & Hrun & Hran).
    exists w2. split; [done |]. by apply (timers_ran_cons _ _ _ w1).
Qed.

Lemma advance_run dt w :
  let now := (seconds w + dt)%N in
  ∃ w',
    advance dt w = (Ok (), w')
    ∧ timers_ran (filter (λ p, (p.1 ≤ now)%N) (pendingTimedCalls w))
        (with_pendingTimedCalls (filter (λ p, ¬ (p.1 ≤ now)%N)) (with_seconds now w)) w'.
Proof.
  intros now. unfold advance, runUntilCurrent.
  rewrite bind_modify, bind_get_world, bind_modify. wsimpl. fold now.
  apply run_due_ran.
Qed.

(** *** Every reservation keeps its timer *)

Lemma res_inv_same w w' : res_inv w → res_same w w' → res_inv w'.
Proof.
  intros [Hres Hdom] (Ht & _ & Hd & Hp & Hs & Hn). split.
  - intros id cwait call. rewrite Ht, Hd, Hp, Hs. apply Hres.
  - intros call. rewrite Hd. intros Hc. apply Hdom in Hc. lia.
Qed.

Lemma res_inv_mapListener to From pn pf isClient w :
  res_inv w → res_inv (mapListener to From pn pf isClient w).2.
Proof.
  intros [Hres Hdom]. rewrite mapListener_run. cbv zeta. simpl.
  set (id := connection_id From to (_lastConnID (service w))).
  split; simpl.
  - intros id' cwait call Hid'.
    destruct (decide (id = id')) as [<-|Hne].
    + rewrite lookup_insert_eq in Hid'. injection Hid' as <- <-.
      eexists. rewrite lookup_insert_eq. split; [done |]. simpl.
      repeat split; [lia |]. apply elem_of_enqueue. by left.
    + rewrite lookup_insert_ne in Hid' by done.
      destruct (Hres _ _ _ Hid') as (c & Hc & H1 & H2 & H3 & H4 & H5).
      exists c. rewrite lookup_insert_ne.
      * repeat split; try done. apply elem_of_enqueue. by right.
      * assert (call < next_ref w) by (apply Hdom; by exists c). lia.
  - intros call Hc. destruct (decide (next_ref w = call)) as [<-|Hne]; [lia |].
    rewrite lookup_insert_ne in Hc by done. apply Hdom in Hc. lia.
Qed.

Lemma res_inv_advance dt w : res_inv w → res_inv (advance dt w).2.
Proof.
  intros [Hres Hdom].
  destruct (advance_run dt w) as (w' & -> & Hran). simpl.
  destruct Hran as (Ha & Hb & Hc & Hd & He & Hf & Hg & Hh & Hi). simpl in *.
  split.
  - intros id cwait call Hid.
    destruct (Hres _ _ _ (Ha _ _ Hid)) as (c & Hcall & H1 & H2 & H3 & H4 & H5).
    pose proof (lookup_total_correct _ _ _ Hcall) as Htot.
    assert (Hnotdue : call ∉ (filter (λ p, (p.1 ≤ seconds w + dt)%N)
                                (pendingTimedCalls w)).*2).
    { intros Hin. apply list_elem_of_fmap in Hin as ([t h] & Heq & Hin). simpl in Heq.
      subst h. specialize (Hb (t, call) id Hin). simpl in Hb.
      rewrite Htot in Hb. rewrite Hb in Hid by done. done. }
    exists c. rewrite (Hc _ Hnotdue). repeat split; try done.
    + rewrite Hf.
      destruct (decide (dc_time c ≤ seconds w + dt)%N) as [Hle|Hgt]; [| lia].
      destruct Hnotdue. apply list_elem_of_fmap. exists (dc_time c, call).
      split; [done |]. by apply list_elem_of_filter.
    + rewrite Hg. apply list_elem_of_filter. split; [| done]. simpl.
      destruct (decide (dc_time c ≤ seconds w + dt)%N) as [Hle|Hgt]; [| done].
      destruct Hnotdue. apply list_elem_of_fmap. exists (dc_time c, call).
      split; [done |]. by apply list_elem_of_filter.
  - intros call Hcall. rewrite Hh. apply Hdom. by apply Hd.
Qed.

(** VIRTUAL for an id that is not reserved. *)
Lemma command_VIRTUAL_unknown self id w :
  inboundConnections (service w) !! id = None →
  command_VIRTUAL self id w = (Raise KeyError, w).
Proof.
  intros Hid. unfold command_VIRTUAL.
  by rewrite bind_get_service, (bind_getitem_None _ _ _ _ Hid).
Qed.

(** VIRTUAL for a reservation whose timer is still to run. *)
Lemma command_VIRTUAL_reserved self id cwait call c w :
  inboundConnections (service w) !! id = Some (cwait, call) →
  delayedCalls w !! call = Some c →
  dc_called c = false → dc_cancelled c = false →
  command_VIRTUAL self id w =
    VirtualTransport_init self (cw_to cwait) (cw_From cwait) (cw_protocolName cwait) id
      (cw_protocolFactory cwait) false
      (with_delayedCalls
         (<[call := mkDelayedCall (dc_time c) (dc_func c) false true]>)
         (with_service (with_inboundConnections (delete id)) w)).
Proof.
  intros Hid Hcall Hcalled Hcancelled. unfold command_VIRTUAL.
  rewrite bind_get_service, (bind_getitem_Some _ _ _ _ _ Hid).
  rewrite bind_update_service, bind_run, DelayedCall_cancel_run. cbv zeta. wsimpl.
  rewrite (lookup_total_correct _ _ _ Hcall), Hcancelled, Hcalled.
  rewrite bind_run, VirtualTransport_init_run. reflexivity.
Qed.

Lemma res_inv_command_VIRTUAL self id w : res_inv w → res_inv (command_VIRTUAL self id w).2.
Proof.
  intros Hinv. pose proof Hinv as [Hres Hdom].
  destruct (inboundConnections (service w) !! id) as [[cwait call]|] eqn:Hid;
    [| by rewrite command_VIRTUAL_unknown].
  destruct (Hres _ _ _ Hid) as (c & Hcall & H1 & H2 & H3 & H4 & H5).
  rewrite (command_VIRTUAL_reserved _ _ _ _ _ _ Hid Hcall H1 H2).
  match goal with
  | |- res_inv (VirtualTransport_init _ _ _ _ _ _ _ ?w0).2 =>
      apply (res_inv_same w0); [| apply VirtualTransport_init_res_same]
  end.
  split; simpl.
  - intros id' cwait' call' Hid'.
    apply lookup_delete_Some in Hid' as [Hne Hid'].
    destruct (Hres _ _ _ Hid') as (c' & Hcall' & H1' & H2' & H3' & H4' & H5').
    exists c'. rewrite lookup_insert_ne; [done |].
    intros <-. rewrite Hcall in Hcall'. injection Hcall' as <-.
    rewrite H3 in H3'. by injection H3'.
  - intros call' Hc'. apply Hdom.
    destruct (decide (call = call')) as [<-|Hne]; [by exists c |].
    by rewrite lookup_insert_ne in Hc'.
Qed.

(** *** Reservations claimed by a direct connection, and the service
    stopping *)

Lemma res_inv_shrunk w w' : res_inv w → res_shrunk w w' → res_inv w'.
Proof.
  intros [Hr Hdom] (Ha & Hb & Hc & Hd & Hl & Hp & Hs & Hn). split.
  - intros id cwait call Hid.
    destruct (Hr _ _ _ (Ha _ _ Hid)) as (c & Hcall & H1 & H2 & H3 & H4 & H5).
    exists c. rewrite (Hb _ _ _ Hid), Hs, Hp. done.
  - intros call Hsome. apply Hc, Hdom in Hsome. lia.
Qed.

Lemma protocolAndAuthFromId_unknown id tpt w :
  inboundConnections (service w) !! id = None →
  protocolAndAuthFromId id tpt w = (Ok None, w).
Proof. intros Hid. unfold protocolAndAuthFromId. by rewrite bind_get_service, Hid. Qed.

(** A direct connection claiming a reservation whose timer is still to
    run: the reservation leaves the table first; the timer is cancelled
    only if the factory builds the protocol. *)
Lemma protocolAndAuthFromId_reserved id tpt cwait call c w :
  inboundConnections (service w) !! id = Some (cwait, call) →
  delayedCalls w !! call = Some c →
  dc_called c = false → dc_cancelled c = false →
  let build := factory_buildProtocolFor (cw_protocolFactory cwait) tpt in
  let w1 := logged [EvUser build] (with_service (with_inboundConnections (delete id)) w) in
  protocolAndAuthFromId id tpt w =
    match user_raises w build with
    | Some e => (Raise e, w1)
    | None =>
        (Ok (Some (next_ref w, cw_to cwait, cw_From cwait)),
         with_delayedCalls (<[call := mkDelayedCall (dc_time c) (dc_func c) false true]>)
           (with_next_ref (S (next_ref w)) w1))
    end.
Proof.
  intros Hid Hcall Hcalled Hcancelled build w1.
  unfold protocolAndAuthFromId, createProtocolWithTransport.
  rewrite bind_get_service, Hid, bind_update_service.
  rewrite bind_assoc, bind_run, call_user_run. wsimpl. fold build.
  destruct (user_raises w build) as [e|]; [done |].
  rewrite bind_assoc, bind_fresh_ref, bind_mret, bind_run, DelayedCall_cancel_run.
  cbv zeta. wsimpl.
  by rewrite (lookup_total_correct _ _ _ Hcall), Hcancelled, Hcalled.
Qed.

Lemma protocolAndAuthFromId_shrunk id tpt w :
  res_inv w → res_shrunk w (protocolAndAuthFromId id tpt w).2.
Proof.
  intros [Hr Hdom].
  destruct (inboundConnections (service w) !! id) as [[cwait call]|] eqn:Hid.
  - destruct (Hr _ _ _ Hid) as (c & Hcall & H1 & H2 & H3 & H4 & H5).
    rewrite (protocolAndAuthFromId_reserved _ _ _ _ _ _ Hid Hcall H1 H2). cbv zeta.
    destruct (user_raises w _) as [e|]; unfold res_shrunk; simpl.
    + split; [| by repeat split].
      intros id' x Hx. by apply lookup_delete_Some in Hx as [_ Hx].
    + split; [| split; [| split; [| split]]].
      * intros id' x Hx. by apply lookup_delete_Some in Hx as [_ Hx].
      * intros id' cwait' call' Hx. apply lookup_delete_Some in Hx as [Hne Hx].
        rewrite lookup_insert_ne; [done |]. intros <-.
        destruct (Hr _ _ _ Hx) as (c' & Hcall' & _ & _ & H3' & _).
        rewrite Hcall in Hcall'. injection Hcall' as <-. congruence.
      * intros call'. destruct (decide (call = call')) as [<-|Hne].
        -- rewrite lookup_insert_eq, Hcall. by split.
        -- by rewrite lookup_insert_ne.
      * intros call'. destruct (decide (call = call')) as [<-|Hne].
        -- by rewrite lookup_total_insert_eq, (lookup_total_correct _ _ _ Hcall).
        -- by rewrite lookup_total_insert_ne.
      * repeat split; lia.
  - rewrite (protocolAndAuthFromId_unknown _ _ _ Hid). unfold res_shrunk; simpl.
    by repeat split.
Qed.

(** Cancelling timers that are all different and all still to run. *)
Lemma cancel_all_run (l : list (ConnectionWaiter * Ref)) : ∀ w,
  NoDup l.*2 →
  (∀ p, p ∈ l → ∃ c, delayedCalls w !! p.2 = Some c
                     ∧ dc_called c = false ∧ dc_cancelled c = false) →
  ∃ w',
    for_each l (λ '(cwait, delayed), DelayedCall_cancel delayed) w = (Ok (), w')
    ∧ service w' = service w
    ∧ (∀ call, is_Some (delayedCalls w' !! call) ↔ is_Some (delayedCalls w !! call))
    ∧ (∀ call, dc_time (delayedCalls w' !!! call) = dc_time (delayedCalls w !!! call)
               ∧ dc_func (delayedCalls w' !!! call) = dc_func (delayedCalls w !!! call))
    ∧ (∀ p, p ∈ l → dc_cancelled (delayedCalls w' !!! p.2) = true)
    ∧ (∀ call, call ∉ l.*2 → delayedCalls w' !! call = delayedCalls w !! call)
    ∧ pendingTimedCalls w' = pendingTimedCalls w
    ∧ seconds w' = seconds w
    ∧ next_ref w' = next_ref w.
Proof.
  induction l as [|[cwait call] l IH]; intros w Hnd Hall.
  - exists w. rewrite for_each_nil. repeat split; try done.
    intros p Hp. by apply elem_of_nil in Hp.
  - rewrite fmap_cons in Hnd. apply NoDup_cons in Hnd as [Hnotin Hnd].
    destruct (Hall (cwait, call)) as (c & Hc & Hcalled & Hcancelled); [by left |].
    simpl in Hc.
    rewrite for_each_cons, DelayedCall_cancel_run. cbv zeta.
    rewrite (lookup_total_correct _ _ _ Hc), Hcancelled, Hcalled.
    set (w1 := with_delayedCalls _ w).
    destruct (IH w1 Hnd) as (w' & Hrun & Hsvc & Hdom & Hkeep & Hcanc & Hout & Hp & Hs & Hn).
    { intros p Hp. destruct (Hall p) as (c' & Hc' & ? & ?); [by right |].
      exists c'. split; [| done]. unfold w1; simpl.
      rewrite lookup_insert_ne; [done |]. intros ->.
      apply Hnotin. apply list_elem_of_fmap. by exists p. }
    exists w'. split; [done |]. split; [by rewrite Hsvc |].
    split; [| split; [| split; [| split]]].
    + intros call'. rewrite Hdom. unfold w1; simpl.
      destruct (decide (call = call')) as [<-|Hne].
      * rewrite lookup_insert_eq, Hc. by split.
      * by rewrite lookup_insert_ne.
    + intros call'. destruct (Hkeep call') as [-> ->]. unfold w1; simpl.
      destruct (decide (call = call')) as [<-|Hne].
      * by rewrite lookup_total_insert_eq, (lookup_total_correct _ _ _ Hc).
      * by rewrite lookup_total_insert_ne.
    + intros p Hp'. apply elem_of_cons in Hp' as [->|Hp']; [| by apply Hcanc].
      simpl. rewrite lookup_total_alt, Hout by done. unfold w1; simpl.
      by rewrite lookup_insert_eq.
    + intros call' Hcall'. rewrite fmap_cons, not_elem_of_cons in Hcall'.
      destruct Hcall' as [Hne Hcall']. rewrite Hout by done. unfold w1; simpl.
      by rewrite lookup_insert_ne.
    + by repeat split.
Qed.

(** With every reservation holding its own live timer, stopping the
    service cancels them all and empties the table. *)
Lemma stopService_run w :
  res_inv w →
  ∃ w',
    stopService w = (Ok (), w')
    ∧ inboundConnections (service w') = ∅
    ∧ (∀ id cwait call, inboundConnections (service w) !! id = Some (cwait, call) →
         dc_cancelled (delayedCalls w' !!! call) = true)
    ∧ res_shrunk w w'.
Proof.
  intros [Hr Hdom]. unfold stopService. rewrite bind_get_service, bind_run.
  destruct (cancel_all_run (map_to_list (inboundConnections (service w))).*2 w)
    as (w1 & Hrun & Hsvc & Hd & Hkeep & Hcanc & _ & Hp & Hs & Hn).
  { rewrite <- list_fmap_compose.
    apply NoDup_fmap_2_strong; [| apply NoDup_map_to_list].
    intros [id1 [cw1 call1]] [id2 [cw2 call2]] H1 H2 Heq. simpl in Heq. subst call2.
    apply elem_of_map_to_list in H1, H2.
    destruct (Hr _ _ _ H1) as (c1 & Hc1 & _ & _ & Hf1 & _).
    destruct (Hr _ _ _ H2) as (c2 & Hc2 & _ & _ & Hf2 & _).
    assert (id1 = id2) as -> by congruence.
    congruence. }
  { intros [cwait call] Hin. apply list_elem_of_fmap in Hin as ([id x] & Heq & Hin).
    apply elem_of_map_to_list in Hin. simpl in *. subst x.
    destruct (Hr _ _ _ Hin) as (c & Hc & H1 & H2 & _). by exists c. }
  rewrite Hrun. eexists. split; [reflexivity |]. simpl.
  split; [done |]. split.
  - intros id cwait call Hid. apply (Hcanc (cwait, call)).
    apply list_elem_of_fmap. exists (id, (cwait, call)). split; [done |].
    by apply elem_of_map_to_list.
  - unfold res_shrunk; simpl. rewrite Hsvc.
    split; [by intros id x; rewrite lookup_empty |].
    split; [by intros id cwait call; rewrite lookup_empty |].
    repeat split; try done; try apply Hd; try apply Hkeep. lia.
Qed.

Lemma stopService_shrunk w : res_inv w → res_shrunk w (stopService w).2.
Proof.
  intros Hinv. destruct (stopService_run w Hinv) as (w' & Hrun & _ & _ & Hshrunk).
  by rewrite Hrun.
Qed.

Lemma res_inv_step w op : res_inv w → res_inv (step w op).
Proof.
  intros Hinv. unfold step.
  destruct op; simpl run_op;
    try (rewrite bind_run;
         match goal with |- context [?m w] =>
           let H := fresh in
           assert (H : res_inv (m w).2);
           [| by destruct (m w) as [[?|?] ?]] end).
  - by apply res_inv_mapListener.
  - by apply res_inv_advance.
  - by apply res_inv_command_VIRTUAL.
  - apply (res_inv_same w); [done | apply VirtualTransport_init_res_same].
  - apply (res_inv_same w); [done | apply startProtocol_res_same].
  - apply (res_inv_same w); [done | apply juice_WRITE_res_same].
  - apply (res_inv_same w); [done | apply juice_CLOSE_res_same].
  - apply (res_inv_same w); [done | apply loseConnection_res_same].
  - apply (res_inv_same w); [done | apply loseConnection_answered_res_same].
  - apply (res_inv_same w); [done | apply Q2Q_connectionLost_res_same].
  - apply (res_inv_same w); [done | apply command_LISTEN_res_same].
  - apply (res_inv_same w); [done | apply notifyOnConnectionLost_res_same].
  - apply (res_inv_shrunk w); [done | by apply protocolAndAuthFromId_shrunk].
  - apply (res_inv_shrunk w); [done | by apply stopService_shrunk].
Qed.

Lemma res_inv_run_ops ops : ∀ w, res_inv w → res_inv (run_ops ops w).
Proof.
  induction ops as [|op ops IH]; intros w Hinv; [done |].
  simpl. by apply IH, res_inv_step.
Qed.

Lemma res_inv_no_reservations w : no_reservations w → res_inv w.
Proof.
  intros [Ht Hd]. split.
  - intros id cwait call. by rewrite Ht, lookup_empty.
  - intros call. rewrite Hd, lookup_empty. by intros [].
Qed.

(** *** One reservation, from [mapListener] on *)

Section Reservation.

Variables (From to : Q2QAddress) (lcid : N) (waiter : ConnectionWaiter) (call : Ref) (T : N).

Local Abbreviation rid := (connection_id From to lcid).

Lemma reservation_inv_same w w' :
  reservation_inv rid lcid waiter call T w → res_same w w' →
  reservation_inv rid lcid waiter call T w'.
Proof.
  intros (H1 & H2 & H3 & H4 & H5) Hsame.
  pose proof Hsame as (Ht & Hl & Hd & Hp & Hs & Hn).
  unfold reservation_inv. rewrite Ht, Hl, Hd.
  split; [done |]. split; [lia |]. split; [done |]. split; [done |].
  by apply (res_inv_same w).
Qed.

Lemma reservation_inv_shrunk w w' :
  reservation_inv rid lcid waiter call T w → res_shrunk w w' →
  reservation_inv rid lcid waiter call T w'.
Proof.
  intros (H1 & H2 & (c & Hc & Hct & Hcf) & H4 & H5) Hshrunk.
  pose proof (res_inv_shrunk _ _ H5 Hshrunk) as Hres.
  destruct Hshrunk as (Ha & Hb & Hd & Hkeep & Hl & Hp & Hs & Hn).
  unfold reservation_inv. rewrite Hl.
  split; [done |]. split; [lia |]. split; [| split; [| done]].
  - assert (Hsome : is_Some (delayedCalls w' !! call)) by (apply Hd; by exists c).
    destruct Hsome as [c' Hc']. exists c'. split; [done |].
    destruct (Hkeep call) as [Htime Hfunc].
    rewrite (lookup_total_correct _ _ _ Hc'), (lookup_total_correct _ _ _ Hc)
      in Htime, Hfunc.
    by rewrite Htime, Hfunc.
  - intros x Hx. by apply H4, Ha.
Qed.

Lemma reservation_inv_mapListener to' From' pn pf isClient w :
  reservation_inv rid lcid waiter call T w →
  reservation_inv rid lcid waiter call T (mapListener to' From' pn pf isClient w).2.
Proof.
  intros (H1 & H2 & (c & Hc & Hct & Hcf) & H4 & H5).
  pose proof (res_inv_mapListener to' From' pn pf isClient w H5) as Hres.
  rewrite mapListener_run in *. cbv zeta in *. simpl in *.
  assert (Hne : connection_id From' to' (_lastConnID (service w)) ≠ rid).
  { intros Heq. apply connection_id_inj in Heq. lia. }
  unfold reservation_inv; simpl.
  split; [lia |]. split; [lia |]. split; [| split; [| done]].
  - exists c. rewrite lookup_insert_ne by lia. done.
  - intros x. rewrite lookup_insert_ne by done. apply H4.
Qed.

Lemma reservation_inv_advance dt w :
  reservation_inv rid lcid waiter call T w →
  reservation_inv rid lcid waiter call T (advance dt w).2.
Proof.
  intros (H1 & H2 & (c & Hc & Hct & Hcf) & H4 & H5).
  pose proof (res_inv_advance dt w H5) as Hres.
  destruct (advance_run dt w) as (w' & Hrun & Hran). rewrite Hrun in *. simpl in *.
  destruct Hran as (Ha & Hb & Hc' & Hd & He & Hf & Hg & Hh & Hi). simpl in *.
  unfold reservation_inv. rewrite Hi, Hh.
  split; [done |]. split; [done |]. split; [| split; [| done]].
  - assert (Hsome : is_Some (delayedCalls w' !! call)) by (apply Hd; by exists c).
    destruct Hsome as [c' Hc2]. exists c'. split; [done |].
    pose proof (lookup_total_correct _ _ _ Hc2) as Htot'.
    pose proof (lookup_total_correct _ _ _ Hc) as Htot.
    destruct (He call) as (Htime & Hfunc & _).
    rewrite Htot', Htot in Htime, Hfunc. by rewrite Htime, Hfunc.
  - intros x Hx. by apply H4, Ha.
Qed.

Lemma reservation_inv_command_VIRTUAL self id' w :
  reservation_inv rid lcid waiter call T w →
  reservation_inv rid lcid waiter call T (command_VIRTUAL self id' w).2.
Proof.
  intros Hinv. pose proof Hinv as (H1 & H2 & (c & Hc & Hct & Hcf) & H4 & H5).
  pose proof (res_inv_command_VIRTUAL self id' w H5) as Hres.
  destruct (inboundConnections (service w) !! id') as [[cwait' call']|] eqn:Hid';
    [| by rewrite command_VIRTUAL_unknown].
  destruct H5 as [Hr Hdom].
  destruct (Hr _ _ _ Hid') as (c' & Hcall' & Hc1 & Hc2 & Hc3 & Hc4 & Hc5).
  rewrite (command_VIRTUAL_reserved _ _ _ _ _ _ Hid' Hcall' Hc1 Hc2) in *.
  rewrite VirtualTransport_init_run in *. simpl in *.
  unfold reservation_inv; simpl.
  split; [done |]. split; [lia |]. split; [| split; [| done]].
  - destruct (decide (call' = call)) as [->|Hne].
    + rewrite lookup_insert_eq. eexists. split; [done |]. simpl.
      rewrite Hc in Hcall'. injection Hcall' as <-. done.
    + exists c. by rewrite lookup_insert_ne.
  - intros x Hx. apply lookup_delete_Some in Hx as [_ Hx]. by apply H4.
Qed.

Lemma reservation_inv_step w op :
  reservation_inv rid lcid waiter call T w →
  reservation_inv rid lcid waiter call T (step w op).
Proof.
  intros Hinv. unfold step.
  destruct op; simpl run_op;
    try (rewrite bind_run;
         match goal with |- context [?m w] =>
           let H := fresh in
           assert (H : reservation_inv rid lcid waiter call T (m w).2);
           [| by destruct (m w) as [[?|?] ?]] end).
  - by apply reservation_inv_mapListener.
  - by apply reservation_inv_advance.
  - by apply reservation_inv_command_VIRTUAL.
  - apply (reservation_inv_same w); [done | apply VirtualTransport_init_res_same].
  - apply (reservation_inv_same w); [done | apply startProtocol_res_same].
  - apply (reservation_inv_same w); [done | apply juice_WRITE_res_same].
  - apply (reservation_inv_same w); [done | apply juice_CLOSE_res_same].
  - apply (reservation_inv_same w); [done | apply loseConnection_res_same].
  - apply (reservation_inv_same w); [done | apply loseConnection_answered_res_same].
  - apply (reservation_inv_same w); [done | apply Q2Q_connectionLost_res_same].
  - apply (reservation_inv_same w); [done | apply command_LISTEN_res_same].
  - apply (reservation_inv_same w); [done | apply notifyOnConnectionLost_res_same].
  - apply (reservation_inv_shrunk w); [done |].
    apply protocolAndAuthFromId_shrunk. by destruct Hinv as (_ & _ & _ & _ & ?).
  - apply (reservation_inv_shrunk w); [done |].
    apply stopService_shrunk. by destruct Hinv as (_ & _ & _ & _ & ?).
Qed.

Lemma reservation_inv_run_ops ops : ∀ w,
  reservation_inv rid lcid waiter call T w →
  reservation_inv rid lcid waiter call T (run_ops ops w).
Proof.
  induction ops as [|op ops IH]; intros w Hinv; [done |].
  simpl. by apply IH, reservation_inv_step.
Qed.

(** While the reservation is in the table its timer is still to run and
    the clock is short of [T]. *)
Lemma reservation_inv_present w x :
  reservation_inv rid lcid waiter call T w →
  inboundConnections (service w) !! rid = Some x →
  x = (waiter, call)
  ∧ (seconds w < T)%N
  ∧ ∃ c, delayedCalls w !! call = Some c
         ∧ dc_called c = false ∧ dc_cancelled c = false
         ∧ dc_func c = inboundConnections_pop rid ∧ dc_time c = T.
Proof.
  intros (H1 & H2 & (c & Hc & Hct & Hcf) & H4 & [Hr Hdom]) Hx.
  pose proof (H4 _ Hx) as ->. split; [done |].
  destruct (Hr _ _ _ Hx) as (c' & Hc' & Hc1 & Hc2 & Hc3 & Hc4 & Hc5).
  rewrite Hc in Hc'. injection Hc' as <-.
  split; [lia |]. by exists c.
Qed.

(** Once the clock has reached [T] the reservation is gone. *)
Lemma reservation_inv_expired w :
  reservation_inv rid lcid waiter call T w →
  (T ≤ seconds w)%N →
  inboundConnections (service w) !! rid = None.
Proof.
  intros Hinv Hle.
  destruct (inboundConnections (service w) !! rid) as [x|] eqn:Hx; [| done].
  destruct (reservation_inv_present _ _ Hinv Hx) as (_ & Hlt & _). lia.
Qed.

End Reservation.

(** [mapListener] establishes the invariant of the reservation it makes. *)
Lemma reservation_inv_created to From pn pf isClient w :
  res_inv w →
  reservation_inv (connection_id From to (_lastConnID (service w)))
    (_lastConnID (service w)) (mkConnectionWaiter From to pn pf isClient)
    (next_ref w) (seconds w + 120)%N (mapListener to From pn pf isClient w).2.
Proof.
  intros Hinv. pose proof (res_inv_mapListener to From pn pf isClient w Hinv) as Hres.
  rewrite mapListener_run in *. cbv zeta in *. simpl in *.
  unfold reservation_inv; simpl.
  split; [lia |]. split; [lia |]. split; [| split; [| done]].
  - eexists. rewrite lookup_insert_eq. by split.
  - intros x. rewrite lookup_insert_eq. by intros [= <-].
Qed.

(** VIRTUAL for a reservation that is in the table: the reservation goes,
    its timer is cancelled, and the timer coming due later does nothing. *)
Lemma reservation_inv_VIRTUAL From to lcid waiter call T self w x :
  reservation_inv (connection_id From to lcid) lcid waiter call T w →
  inboundConnections (service w) !! connection_id From to lcid = Some x →
  ∃ tpt w',
    command_VIRTUAL self (connection_id From to lcid) w = (Ok tpt, w')
    ∧ inboundConnections (service w') !! connection_id From to lcid = None
    ∧ dc_cancelled (delayedCalls w' !!! call) = true
    ∧ run_delayed call w' = (Ok (), w').
Proof.
  intros Hinv Hx.
  destruct (reservation_inv_present _ _ _ _ _ _ _ _ Hinv Hx)
    as (-> & _ & c & Hc & Hcalled & Hcancelled & _).
  rewrite (command_VIRTUAL_reserved _ _ _ _ _ _ Hx Hc Hcalled Hcancelled).
  rewrite VirtualTransport_init_run. do 2 eexists. split; [done |]. simpl.
  split; [apply lookup_delete_eq |].
  split; [by rewrite lookup_total_insert_eq |].
  rewrite run_delayed_run. cbv zeta. simpl. by rewrite lookup_total_insert_eq.
Qed.

(** Whenever the timer of a reservation runs, the reservation is not in
    the table afterwards. *)
Lemma reservation_inv_firing From to lcid waiter call T w :
  reservation_inv (connection_id From to lcid) lcid waiter call T w →
  inboundConnections (service (run_delayed call w).2) !! connection_id From to lcid = None.
Proof.
  intros Hinv. pose proof Hinv as (_ & _ & (c & Hc & _ & Hf) & H4 & [Hr _]).
  rewrite run_delayed_run. cbv zeta. simpl.
  rewrite (lookup_total_correct _ _ _ Hc), Hf.
  destruct (dc_cancelled c) eqn:Hcancelled; simpl; [| apply lookup_delete_eq].
  destruct (inboundConnections (service w) !! connection_id From to lcid) as [x|] eqn:Hx;
    [| done].
  pose proof (H4 _ eq_refl) as ->.
  destruct (Hr _ _ _ Hx) as (c' & Hc' & _ & Hc2 & _). congruence.
Qed.

(** Once the timer of a reservation has run, the reservation is gone. *)
Lemma reservation_inv_fired From to lcid waiter call T w :
  reservation_inv (connection_id From to lcid) lcid waiter call T w →
  dc_called (delayedCalls w !!! call) = true →
  inboundConnections (service w) !! connection_id From to lcid = None.
Proof.
  intros Hinv Hcalled.
  destruct (inboundConnections (service w) !! connection_id From to lcid) as [x|] eqn:Hx;
    [| done].
  destruct (reservation_inv_present _ _ _ _ _ _ _ _ Hinv Hx)
    as (_ & _ & c & Hc & Hc1 & _).
  rewrite (lookup_total_correct _ _ _ Hc) in Hcalled. congruence.
Qed.

Lemma no_reservations_two_connections : no_reservations two_connections_world.
Proof. split; reflexivity. Qed.

(** ** The life of a reservation *)

(** C7.  Whatever the service has done since it started ([ops0]),
    [mapListener] returns the expiry time [T], 120 seconds from now, and a
    new id, and leaves in [inboundConnections], under that id, the waiter
    with a delayed call that is pending in the reactor, due at [T], and
    whose function pops the id; that call running removes the reservation.
    Whatever happens next ([ops]: more reservations, VIRTUAL commands and
    direct connections for any id, time passing, traffic on channels, the
    service stopping):
    - the call running leaves no reservation under the id;
    - while the reservation is in the table it is the one that was made,
      the clock is short of [T] and the timer has not run, and a VIRTUAL
      command for the id on any connection succeeds, removes it and
      cancels the timer, which then does nothing when it comes due;
    - once the timer has run, and in any case once the clock has reached
      [T], there is no reservation under the id and a VIRTUAL command for
      it fails with [KeyError], changing nothing. *)
Theorem reservation_expires
  (ops0 : list Op) (ws : World)
  (to From : Q2QAddress) (protocolName : string) (protocolFactory : Ref) (isClient : bool) :
  no_reservations ws →
  let w0 := run_ops ops0 ws in
  let id := connection_id From to (_lastConnID (service w0)) in
  let call := next_ref w0 in
  let T := (seconds w0 + 120)%N in
  let waiter := mkConnectionWaiter From to protocolName protocolFactory isClient in
  ∃ w1,
    mapListener to From protocolName protocolFactory isClient w0 = (Ok (T, id), w1)
    ∧ inboundConnections (service w1) !! id = Some (waiter, call)
    ∧ delayedCalls w1 !! call
      = Some (mkDelayedCall T (inboundConnections_pop id) false false)
    ∧ (T, call) ∈ pendingTimedCalls w1
    ∧ ∀ ops : list Op,
        let w2 := run_ops ops w1 in
        inboundConnections (service (run_delayed call w2).2) !! id = None
        ∧ (∀ x, inboundConnections (service w2) !! id = Some x →
             x = (waiter, call)
             ∧ (seconds w2 < T)%N
             ∧ dc_called (delayedCalls w2 !!! call) = false
             ∧ ∀ self, ∃ tpt w3,
                 command_VIRTUAL self id w2 = (Ok tpt, w3)
                 ∧ inboundConnections (service w3) !! id = None
                 ∧ dc_cancelled (delayedCalls w3 !!! call) = true
                 ∧ run_delayed call w3 = (Ok (), w3))
        ∧ (dc_called (delayedCalls w2 !!! call) = true ∨ (T ≤ seconds w2)%N →
             inboundConnections (service w2) !! id = None
             ∧ ∀ self, command_VIRTUAL self id w2 = (Raise KeyError, w2)).
Proof.
  intros Hnone w0 id call T waiter.
  assert (Hinv0 : res_inv w0) by by apply res_inv_run_ops, res_inv_no_reservations.
  pose proof (reservation_inv_created to From protocolName protocolFactory isClient w0 Hinv0)
    as Hinv1.
  fold id call T waiter in Hinv1.
  pose proof (mapListener_run to From protocolName protocolFactory isClient w0) as Hrun.
  cbv zeta in Hrun. fold id call T waiter in Hrun.
  destruct (mapListener to From protocolName protocolFactory isClient w0) as [r w1] eqn:Hm.
  injection Hrun as -> Hw1. simpl in Hinv1.
  exists w1. split; [done |].
  split; [rewrite Hw1; simpl; apply lookup_insert_eq |].
  split; [rewrite Hw1; simpl; apply lookup_insert_eq |].
  split; [rewrite Hw1; simpl; apply elem_of_enqueue; by left |].
  intros ops w2.
  pose proof (reservation_inv_run_ops _ _ _ _ _ _ ops w1 Hinv1) as Hinv2. fold w2 in Hinv2.
  split; [by apply (reservation_inv_firing _ _ _ waiter _ T) |].
  split.
  - intros x Hx.
    destruct (reservation_inv_present _ _ _ _ _ _ _ _ Hinv2 Hx)
      as (-> & Hlt & c & Hc & Hcalled & _).
    split; [done |]. split; [done |].
    split; [by rewrite (lookup_total_correct _ _ _ Hc) |].
    intros self. by apply (reservation_inv_VIRTUAL _ _ _ _ _ _ _ _ _ Hinv2 Hx).
  - intros Hgone.
    assert (Hid : inboundConnections (service w2) !! id = None).
    { destruct Hgone as [Hcalled | Hle].
      - by apply (reservation_inv_fired _ _ _ _ _ _ _ Hinv2).
      - by apply (reservation_inv_expired _ _ _ _ _ _ _ Hinv2). }
    split; [done |]. intros self. by apply command_VIRTUAL_unknown.
Qed.

Lemma reservation_expires_witness :
  ∃ w1,
    mapListener (mkQ2QAddress "divmod.com" (Some "radix"))
      (mkQ2QAddress "divmod.com" (Some "bob")) "q2q-example" 7 false
      (run_ops example_ops two_connections_world)
    = (Ok ((seconds (run_ops example_ops two_connections_world) + 120)%N,
           connection_id (mkQ2QAddress "divmod.com" (Some "bob"))
             (mkQ2QAddress "divmod.com" (Some "radix"))
             (_lastConnID (service (run_ops example_ops two_connections_world)))), w1)
    ∧ inboundConnections (service w1)
        !! connection_id (mkQ2QAddress "divmod.com" (Some "bob"))
             (mkQ2QAddress "divmod.com" (Some "radix"))
             (_lastConnID (service (run_ops example_ops two_connections_world)))
      = Some (mkConnectionWaiter (mkQ2QAddress "divmod.com" (Some "bob"))
                (mkQ2QAddress "divmod.com" (Some "radix")) "q2q-example" 7 false,
              next_ref (run_ops example_ops two_connections_world))
    ∧ delayedCalls w1 !! next_ref (run_ops example_ops two_connections_world)
      = Some (mkDelayedCall
                (seconds (run_ops example_ops two_connections_world) + 120)%N
                (inboundConnections_pop
                   (connection_id (mkQ2QAddress "divmod.com" (Some "bob"))
                      (mkQ2QAddress "divmod.com" (Some "radix"))
                      (_lastConnID (service (run_ops example_ops two_connections_world)))))
                false false)
    ∧ ((seconds (run_ops example_ops two_connections_world) + 120)%N,
       next_ref (run_ops example_ops two_connections_world)) ∈ pendingTimedCalls w1
    ∧ ∀ ops : list Op,
        let id := connection_id (mkQ2QAddress "divmod.com" (Some "bob"))
                    (mkQ2QAddress "divmod.com" (Some "radix"))
                    (_lastConnID (service (run_ops example_ops two_connections_world))) in
        let call := next_ref (run_ops example_ops two_connections_world) in
        let T := (seconds (run_ops example_ops two_connections_world) + 120)%N in
        let w2 := run_ops ops w1 in
        inboundConnections (service (run_delayed call w2).2) !! id = None
        ∧ (∀ x, inboundConnections (service w2) !! id = Some x →
             x = (mkConnectionWaiter (mkQ2QAddress "divmod.com" (Some "bob"))
                    (mkQ2QAddress "divmod.com" (Some "radix")) "q2q-example" 7 false, call)
             ∧ (seconds w2 < T)%N
             ∧ dc_called (delayedCalls w2 !!! call) = false
             ∧ ∀ self, ∃ tpt w3,
                 command_VIRTUAL self id w2 = (Ok tpt, w3)
                 ∧ inboundConnections (service w3) !! id = None
                 ∧ dc_cancelled (delayedCalls w3 !!! call) = true
                 ∧ run_delayed call w3 = (Ok (), w3))
        ∧ (dc_called (delayedCalls w2 !!! call) = true ∨ (T ≤ seconds w2)%N →
             inboundConnections (service w2) !! id = None
             ∧ ∀ self, command_VIRTUAL self id w2 = (Raise KeyError, w2)).
Proof.
  exact (reservation_expires example_ops two_connections_world
           (mkQ2QAddress "divmod.com" (Some "radix"))
           (mkQ2QAddress "divmod.com" (Some "bob")) "q2q-example" 7 false
           no_reservations_two_connections).
Defined.

(** The reservation of [example_ops], made at time 0 under the id
    [bob@divmod.com->radix@divmod.com:1] with delayed call 0: at 119
    seconds it is still there and the timer has not run; at 120 seconds
    the timer has run, the table is empty and VIRTUAL fails. *)
Example reservation_example :
  let reserve :=
    OpMapListener (mkQ2QAddress "divmod.com" (Some "radix"))
      (mkQ2QAddress "divmod.com" (Some "bob")) "q2q-example" 7 false in
  let id := "bob@divmod.com->radix@divmod.com:1" in
  let w1 := run_ops [reserve] two_connections_world in
  let early := run_ops [OpAdvance 119] w1 in
  let late := run_ops [OpAdvance 119; OpAdvance 1] w1 in
  mapListener (mkQ2QAddress "divmod.com" (Some "radix"))
    (mkQ2QAddress "divmod.com" (Some "bob")) "q2q-example" 7 false two_connections_world
  = (Ok (120%N, id), w1)
  ∧ (map_to_list (inboundConnections (service early))).*1 = [id]
  ∧ dc_called (delayedCalls early !!! 0) = false
  ∧ (command_VIRTUAL 0 id early).1 = Ok 1
  ∧ dc_cancelled (delayedCalls (command_VIRTUAL 0 id early).2 !!! 0) = true
  ∧ inboundConnections (service (command_VIRTUAL 0 id early).2) = ∅
  ∧ dc_called (delayedCalls late !!! 0) = true
  ∧ inboundConnections (service late) = ∅
  ∧ pendingTimedCalls late = []
  ∧ command_VIRTUAL 0 id late = (Raise KeyError, late).
Proof. vm_compute. repeat split. Qed.

(** ** SIGN *)

(** *** [str.split] *)

Lemma split_from_not_nil sep s : ∀ cur, split_from sep cur s ≠ [].
Proof. induction s as [|c s IH]; intros cur; simpl; [done |]. by case_match. Qed.

Lemma split_from_one sep s : ∀ cur b,
  split_from sep cur s = [b] ↔ contains sep s = false ∧ b = cur +:+ s.
Proof.
  induction s as [|c s IH]; intros cur b; simpl.
  - rewrite append_empty_r. split; [by intros [= <-] | by intros [_ ->]].
  - destruct (Ascii.eqb c sep) eqn:Hc; simpl.
    + split; [| by intros [? _]]. intros [= _ Hs]. by apply split_from_not_nil in Hs.
    + rewrite IH, append_assoc', append_cons, append_nil_l. done.
Qed.

Lemma split_from_two sep s : ∀ cur a b,
  split_from sep cur s = [a; b] ↔
  ∃ u, a = cur +:+ u ∧ s = u +:+ String sep b
       ∧ contains sep u = false ∧ contains sep b = false.
Proof.
  induction s as [|c s IH]; intros cur a b; simpl.
  - split; [done |]. intros (u & _ & Hs & _). by destruct u.
  - destruct (Ascii.eqb c sep) eqn:Hc.
    + apply Ascii.eqb_eq in Hc as ->. split.
      * intros [= <- Hs]. apply split_from_one in Hs as [Hb Hs].
        rewrite append_nil_l in Hs. subst b.
        exists "". by rewrite append_empty_r, append_nil_l.
      * intros (u & -> & Hs & Hu & Hb). destruct u as [|c u].
        -- rewrite append_nil_l in Hs. injection Hs as ->.
           rewrite append_empty_r. f_equal. apply split_from_one.
           by rewrite append_nil_l.
        -- rewrite append_cons in Hs. injection Hs as <- _.
           simpl in Hu. by rewrite Ascii.eqb_refl in Hu.
    + rewrite IH. split.
      * intros (u & -> & -> & Hu & Hb). exists (String c u).
        rewrite append_assoc', !append_cons, append_nil_l. simpl. by rewrite Hc.
      * intros (u & -> & Hs & Hu & Hb). destruct u as [|c' u].
        -- rewrite append_nil_l in Hs. injection Hs as -> _.
           by rewrite Ascii.eqb_refl in Hc.
        -- rewrite append_cons in Hs. injection Hs as <- ->.
           simpl in Hu. rewrite Hc in Hu. exists u.
           by rewrite append_assoc', !append_cons, append_nil_l.
Qed.

(** A string splits at [@] into exactly a user and a domain when it is
    [user@domain] with no other at-sign. *)
Lemma split_user_domain cn u d :
  split at_sign cn = [u; d] ↔
  cn = u +:+ "@" +:+ d ∧ contains at_sign u = false ∧ contains at_sign d = false.
Proof.
  unfold split. rewrite split_from_two. split.
  - intros (u' & -> & -> & Hu & Hd). by rewrite append_nil_l.
  - intros (-> & Hu & Hd). exists u. by rewrite append_nil_l.
Qed.

(** *** The subject's fields *)

Lemma keys_CN (subj : gmap string string) :
  (map_to_list subj).*1 = ["CN"] ↔ ∃ cn, subj = {["CN" := cn]}.
Proof.
  split.
  - intros Hkeys. destruct (map_to_list subj) as [|[k v] [|? ?]] eqn:Hl; try done.
    simpl in Hkeys. injection Hkeys as ->. exists v.
    rewrite <- (list_to_map_to_list subj), Hl. simpl. by rewrite insert_empty.
  - intros [cn ->]. by rewrite map_to_list_singleton.
Qed.

Section Signing.

Variable signRequestObject : Certificate → CertificateRequest → N → Certificate.
Variable genSerial : string → N.

Local Abbreviation SIGN := (command_SIGN signRequestObject genSerial).

(** SIGN never changes the service. *)
Lemma command_SIGN_world self req password w : (SIGN self req password w).2 = w.
Proof.
  unfold command_SIGN. case_decide; [done |].
  destruct (getSubject req !! "CN") as [cn|] eqn:Hcn;
    [rewrite (bind_getitem_Some _ _ _ _ _ Hcn)
    | by rewrite (bind_getitem_None _ _ _ _ Hcn)].
  destruct (split at_sign cn) as [|u [|d [|? ?]]]; try done.
  rewrite bind_get_service.
  destruct (getPrivateCertificate _ d) as [ourCert|e];
    [rewrite bind_lift_Ok | by rewrite bind_lift_Raise].
  by destruct (checkPrivateSecret _ u d password) as [b|e];
    [rewrite bind_lift_Ok | rewrite bind_lift_Raise].
Qed.

(** [BadCertificateRequest] is raised exactly when the subject's fields
    are not just [CN]. *)
Lemma command_SIGN_BadCertificateRequest self req password w :
  (SIGN self req password w).1 = Raise BadCertificateRequest
  ↔ (map_to_list (getSubject req)).*1 ≠ ["CN"].
Proof.
  unfold command_SIGN. case_decide as Hkeys; [done |].
  split; [| done]. intros Hrun. exfalso.
  apply keys_CN in Hkeys as [cn Hsubj].
  rewrite Hsubj in Hrun.
  rewrite (bind_getitem_Some _ _ _ _ _ (lookup_singleton_eq _ _)) in Hrun.
  destruct (split at_sign cn) as [|u [|d [|? ?]]]; try done.
  rewrite bind_get_service in Hrun.
  destruct (getPrivateCertificate _ d) as [ourCert|e] eqn:Hcert;
    [rewrite bind_lift_Ok in Hrun | rewrite bind_lift_Raise in Hrun].
  - unfold checkPrivateSecret, checkUser in Hrun. by case_decide.
  - unfold getPrivateCertificate in Hcert. by case_match; simplify_eq.
Qed.

(** A subject that is just a [CN] whose value is not [user@domain] makes
    the unpacking of the split raise [ValueError]. *)
Lemma command_SIGN_ValueError self req password w cn :
  getSubject req = {["CN" := cn]} →
  (∀ u d, ¬ (cn = u +:+ "@" +:+ d
             ∧ contains at_sign u = false ∧ contains at_sign d = false)) →
  SIGN self req password w = (Raise ValueError, w).
Proof.
  intros Hsubj Hform. unfold command_SIGN. rewrite Hsubj.
  rewrite map_to_list_singleton. simpl.
  rewrite (bind_getitem_Some _ _ _ _ _ (lookup_singleton_eq _ _)).
  destruct (split at_sign cn) as [|u [|d [|? ?]]] eqn:Hsplit; try done.
  apply split_user_domain in Hsplit. by destruct (Hform u d).
Qed.

(** With a subject of the right form, a triple that the secret check
    rejects gives [KeyError], which the command reports as [NoSuchUser]. *)
Lemma command_SIGN_rejected self req password w u d :
  getSubject req = {["CN" := u +:+ "@" +:+ d]} →
  contains at_sign u = false → contains at_sign d = false →
  checkPrivateSecret (service w) u d password = Raise KeyError →
  SIGN self req password w = (Raise KeyError, w)
  ∧ Sign_errors KeyError = Some "NoSuchUser".
Proof.
  intros Hsubj Hu Hd Hcheck. split; [| done].
  unfold command_SIGN. rewrite Hsubj.
  rewrite map_to_list_singleton. simpl.
  rewrite (bind_getitem_Some _ _ _ _ _ (lookup_singleton_eq _ _)).
  rewrite (proj2 (split_user_domain _ u d)) by done.
  rewrite bind_get_service.
  destruct (getPrivateCertificate _ d) as [ourCert|e] eqn:Hcert.
  - by rewrite bind_lift_Ok, Hcheck, bind_lift_Raise.
  - rewrite bind_lift_Raise.
    unfold getPrivateCertificate in Hcert. case_match; by simplify_eq.
Qed.

(** With a subject of the right form, an accepted triple and a private
    certificate for the domain, the request is signed by that
    certificate. *)
Lemma command_SIGN_signs self req password w u d ourCert :
  getSubject req = {["CN" := u +:+ "@" +:+ d]} →
  contains at_sign u = false → contains at_sign d = false →
  localStore (certificateStorage (service w)) !! d = Some ourCert →
  users (certificateStorage (service w)) !! (d, u) = Some password →
  SIGN self req password w
  = (Ok (signRequestObject ourCert req (genSerial d)), w).
Proof.
  intros Hsubj Hu Hd Hcert Huser.
  unfold command_SIGN. rewrite Hsubj.
  rewrite map_to_list_singleton. simpl.
  rewrite (bind_getitem_Some _ _ _ _ _ (lookup_singleton_eq _ _)).
  rewrite (proj2 (split_user_domain _ u d)) by done.
  rewrite bind_get_service. unfold getPrivateCertificate. rewrite Hcert, bind_lift_Ok.
  unfold checkPrivateSecret, checkUser. rewrite Huser.
  case_decide; [done |]. by rewrite bind_lift_Ok.
Qed.

(** An accepted triple for a domain without private certificate is
    answered [KeyError] as well: the certificate is looked up first. *)
Lemma command_SIGN_no_private_certificate self req password w u d :
  getSubject req = {["CN" := u +:+ "@" +:+ d]} →
  contains at_sign u = false → contains at_sign d = false →
  localStore (certificateStorage (service w)) !! d = None →
  SIGN self req password w = (Raise KeyError, w).
Proof.
  intros Hsubj Hu Hd Hcert.
  unfold command_SIGN. rewrite Hsubj.
  rewrite map_to_list_singleton. simpl.
  rewrite (bind_getitem_Some _ _ _ _ _ (lookup_singleton_eq _ _)).
  rewrite (proj2 (split_user_domain _ u d)) by done.
  rewrite bind_get_service. unfold getPrivateCertificate. by rewrite Hcert, bind_lift_Raise.
Qed.

End Signing.

(** C8.  A request whose subject is exactly a [CN] field, but whose value
    is not of the form [user@domain], does not fail with
    [BadCertificateRequest]: for the common name [bob], and for
    [bob@divmod.com@example.com], the unpacking of the split raises
    [ValueError], an exception for which the [Sign] command declares no
    error, whatever the password and whoever signs.  The subject with no
    [CN] at all, here an [O] field, is refused as the claim says. *)
Theorem command_SIGN_common_name_without_domain
  (signRequestObject : Certificate → CertificateRequest → N → Certificate)
  (genSerial : string → N) (password : string) :
  command_SIGN signRequestObject genSerial 0
    (mkCertificateRequest {["CN" := "bob"]}) password divmod_world
  = (Raise ValueError, divmod_world)
  ∧ command_SIGN signRequestObject genSerial 0
      (mkCertificateRequest {["CN" := "bob@divmod.com@example.com"]}) password divmod_world
    = (Raise ValueError, divmod_world)
  ∧ Sign_errors ValueError = None
  ∧ command_SIGN signRequestObject genSerial 0
      (mkCertificateRequest {["O" := "divmod.com"]}) password divmod_world
    = (Raise BadCertificateRequest, divmod_world).
Proof. by vm_compute. Qed.

(** A store that knows [bob@divmod.com] with his secret and holds the
    private certificate of [divmod.com]: the right secret gets the request
    signed by that certificate, a wrong one gets [KeyError]. *)
Example command_SIGN_example
  (signRequestObject : Certificate → CertificateRequest → N → Certificate)
  (genSerial : string → N) :
  let ourCert := mkCertificate "divmod.com" "divmod.com" in
  let store :=
    mkDefaultCertificateStore ∅ {["divmod.com" := ourCert]}
      {[("divmod.com", "bob") := "secret"]} in
  let w := mkWorld (mkQ2QService store ∅ ∅ 1) ∅ ∅ 0 ∅ [] 0 (λ _, None) [] in
  let req := mkCertificateRequest {["CN" := "bob@divmod.com"]} in
  command_SIGN signRequestObject genSerial 0 req "secret" w
  = (Ok (signRequestObject ourCert req (genSerial "divmod.com")), w)
  ∧ command_SIGN signRequestObject genSerial 0 req "guess" w = (Raise KeyError, w).
Proof. by vm_compute. Qed.

(** * Part III: more properties of the module *)

(** ** Addresses: printing what was parsed, comparing, hashing *)

Lemma str_partition_startswith s a b :
  str_partition at_sign s = Some (a, b) →
  (a = "" ↔ startswith s at_sign = true).
Proof.
  destruct s as [|c s]; simpl; [done |].
  destruct (Ascii.eqb c at_sign) eqn:Hc.
  - intros [= <- <-]. done.
  - destruct (str_partition at_sign s) as [[a' b']|]; [| done].
    intros [= <- <-]. done.
Qed.

(** X1.  Printing the address parsed from a string gives the string back
    exactly when the string does not begin with an at-sign: a leading
    at-sign parses to the empty resource, which [__str__] leaves out. *)
Theorem str_fromString_roundtrip (s : string) :
  Q2QAddress_str <$> fromString s = Some s ↔ startswith s at_sign = false.
Proof.
  unfold fromString, split_max1.
  destruct (str_partition at_sign s) as [[a b]|] eqn:Hp.
  - pose proof (str_partition_startswith _ _ _ Hp) as Hstart.
    apply str_partition_Some in Hp as (Hs & _). simpl.
    unfold Q2QAddress_str; simpl. destruct a as [|c a].
    + assert (Ht : startswith s at_sign = true) by by apply Hstart.
      rewrite Ht. split; [| done]. intros [= Heq]. rewrite append_nil_l in Heq.
      subst s. rewrite append_nil_l in Heq.
      assert (Hlen : String.length b = String.length (String at_sign b)) by by rewrite <- Heq.
      simpl in Hlen. lia.
    + split; [| intros _; by rewrite Hs, append_assoc'].
      intros _. destruct (startswith s at_sign) eqn:Ht; [| done].
      discriminate (proj2 Hstart eq_refl).
  - simpl. unfold Q2QAddress_str; simpl. rewrite append_nil_l.
    split; [| done]. intros _.
    destruct s as [|c s]; simpl in *; [done |].
    destruct (Ascii.eqb c at_sign); done.
Qed.

Lemma string_compare_refl (s : string) : String.compare s s = Eq.
Proof.
  pose proof (String.compare_antisym s s) as H.
  by destruct (String.compare s s).
Qed.

Lemma cmp_resource_eq r1 r2 : cmp_resource r1 r2 = Eq ↔ r1 = r2.
Proof.
  destruct r1 as [a|], r2 as [b|]; simpl; try done.
  split.
  - by intros ->%String.compare_eq_iff.
  - intros [= ->]. apply string_compare_refl.
Qed.

Lemma cmp_resource_antisym r1 r2 : cmp_resource r2 r1 = CompOpp (cmp_resource r1 r2).
Proof. destruct r1, r2; simpl; try done. apply String.compare_antisym. Qed.

Lemma Q2QAddress_cmp_eq a b : Q2QAddress_cmp a b = Eq ↔ a = b.
Proof.
  unfold Q2QAddress_cmp. destruct a as [d1 r1], b as [d2 r2]; simpl.
  destruct (String.compare d1 d2) eqn:Hd.
  - apply String.compare_eq_iff in Hd as ->. rewrite cmp_resource_eq.
    split; [by intros -> | by intros [= ->]].
  - split; [done |]. intros [= -> _]. by rewrite string_compare_refl in Hd.
  - split; [done |]. intros [= -> _]. by rewrite string_compare_refl in Hd.
Qed.

(** X2.  [__cmp__] answers 0 exactly for two addresses with the same
    domain and the same resource, an absent resource being different from
    the empty one; swapping the arguments flips the answer; and two
    addresses that compare equal have the same [__hash__], whatever the
    interpreter's hash of strings is, so that addresses can key a
    dictionary.  The hash alone does not tell addresses apart:
    [Q2QAddress("divmod.com")] and [Q2QAddress("divmod.com", "")] print
    and hash alike and compare different. *)
Theorem Q2QAddress_cmp_hash :
  (∀ a b, Q2QAddress_cmp a b = Eq ↔ a = b)
  ∧ (∀ a b, Q2QAddress_cmp b a = CompOpp (Q2QAddress_cmp a b))
  ∧ (∀ hash a b, Q2QAddress_cmp a b = Eq → Q2QAddress_hash hash a = Q2QAddress_hash hash b)
  ∧ (∀ hash,
       Q2QAddress_hash hash (mkQ2QAddress "divmod.com" None)
       = Q2QAddress_hash hash (mkQ2QAddress "divmod.com" (Some ""))
       ∧ Q2QAddress_cmp (mkQ2QAddress "divmod.com" None)
           (mkQ2QAddress "divmod.com" (Some "")) = Lt).
Proof.
  split; [apply Q2QAddress_cmp_eq |]. split; [| split].
  - intros a b. unfold Q2QAddress_cmp.
    rewrite (String.compare_antisym (domain a) (domain b)).
    destruct (String.compare (domain b) (domain a)); simpl; try done.
    apply cmp_resource_antisym.
  - intros hash a b Heq. apply Q2QAddress_cmp_eq in Heq. by subst.
  - intros hash. split; reflexivity.
Qed.

(** ** Channels that are gone *)

Lemma ops_ok_app ops1 : ∀ w ops2,
  ops_ok w ops1 → ops_ok (run_ops ops1 w) ops2 → ops_ok w (ops1 ++ ops2).
Proof.
  induction ops1 as [|op ops1 IH]; intros w ops2 H1 H2; [done |].
  destruct H1 as [Hop H1]. simpl. split; [done |]. by apply IH.
Qed.

Lemma run_ops_app ops1 ops2 w : run_ops (ops1 ++ ops2) w = run_ops ops2 (run_ops ops1 w).
Proof. unfold run_ops. apply foldl_app. Qed.

Lemma juice_CLOSE_unknown self box id w :
  box !! "id" = Some id →
  connections (q2qs w !!! self) !! id = None →
  juice_CLOSE self box w = (Raise KeyError, w).
Proof.
  intros Hid Hnone. unfold juice_CLOSE.
  by rewrite bind_get_q2q, (bind_getitem_Some _ _ _ _ _ Hid),
    (bind_getitem_None _ _ _ _ Hnone).
Qed.

Lemma juice_WRITE_unknown self box id w :
  box !! "id" = Some id →
  connections (q2qs w !!! self) !! id = None →
  juice_WRITE self box w = (Raise KeyError, w).
Proof.
  intros Hid Hnone. unfold juice_WRITE.
  by rewrite bind_get_q2q, (bind_getitem_Some _ _ _ _ _ Hid),
    (bind_getitem_None _ _ _ _ Hnone).
Qed.

(** X3.  In every world the service can reach while ids are unique per
    connection, a channel on which [connectionLost] has run stays gone:
    a further [connectionLost] on it raises [KeyError] at the [del],
    before its protocol or factory is told anything, and a CLOSE or a WRITE
    frame that still arrives for its id raises [KeyError]; none of them
    changes the service, the connections or the channels. *)
Theorem closed_channel_raises ops w0 v t :
  just_started w0 → ops_ok w0 ops →
  let w := run_ops ops w0 in
  transports w !! v = Some t → lost w v →
  (∀ reason,
     VirtualTransport_connectionLost v reason w
     = (Raise KeyError, logged [EvConnectionLost v reason] w))
  ∧ (∀ box, box !! "id" = Some (vt_id t) →
       juice_CLOSE (vt_q2q t) box w = (Raise KeyError, w)
       ∧ juice_WRITE (vt_q2q t) box w = (Raise KeyError, w)).
Proof.
  intros [Hnt Hnl] Hok w Ht Hlost.
  destruct (vt_inv_no_transports _ Hnt) as [_ Hinv0].
  pose proof (vt_inv_run_ops ops w0 Hok Hinv0) as Hinv. fold w in Hinv.
  pose proof (vt_inv_dead w v t Hinv Ht Hlost) as Hnone.
  split.
  - intros reason. rewrite VirtualTransport_connectionLost_run. cbv zeta.
    by rewrite (lookup_total_correct _ _ _ Ht), Hnone.
  - intros box Hid. split.
    + by apply (juice_CLOSE_unknown _ _ (vt_id t)).
    + by apply (juice_WRITE_unknown _ _ (vt_id t)).
Qed.

Lemma closed_channel_raises_witness :
  let w := run_ops (example_ops
                      ++ [OpClose 0 (write_box "bob@divmod.com->radix@divmod.com:1" "")])
             two_connections_world in
  ∃ t, transports w !! 1 = Some t
       ∧ (∀ reason,
            VirtualTransport_connectionLost 1 reason w
            = (Raise KeyError, logged [EvConnectionLost 1 reason] w))
       ∧ (∀ box, box !! "id" = Some (vt_id t) →
            juice_CLOSE (vt_q2q t) box w = (Raise KeyError, w)
            ∧ juice_WRITE (vt_q2q t) box w = (Raise KeyError, w)).
Proof.
  intros w.
  assert (Hsome : is_Some (transports w !! 1)) by (vm_compute; eauto).
  destruct (transports w !! 1) as [t|] eqn:Ht; [| by destruct Hsome].
  exists t. split; [reflexivity |].
  apply (closed_channel_raises
           (example_ops ++ [OpClose 0 (write_box "bob@divmod.com->radix@divmod.com:1" "")])
           two_connections_world 1 t
           (conj no_transports_two_connections no_listeners_two_connections)).
  - apply ops_ok_app; [apply ops_ok_example | by split].
  - exact Ht.
  - exists CONNECTION_DONE. apply list_elem_of_In. vm_compute.
    repeat (first [left; reflexivity | right]).
Defined.

(** ** LISTEN: what gets registered, and by whom *)

(** LISTEN as far as its loop. *)
Lemma command_LISTEN_loop self protocols From description w r theirCert :
  verifyCertificateAllowed (q2qs w !!! self) From From = Ok r →
  transport_peerCertificate (q2qs w !!! self) = Some theirCert →
  command_LISTEN self protocols From description w =
    match for_each protocols (λ protocolName,
      if startswith protocolName "." then raise VerifyError
      else
        let key := (From, protocolName) in
        let value := (self, theirCert, description) in
        update_q2q self (with_listeningClient (λ l, l ++ [(key, value)])) ;;
        update_service
          (with_listeningClients (λ d, <[key := default [] (d !! key) ++ [value]]> d))) w
    with
    | (Ok _, w') => (Ok (), w')
    | (Raise e, w') => (Raise e, w')
    end.
Proof.
  intros Hverify Hcert. unfold command_LISTEN.
  rewrite bind_get_q2q, bind_run. unfold lift at 1. rewrite Hverify.
  rewrite bind_run. unfold lift at 1, peerFromTransport. rewrite Hcert.
  rewrite bind_run. reflexivity.
Qed.

Lemma command_LISTEN_ok self protocols From description w r theirCert :
  verifyCertificateAllowed (q2qs w !!! self) From From = Ok r →
  transport_peerCertificate (q2qs w !!! self) = Some theirCert →
  Forall (λ pn, startswith pn "." = false) protocols →
  command_LISTEN self protocols From description w
  = (Ok (), foldl (register_listener self From theirCert description) w protocols).
Proof.
  intros Hverify Hcert Hnames.
  rewrite (command_LISTEN_loop _ _ _ _ _ _ _ Hverify Hcert).
  by rewrite (listen_loop_ok self From theirCert description protocols w Hnames).
Qed.

Lemma command_LISTEN_refused self protocols From description w e :
  verifyCertificateAllowed (q2qs w !!! self) From From = Raise e →
  command_LISTEN self protocols From description w = (Raise e, w).
Proof.
  intros Hverify. unfold command_LISTEN.
  rewrite bind_get_q2q, bind_run. unfold lift at 1. by rewrite Hverify.
Qed.

Section Registering.

Variables (self : Ref) (From : Q2QAddress) (theirCert : Certificate) (description : string).

Local Abbreviation reg := (register_listener self From theirCert description).

Lemma registry_register w pn key :
  registry (reg w pn) key
  = registry w key
    ++ (if decide ((From, pn) = key) then [(self, theirCert, description)] else []).
Proof.
  unfold register_listener, registry. simpl.
  destruct (decide ((From, pn) = key)) as [<-|Hk].
  - by rewrite lookup_insert_eq.
  - rewrite lookup_insert_ne by done. by rewrite app_nil_r.
Qed.

Lemma registry_foldl_register protocols : ∀ w key,
  registry (foldl reg w protocols) key
  = registry w key
    ++ ((λ _, (self, theirCert, description)) <$> filter (λ pn, (From, pn) = key) protocols).
Proof.
  induction protocols as [|pn protocols IH]; intros w key.
  - simpl. by rewrite app_nil_r.
  - simpl foldl. rewrite IH, registry_register.
    destruct (decide ((From, pn) = key)) as [Hk|Hk].
    + rewrite filter_cons_True by done. by rewrite <- app_assoc.
    + rewrite filter_cons_False by done. by rewrite app_nil_r.
Qed.

Lemma own_foldl_register protocols : ∀ w,
  listeningClient (q2qs (foldl reg w protocols) !!! self)
  = listeningClient (q2qs w !!! self)
    ++ ((λ pn, ((From, pn), (self, theirCert, description))) <$> protocols).
Proof.
  induction protocols as [|pn protocols IH]; intros w.
  - simpl. by rewrite app_nil_r.
  - simpl foldl. rewrite IH. unfold register_listener. simpl.
    rewrite lookup_total_insert_eq. simpl. by rewrite <- app_assoc.
Qed.

Lemma others_foldl_register protocols q : ∀ w,
  q ≠ self →
  listeningClient (q2qs (foldl reg w protocols) !!! q) = listeningClient (q2qs w !!! q).
Proof.
  induction protocols as [|pn protocols IH]; intros w Hq; [done |].
  simpl foldl. rewrite IH by done. unfold register_listener. simpl.
  by rewrite lookup_total_insert_ne.
Qed.

End Registering.

(** X4.  A LISTEN that passes verification on a connection with a peer
    certificate, for names none of which starts with a dot, returns
    normally.  Under every key the registry then holds what it held,
    followed by one new entry (this connection, the peer certificate, the
    description) for each time the key's name occurs in the request, so a
    name given twice is registered twice; the connection's own list grows
    by the same pairs in request order; other connections' lists do not
    change. *)
Theorem command_LISTEN_registers self protocols From description w theirCert :
  is_Ok (verifyCertificateAllowed (q2qs w !!! self) From From) = true →
  transport_peerCertificate (q2qs w !!! self) = Some theirCert →
  Forall (λ pn, startswith pn "." = false) protocols →
  ∃ w',
    command_LISTEN self protocols From description w = (Ok (), w')
    ∧ (∀ key, registry w' key
              = registry w key
                ++ ((λ _, (self, theirCert, description))
                      <$> filter (λ pn, (From, pn) = key) protocols))
    ∧ listeningClient (q2qs w' !!! self)
      = listeningClient (q2qs w !!! self)
        ++ ((λ pn, ((From, pn), (self, theirCert, description))) <$> protocols)
    ∧ (∀ q, q ≠ self → listeningClient (q2qs w' !!! q) = listeningClient (q2qs w !!! q)).
Proof.
  intros Hverify Hcert Hnames.
  destruct (verifyCertificateAllowed (q2qs w !!! self) From From) as [r|e] eqn:Hv; [| done].
  eexists. split; [by apply (command_LISTEN_ok _ _ _ _ _ r theirCert) |].
  split; [| split].
  - intros key. apply registry_foldl_register.
  - apply own_foldl_register.
  - intros q Hq. by apply others_foldl_register.
Qed.

Lemma command_LISTEN_registers_witness :
  ∃ w',
    command_LISTEN 0 ["q2q-example"; "q2q-example"] (mkQ2QAddress "divmod.com" (Some "bob"))
      "twice" divmod_world = (Ok (), w')
    ∧ (∀ key, registry w' key
              = registry divmod_world key
                ++ ((λ _, (0, mkCertificate "divmod.com" "bob@divmod.com", "twice"))
                      <$> filter (λ pn, (mkQ2QAddress "divmod.com" (Some "bob"), pn) = key)
                            ["q2q-example"; "q2q-example"]))
    ∧ listeningClient (q2qs w' !!! 0)
      = listeningClient (q2qs divmod_world !!! 0)
        ++ ((λ pn, ((mkQ2QAddress "divmod.com" (Some "bob"), pn),
                    (0, mkCertificate "divmod.com" "bob@divmod.com", "twice")))
              <$> ["q2q-example"; "q2q-example"])
    ∧ (∀ q, q ≠ 0 → listeningClient (q2qs w' !!! q)
                    = listeningClient (q2qs divmod_world !!! q)).
Proof.
  apply (command_LISTEN_registers 0 ["q2q-example"; "q2q-example"]
           (mkQ2QAddress "divmod.com" (Some "bob")) "twice" divmod_world
           (mkCertificate "divmod.com" "bob@divmod.com")).
  - reflexivity.
  - reflexivity.
  - repeat constructor.
Defined.

(** X5.  In every world the service can reach, a LISTEN as above on a
    connection that had nothing registered, followed by the loss of that
    connection, leaves under every key the registry list that was there
    before the LISTEN, and the connection's own list empty: the loss
    undoes the LISTEN, duplicates included. *)
Theorem command_LISTEN_undone_by_loss ops w0 self protocols From description theirCert reason :
  no_listeners w0 →
  let w := run_ops ops w0 in
  listeningClient (q2qs w !!! self) = [] →
  is_Ok (verifyCertificateAllowed (q2qs w !!! self) From From) = true →
  transport_peerCertificate (q2qs w !!! self) = Some theirCert →
  Forall (λ pn, startswith pn "." = false) protocols →
  ∃ w1 w2,
    command_LISTEN self protocols From description w = (Ok (), w1)
    ∧ Q2Q_connectionLost self reason w1 = (Ok (), w2)
    ∧ (∀ key, registry w2 key = registry w key)
    ∧ listeningClient (q2qs w2 !!! self) = [].
Proof.
  intros Hstart w Hown Hverify Hcert Hnames.
  pose proof (reg_inv_run_ops ops w0 (reg_inv_no_listeners _ Hstart)) as Hinv.
  fold w in Hinv.
  destruct (verifyCertificateAllowed (q2qs w !!! self) From From) as [r|e] eqn:Hv; [| done].
  pose proof (command_LISTEN_ok _ _ _ description _ r theirCert Hv Hcert Hnames) as Hrun.
  set (w1 := foldl (register_listener self From theirCert description) w protocols) in *.
  assert (Hinv1 : reg_inv w1) by by apply reg_inv_foldl_register.
  destruct (Q2Q_connectionLost_spec self reason w1 Hinv1)
    as (w2 & events & Hlost & _ & _ & _ & Hreg & Hempty & _).
  exists w1, w2. split; [done |]. split; [done |]. split; [| done].
  intros key. rewrite Hreg. unfold w1. rewrite registry_foldl_register.
  rewrite filter_app.
  rewrite (filter_all _ (registry w key)).
  - replace (filter (λ v, lv_listener v ≠ self) _) with (@nil (nat * Certificate * string));
      [by rewrite app_nil_r |].
    symmetry. induction (filter (λ pn, (From, pn) = key) protocols) as [|x l IH]; [done |].
    rewrite fmap_cons, filter_cons_False; [done |]. unfold lv_listener. simpl. tauto.
  - intros value Hin Hself.
    destruct (Hinv self) as [_ Hocc].
    specialize (Hocc key value Hself). rewrite Hown in Hocc.
    assert (Hzero : occurrences value (registry w key) = 0) by (by rewrite Hocc).
    by apply occurrences_zero in Hzero.
Qed.

Lemma command_LISTEN_undone_by_loss_witness :
  let w := run_ops [OpListen 1 ["q2q-example"]
                      (mkQ2QAddress "twistedmatrix.com" (Some "radix")) "at lab"]
             two_connections_world in
  ∃ w1 w2,
    command_LISTEN 0 ["q2q-example"; "q2q-example"]
      (mkQ2QAddress "divmod.com" (Some "bob")) "twice" w = (Ok (), w1)
    ∧ Q2Q_connectionLost 0 ConnectionLost w1 = (Ok (), w2)
    ∧ (∀ key, registry w2 key = registry w key)
    ∧ listeningClient (q2qs w2 !!! 0) = [].
Proof.
  apply (command_LISTEN_undone_by_loss
           [OpListen 1 ["q2q-example"] (mkQ2QAddress "twistedmatrix.com" (Some "radix"))
              "at lab"]
           two_connections_world 0 ["q2q-example"; "q2q-example"]
           (mkQ2QAddress "divmod.com" (Some "bob")) "twice"
           (mkCertificate "divmod.com" "bob@divmod.com") ConnectionLost).
  - apply no_listeners_two_connections.
  - reflexivity.
  - reflexivity.
  - reflexivity.
  - repeat constructor.
Defined.

(** X6.  On a connection that is not authorized, LISTEN for an address
    with a domain is refused with [VerifyError] before anything is
    registered.  For an address whose domain is the empty string (as
    [bob@] parses) the check lets it through: if the transport has a peer
    certificate and no name starts with a dot, the unauthorized peer's
    LISTEN succeeds and registers every name. *)
Theorem command_LISTEN_unauthorized self protocols From description w :
  authorized (q2qs w !!! self) = false →
  (domain From ≠ "" →
     command_LISTEN self protocols From description w = (Raise VerifyError, w))
  ∧ (domain From = "" →
     ∀ theirCert,
       transport_peerCertificate (q2qs w !!! self) = Some theirCert →
       Forall (λ pn, startswith pn "." = false) protocols →
       command_LISTEN self protocols From description w
       = (Ok (), foldl (register_listener self From theirCert description) w protocols)
       ∧ ∀ pn, pn ∈ protocols →
           (self, theirCert, description)
           ∈ registry (foldl (register_listener self From theirCert description) w protocols)
               (From, pn)).
Proof.
  intros Hauth. split.
  - intros Hdom. apply command_LISTEN_refused.
    unfold verifyCertificateAllowed. rewrite Hauth. simpl.
    by rewrite bool_decide_eq_false_2.
  - intros Hdom theirCert Hcert Hnames. split.
    + apply (command_LISTEN_ok _ _ _ _ _ (Some true)); [| done | done].
      unfold verifyCertificateAllowed. rewrite Hauth. simpl.
      by rewrite bool_decide_eq_true_2.
    + intros pn Hin.
      by destruct (registered_all self From theirCert description protocols w pn Hin).
Qed.

Lemma command_LISTEN_unauthorized_witness :
  let w := with_q2qs (λ _, {[ 0 := mkQ2Q false None None
                                     (Some (mkCertificate "example.com" "mallory@example.com"))
                                     ∅ [] [] ]}) initial_world in
  command_LISTEN 0 ["q2q-example"] (mkQ2QAddress "divmod.com" (Some "bob")) "x" w
  = (Raise VerifyError, w)
  ∧ command_LISTEN 0 ["q2q-example"] (mkQ2QAddress "" (Some "bob")) "x" w
    = (Ok (), foldl (register_listener 0 (mkQ2QAddress "" (Some "bob"))
                       (mkCertificate "example.com" "mallory@example.com") "x")
                w ["q2q-example"])
  ∧ fromString "bob@" = Some (mkQ2QAddress "" (Some "bob")).
Proof.
  intros w. split; [| split].
  - apply (proj1 (command_LISTEN_unauthorized 0 ["q2q-example"]
                    (mkQ2QAddress "divmod.com" (Some "bob")) "x" w eq_refl)).
    done.
  - apply (proj2 (command_LISTEN_unauthorized 0 ["q2q-example"]
                    (mkQ2QAddress "" (Some "bob")) "x" w eq_refl) eq_refl
             (mkCertificate "example.com" "mallory@example.com")).
    + reflexivity.
    + repeat constructor.
  - reflexivity.
Defined.

(** ** Reservation ids *)

Lemma unit_tail_snd {A} (m : M A) w : ((m ;; mret ()) w).2 = (m w).2.
Proof. rewrite bind_run. by destruct (m w) as [[a|e] w']. Qed.

(** What one operation does to the table of reservations: the counter
    does not go back, and an entry that is there afterwards was there
    before or was made from the counter's old value. *)
Lemma step_table w op :
  res_inv w →
  (_lastConnID (service w) ≤ _lastConnID (service (step w op)))%N
  ∧ ∀ id x, inboundConnections (service (step w op)) !! id = Some x →
      inboundConnections (service w) !! id = Some x
      ∨ ∃ From to, id = connection_id From to (_lastConnID (service w))
                   ∧ (_lastConnID (service w) < _lastConnID (service (step w op)))%N.
Proof.
  intros Hinv.
  assert (Hsame : ∀ w', res_same w w' →
    (_lastConnID (service w) ≤ _lastConnID (service w'))%N
    ∧ ∀ id x, inboundConnections (service w') !! id = Some x →
        inboundConnections (service w) !! id = Some x
        ∨ ∃ From to, id = connection_id From to (_lastConnID (service w))
                     ∧ (_lastConnID (service w) < _lastConnID (service w'))%N).
  { intros w' (Ht & Hl & _). rewrite Ht, Hl. split; [lia | by left]. }
  assert (Hshrunk : ∀ w', res_shrunk w w' →
    (_lastConnID (service w) ≤ _lastConnID (service w'))%N
    ∧ ∀ id x, inboundConnections (service w') !! id = Some x →
        inboundConnections (service w) !! id = Some x
        ∨ ∃ From to, id = connection_id From to (_lastConnID (service w))
                     ∧ (_lastConnID (service w) < _lastConnID (service w'))%N).
  { intros w' (Ha & _ & _ & _ & Hl & _). rewrite Hl. split; [lia |].
    intros id x Hx. left. by apply Ha. }
  unfold step. destruct op; simpl run_op; rewrite ?unit_tail_snd.
  - rewrite mapListener_run. cbv zeta. simpl. split; [lia |].
    intros id x Hx.
    destruct (decide (connection_id From to (_lastConnID (service w)) = id)) as [<-|Hne].
    + right. exists From, to. split; [done | lia].
    + left. by rewrite lookup_insert_ne in Hx.
  - destruct (advance_run dt w) as (w' & Hrun & Hran). rewrite Hrun. simpl.
    destruct Hran as (Ha & _ & _ & _ & _ & _ & _ & _ & Hi). simpl in *.
    rewrite Hi. split; [lia |]. intros id x Hx. left. by apply Ha.
  - destruct Hinv as [Hr _].
    destruct (inboundConnections (service w) !! id) as [[cwait call]|] eqn:Hid.
    + destruct (Hr _ _ _ Hid) as (c & Hc & H1 & H2 & _).
      rewrite (command_VIRTUAL_reserved _ _ _ _ _ _ Hid Hc H1 H2).
      rewrite VirtualTransport_init_run. simpl. split; [lia |].
      intros id' x Hx. left. by apply lookup_delete_Some in Hx as [_ Hx].
    + rewrite (command_VIRTUAL_unknown _ _ _ Hid). simpl. split; [lia | by left].
  - apply Hsame, VirtualTransport_init_res_same.
  - apply Hsame, startProtocol_res_same.
  - apply Hsame, juice_WRITE_res_same.
  - apply Hsame, juice_CLOSE_res_same.
  - apply Hsame, loseConnection_res_same.
  - apply Hsame, loseConnection_answered_res_same.
  - apply Hsame, Q2Q_connectionLost_res_same.
  - apply Hsame, command_LISTEN_res_same.
  - apply Hsame, notifyOnConnectionLost_res_same.
  - by apply Hshrunk, protocolAndAuthFromId_shrunk.
  - by apply Hshrunk, stopService_shrunk.
Qed.

(** Every id in the table was made from a counter value that is used up. *)
Lemma ids_used_step w op :
  res_inv w →
  (∀ id x, inboundConnections (service w) !! id = Some x →
     ∃ From to lcid, id = connection_id From to lcid ∧ (lcid < _lastConnID (service w))%N) →
  ∀ id x, inboundConnections (service (step w op)) !! id = Some x →
    ∃ From to lcid, id = connection_id From to lcid
                    ∧ (lcid < _lastConnID (service (step w op)))%N.
Proof.
  intros Hinv Hids id x Hx.
  destruct (step_table w op Hinv) as [Hle Htable].
  destruct (Htable id x Hx) as [Hold | (From & to & -> & Hlt)].
  - destruct (Hids id x Hold) as (From & to & lcid & -> & Hlt).
    exists From, to, lcid. split; [done | lia].
  - by exists From, to, (_lastConnID (service w)).
Qed.

Lemma ids_used_run_ops ops : ∀ w,
  res_inv w →
  (∀ id x, inboundConnections (service w) !! id = Some x →
     ∃ From to lcid, id = connection_id From to lcid ∧ (lcid < _lastConnID (service w))%N) →
  ∀ id x, inboundConnections (service (run_ops ops w)) !! id = Some x →
    ∃ From to lcid, id = connection_id From to lcid
                    ∧ (lcid < _lastConnID (service (run_ops ops w)))%N.
Proof.
  induction ops as [|op ops IH]; intros w Hinv Hids; [done |].
  simpl. apply IH; [by apply res_inv_step | by apply ids_used_step].
Qed.

(** An id made from a used-up counter value that is not in the table does
    not come back. *)
Lemma gone_run_ops ops From to lcid : ∀ w,
  res_inv w →
  (lcid < _lastConnID (service w))%N →
  inboundConnections (service w) !! connection_id From to lcid = None →
  (lcid < _lastConnID (service (run_ops ops w)))%N
  ∧ inboundConnections (service (run_ops ops w)) !! connection_id From to lcid = None.
Proof.
  induction ops as [|op ops IH]; intros w Hinv Hlt Hnone; [done |].
  simpl. destruct (step_table w op Hinv) as [Hle Htable].
  apply IH; [by apply res_inv_step | lia |].
  destruct (inboundConnections (service (step w op)) !! connection_id From to lcid)
    as [x|] eqn:Hx; [| done].
  destruct (Htable _ _ Hx) as [Hold | (From' & to' & Heq & _)]; [congruence |].
  apply connection_id_inj in Heq. lia.
Qed.

(** X7.  In every world the service can reach, the id that [mapListener]
    is about to hand out is not in the table of reservations, so a new
    reservation never replaces one that is waiting; [mapListener] returns
    that id with the expiry time, and every other reservation is as it
    was. *)
Theorem mapListener_fresh_id ops ws to From protocolName protocolFactory isClient :
  no_reservations ws →
  let w := run_ops ops ws in
  let id := connection_id From to (_lastConnID (service w)) in
  inboundConnections (service w) !! id = None
  ∧ ∃ w1,
      mapListener to From protocolName protocolFactory isClient w
      = (Ok ((seconds w + 120)%N, id), w1)
      ∧ ∀ id', id' ≠ id →
          inboundConnections (service w1) !! id' = inboundConnections (service w) !! id'.
Proof.
  intros Hnone w id.
  pose proof (res_inv_no_reservations _ Hnone) as Hinv0.
  split.
  - destruct (inboundConnections (service w) !! id) as [x|] eqn:Hx; [| done].
    destruct (ids_used_run_ops ops ws Hinv0) with (id := id) (x := x)
      as (From' & to' & lcid & Heq & Hlt); [| done |].
    + intros id' x'. destruct Hnone as [-> _]. by rewrite lookup_empty.
    + apply connection_id_inj in Heq. fold w in Hlt. lia.
  - eexists. split; [apply mapListener_run |].
    intros id' Hne. simpl. by rewrite lookup_insert_ne.
Qed.

Lemma mapListener_fresh_id_witness :
  let w := run_ops example_ops two_connections_world in
  let id := connection_id (mkQ2QAddress "divmod.com" (Some "bob"))
              (mkQ2QAddress "divmod.com" (Some "radix")) (_lastConnID (service w)) in
  inboundConnections (service w) !! id = None
  ∧ ∃ w1,
      mapListener (mkQ2QAddress "divmod.com" (Some "radix"))
        (mkQ2QAddress "divmod.com" (Some "bob")) "q2q-example" 7 false w
      = (Ok ((seconds w + 120)%N, id), w1)
      ∧ ∀ id', id' ≠ id →
          inboundConnections (service w1) !! id' = inboundConnections (service w) !! id'.
Proof.
  exact (mapListener_fresh_id example_ops two_connections_world
           (mkQ2QAddress "divmod.com" (Some "radix"))
           (mkQ2QAddress "divmod.com" (Some "bob")) "q2q-example" 7 false
           no_reservations_two_connections).
Defined.

(** X8.  In every world the service can reach, a reservation id made from
    a counter value already used that is not in the table (it was claimed,
    it expired, or the service stopped) is never in the table again,
    whatever happens next: a VIRTUAL command for it raises [KeyError] and a
    direct connection asking for it gets [None], neither changing
    anything. *)
Theorem reservation_gone_for_good ops0 ws From to lcid :
  no_reservations ws →
  let w := run_ops ops0 ws in
  let id := connection_id From to lcid in
  (lcid < _lastConnID (service w))%N →
  inboundConnections (service w) !! id = None →
  ∀ ops,
    let w' := run_ops ops w in
    inboundConnections (service w') !! id = None
    ∧ (∀ self, command_VIRTUAL self id w' = (Raise KeyError, w'))
    ∧ (∀ tpt, protocolAndAuthFromId id tpt w' = (Ok None, w')).
Proof.
  intros Hnone w id Hlt Hgone ops w'.
  pose proof (res_inv_run_ops ops0 ws (res_inv_no_reservations _ Hnone)) as Hinv.
  fold w in Hinv.
  destruct (gone_run_ops ops From to lcid w Hinv Hlt Hgone) as [_ Hgone'].
  split; [done |]. split.
  - intros self. by apply command_VIRTUAL_unknown.
  - intros tpt. by apply protocolAndAuthFromId_unknown.
Qed.

Lemma reservation_gone_for_good_witness :
  let w := run_ops example_ops two_connections_world in
  let id := connection_id (mkQ2QAddress "divmod.com" (Some "bob"))
              (mkQ2QAddress "divmod.com" (Some "radix")) 1 in
  let w' := run_ops [OpMapListener (mkQ2QAddress "divmod.com" (Some "radix"))
                       (mkQ2QAddress "divmod.com" (Some "bob")) "q2q-example" 7 false;
                     OpAdvance 60] w in
  inboundConnections (service w') !! id = None
  ∧ (∀ self, command_VIRTUAL self id w' = (Raise KeyError, w'))
  ∧ (∀ tpt, protocolAndAuthFromId id tpt w' = (Ok None, w')).
Proof.
  apply (reservation_gone_for_good example_ops two_connections_world
           (mkQ2QAddress "divmod.com" (Some "bob"))
           (mkQ2QAddress "divmod.com" (Some "radix")) 1
           no_reservations_two_connections).
  - vm_compute. reflexivity.
  - vm_compute. reflexivity.
Defined.

(** ** Direct connections and the service stopping *)

Lemma run_delayed_cancelled call w :
  dc_cancelled (delayedCalls w !!! call) = true → run_delayed call w = (Ok (), w).
Proof. intros Hc. rewrite run_delayed_run. cbv zeta. by rewrite Hc. Qed.

(** X9.  In every world the service can reach, a direct connection that
    names a reserved id takes the reservation out of the table before the
    waiting factory is asked for a protocol.  If the factory builds one,
    the answer is the protocol with the reservation's two addresses, the
    expiry timer is cancelled (its coming due does nothing) and a VIRTUAL
    for the id now raises [KeyError].  If the factory raises, the
    exception comes out, the reservation is gone all the same, and the
    timer is left as it was, neither cancelled nor run. *)
Theorem protocolAndAuthFromId_claims ops ws id tpt cwait call :
  no_reservations ws →
  let w := run_ops ops ws in
  inboundConnections (service w) !! id = Some (cwait, call) →
  let build := factory_buildProtocolFor (cw_protocolFactory cwait) tpt in
  (user_raises w build = None →
     ∃ w',
       protocolAndAuthFromId id tpt w
       = (Ok (Some (next_ref w, cw_to cwait, cw_From cwait)), w')
       ∧ inboundConnections (service w') !! id = None
       ∧ dc_cancelled (delayedCalls w' !!! call) = true
       ∧ run_delayed call w' = (Ok (), w')
       ∧ ∀ self, command_VIRTUAL self id w' = (Raise KeyError, w'))
  ∧ (∀ e, user_raises w build = Some e →
     ∃ w',
       protocolAndAuthFromId id tpt w = (Raise e, w')
       ∧ inboundConnections (service w') !! id = None
       ∧ delayedCalls w' = delayedCalls w
       ∧ dc_cancelled (delayedCalls w' !!! call) = false
       ∧ dc_called (delayedCalls w' !!! call) = false).
Proof.
  intros Hnone w Hid build.
  pose proof (res_inv_run_ops ops ws (res_inv_no_reservations _ Hnone)) as [Hr _].
  fold w in Hr.
  destruct (Hr _ _ _ Hid) as (c & Hc & Hcalled & Hcancelled & _).
  pose proof (protocolAndAuthFromId_reserved id tpt cwait call c w Hid Hc Hcalled Hcancelled)
    as Hrun.
  cbv zeta in Hrun. fold build in Hrun. split.
  - intros Hbuild. rewrite Hbuild in Hrun. eexists. split; [exact Hrun |]. simpl.
    split; [apply lookup_delete_eq |].
    assert (Hflag : dc_cancelled
              (<[call := mkDelayedCall (dc_time c) (dc_func c) false true]> (delayedCalls w)
               !!! call) = true) by by rewrite lookup_total_insert_eq.
    split; [done |]. split.
    + by apply run_delayed_cancelled.
    + intros self. apply command_VIRTUAL_unknown. simpl. apply lookup_delete_eq.
  - intros e Hbuild. rewrite Hbuild in Hrun. eexists. split; [exact Hrun |]. simpl.
    split; [apply lookup_delete_eq |]. split; [done |].
    by rewrite (lookup_total_correct _ _ _ Hc).
Qed.

Lemma protocolAndAuthFromId_claims_witness :
  let w := run_ops [OpMapListener (mkQ2QAddress "divmod.com" (Some "radix"))
                      (mkQ2QAddress "divmod.com" (Some "bob")) "q2q-example" 7 false]
             two_connections_world in
  let id := "bob@divmod.com->radix@divmod.com:1" in
  ∃ w',
    protocolAndAuthFromId id 9 w
    = (Ok (Some (next_ref w, mkQ2QAddress "divmod.com" (Some "radix"),
                 mkQ2QAddress "divmod.com" (Some "bob"))), w')
    ∧ inboundConnections (service w') !! id = None
    ∧ dc_cancelled (delayedCalls w' !!! 0) = true
    ∧ run_delayed 0 w' = (Ok (), w')
    ∧ ∀ self, command_VIRTUAL self id w' = (Raise KeyError, w').
Proof.
  apply (proj1 (protocolAndAuthFromId_claims
                  [OpMapListener (mkQ2QAddress "divmod.com" (Some "radix"))
                     (mkQ2QAddress "divmod.com" (Some "bob")) "q2q-example" 7 false]
                  two_connections_world "bob@divmod.com->radix@divmod.com:1" 9
                  (mkConnectionWaiter (mkQ2QAddress "divmod.com" (Some "bob"))
                     (mkQ2QAddress "divmod.com" (Some "radix")) "q2q-example" 7 false)
                  0 no_reservations_two_connections eq_refl)).
  reflexivity.
Defined.

(** X10.  In every world the service can reach, the part of
    [stopService] that deals with reservations runs to its end: no
    [cancel] raises, the table is empty afterwards, and the expiry timer
    of every reservation that was waiting is cancelled, so that its coming
    due does nothing. *)
Theorem stopService_cancels_all ops ws :
  no_reservations ws →
  let w := run_ops ops ws in
  ∃ w',
    stopService w = (Ok (), w')
    ∧ inboundConnections (service w') = ∅
    ∧ ∀ id cwait call,
        inboundConnections (service w) !! id = Some (cwait, call) →
        dc_cancelled (delayedCalls w' !!! call) = true
        ∧ run_delayed call w' = (Ok (), w').
Proof.
  intros Hnone w.
  pose proof (res_inv_run_ops ops ws (res_inv_no_reservations _ Hnone)) as Hinv.
  fold w in Hinv.
  destruct (stopService_run w Hinv) as (w' & Hrun & Hempty & Hcanc & _).
  exists w'. split; [done |]. split; [done |].
  intros id cwait call Hid. pose proof (Hcanc _ _ _ Hid) as Hflag.
  split; [done | by apply run_delayed_cancelled].
Qed.

Lemma stopService_cancels_all_witness :
  let w := run_ops [OpMapListener (mkQ2QAddress "divmod.com" (Some "radix"))
                      (mkQ2QAddress "divmod.com" (Some "bob")) "q2q-example" 7 false;
                    OpMapListener (mkQ2QAddress "divmod.com" (Some "radix"))
                      (mkQ2QAddress "divmod.com" (Some "bob")) "q2q-example" 8 false]
             two_connections_world in
  ∃ w',
    stopService w = (Ok (), w')
    ∧ inboundConnections (service w') = ∅
    ∧ ∀ id cwait call,
        inboundConnections (service w) !! id = Some (cwait, call) →
        dc_cancelled (delayedCalls w' !!! call) = true
        ∧ run_delayed call w' = (Ok (), w').
Proof.
  exact (stopService_cancels_all
           [OpMapListener (mkQ2QAddress "divmod.com" (Some "radix"))
              (mkQ2QAddress "divmod.com" (Some "bob")) "q2q-example" 7 false;
            OpMapListener (mkQ2QAddress "divmod.com" (Some "radix"))
              (mkQ2QAddress "divmod.com" (Some "bob")) "q2q-example" 8 false]
           two_connections_world no_reservations_two_connections).
Defined.

(** ** The certificate store at work *)

Lemma addPrivateCertificate_localStore CS0 name existing CS1 :
  addPrivateCertificate CS0 name existing = Returned CS1 →
  localStore CS1 !! name = Some (default (mkCertificate name name) existing)
  ∧ (∀ other, other ≠ name → localStore CS1 !! other = localStore CS0 !! other)
  ∧ users CS1 = users CS0 ∧ remoteStore CS1 = remoteStore CS0.
Proof.
  unfold addPrivateCertificate. destruct existing as [cert|].
  - intros [= <-]. simpl. rewrite lookup_insert_eq. split; [done |].
    split; [| done]. intros other Hne. by rewrite lookup_insert_ne.
  - destruct (contains at_sign name); [done |].
    intros [= <-]. simpl. rewrite lookup_insert_eq. split; [done |].
    split; [| done]. intros other Hne. by rewrite lookup_insert_ne.
Qed.

(** X11.  Enrolment and signing fit together: once the store holds a
    private certificate for a domain (given, or self-signed) and a user of
    that domain has been added with a secret, SIGN for a request whose
    subject is exactly [CN = user@domain] answers with the request signed
    by that certificate, under the serial number of the domain, if the
    password is the secret, and fails with [KeyError], sent as
    [NoSuchUser], if it is anything else; the service is not changed
    either way, and what else the store held does not matter. *)
Theorem command_SIGN_after_enrolment
  (signRequestObject : Certificate → CertificateRequest → N → Certificate)
  (genSerial : string → N)
  (self : Ref) (req : CertificateRequest) (password secret u d : string)
  (existing : option Certificate) (CS0 CS1 : DefaultCertificateStore) (w : World) :
  getSubject req = {["CN" := u +:+ "@" +:+ d]} →
  contains at_sign u = false → contains at_sign d = false →
  addPrivateCertificate CS0 d existing = Returned CS1 →
  certificateStorage (service w) = addUser CS1 d u secret →
  command_SIGN signRequestObject genSerial self req password w
  = (if decide (password = secret)
     then Ok (signRequestObject (default (mkCertificate d d) existing) req (genSerial d))
     else Raise KeyError,
     w)
  ∧ Sign_errors KeyError = Some "NoSuchUser".
Proof.
  intros Hsubj Hu Hd Hadd Hstore. split; [| done].
  destruct (addPrivateCertificate_localStore _ _ _ _ Hadd) as (Hcert & _ & _ & _).
  case_decide as Hpw.
  - subst password.
    apply (command_SIGN_signs _ _ _ _ _ _ u d); try done.
    + by rewrite Hstore.
    + rewrite Hstore. simpl. apply lookup_insert_eq.
  - apply (command_SIGN_rejected _ _ _ _ _ _ u d); try done.
    unfold checkPrivateSecret, checkUser. rewrite Hstore. simpl.
    rewrite lookup_insert_eq. case_decide as Hne; [done | congruence].
Qed.

Lemma command_SIGN_after_enrolment_witness :
  let store := addUser (mkDefaultCertificateStore ∅
                          {["divmod.com" := mkCertificate "divmod.com" "divmod.com"]} ∅)
                 "divmod.com" "bob" "secret" in
  let w := mkWorld (mkQ2QService store ∅ ∅ 1) ∅ ∅ 0 ∅ [] 0 (λ _, None) [] in
  let req := mkCertificateRequest {["CN" := "bob@divmod.com"]} in
  let sign := λ (ourCert : Certificate) (_ : CertificateRequest) (_ : N),
                mkCertificate (subject_commonName ourCert) "bob@divmod.com" in
  command_SIGN sign (λ _, 7%N) 0 req "guess" w = (Raise KeyError, w)
  ∧ Sign_errors KeyError = Some "NoSuchUser".
Proof.
  apply (command_SIGN_after_enrolment _ _ 0 _ "guess" "secret" "bob" "divmod.com" None
           (mkDefaultCertificateStore ∅ ∅ ∅)
           (mkDefaultCertificateStore ∅
              {["divmod.com" := mkCertificate "divmod.com" "divmod.com"]} ∅)).
  - reflexivity.
  - reflexivity.
  - reflexivity.
  - reflexivity.
  - reflexivity.
Defined.

(** ** Arguments on the wire *)

(** *** Splitting at a separator of two characters *)

Section Split2.

Variables a b : ascii.

Lemma contains2_cons2 c d s :
  contains2 a b (String c (String d s))
  = (Ascii.eqb c a && Ascii.eqb d b) || contains2 a b (String d s).
Proof. reflexivity. Qed.

Lemma split2_cons2 cur c d s :
  split2 a b cur (String c (String d s))
  = if Ascii.eqb c a && Ascii.eqb d b then cur :: split2 a b "" s
    else split2 a b (cur +:+ String c "") (String d s).
Proof. reflexivity. Qed.

Lemma append_snoc (cur : string) c (s : string) :
  (cur +:+ String c "") +:+ s = cur +:+ String c s.
Proof. by rewrite append_assoc', append_cons, append_nil_l. Qed.

(** A string without the separator is one field. *)
Lemma split2_nosep s : ∀ cur, contains2 a b s = false → split2 a b cur s = [cur +:+ s].
Proof.
  induction s as [|c t IH]; intros cur Hs.
  - by rewrite append_empty_r.
  - destruct t as [|d s']; [done |].
    rewrite contains2_cons2 in Hs. apply orb_false_iff in Hs as [Hcd Ht].
    rewrite split2_cons2, Hcd, (IH _ Ht). by rewrite append_snoc.
Qed.

(** A field without the separator, then the separator: the field ends
    there. *)
Lemma split2_app x : ∀ cur rest,
  a ≠ b → contains2 a b x = false →
  split2 a b cur (x +:+ String a (String b rest)) = (cur +:+ x) :: split2 a b "" rest.
Proof.
  induction x as [|c x' IH]; intros cur rest Hab Hx.
  - rewrite append_nil_l, split2_cons2, !Ascii.eqb_refl. simpl.
    by rewrite append_empty_r.
  - rewrite append_cons.
    assert (Hx' : contains2 a b x' = false).
    { destruct x' as [|d x'']; [done |].
      rewrite contains2_cons2 in Hx. by apply orb_false_iff in Hx as [_ ?]. }
    assert (Hstep : ∀ t, x' +:+ String a (String b rest) = t →
              split2 a b cur (String c t) = split2 a b (cur +:+ String c "") t).
    { intros t <-. destruct x' as [|d x''].
      - rewrite append_nil_l, split2_cons2.
        destruct (Ascii.eqb c a); simpl; [| done].
        destruct (Ascii.eqb a b) eqn:Heq; [| done].
        by apply Ascii.eqb_eq in Heq.
      - rewrite append_cons, split2_cons2.
        rewrite contains2_cons2 in Hx. apply orb_false_iff in Hx as [-> _]. done. }
    rewrite (Hstep _ eq_refl), (IH _ _ Hab Hx'). by rewrite append_snoc.
Qed.

Lemma split2_not_nil s : ∀ cur, split2 a b cur s ≠ [].
Proof.
  induction s as [|c t IH]; intros cur; [done |].
  destruct t as [|d s']; [done |]. rewrite split2_cons2.
  destruct (_ && _); [done | apply IH].
Qed.

End Split2.

(** *** Lists of strings *)

Lemma join_cons2 sep x y (l : list string) :
  join sep (x :: y :: l) = x +:+ sep +:+ join sep (y :: l).
Proof. reflexivity. Qed.

Lemma separator_append (s : string) : separator +:+ s = String "," (String " " s).
Proof. reflexivity. Qed.

Lemma comma_not_space : ("," : ascii) ≠ " "%char.
Proof. done. Qed.

Lemma split2_join l : ∀ x,
  Forall (λ s, contains2 "," " " s = false) (x :: l) →
  split2 "," " " "" (join separator (x :: l)) = x :: l.
Proof.
  induction l as [|y l IH]; intros x Hall.
  - apply Forall_cons in Hall as [Hx _]. simpl. by rewrite split2_nosep.
  - apply Forall_cons in Hall as [Hx Hall].
    rewrite join_cons2, separator_append.
    rewrite split2_app by (done || apply comma_not_space).
    by rewrite append_nil_l, IH.
Qed.

Lemma join_empty l :
  join separator l = "" ↔ l = [] ∨ l = [""].
Proof.
  destruct l as [|x [|y l]].
  - split; [by left | done].
  - simpl. split; [intros ->; by right | by intros [|[= ->]]].
  - rewrite join_cons2, separator_append. split.
    + intros Heq. destruct x; rewrite ?append_nil_l, ?append_cons in Heq; done.
    + by intros [|].
Qed.

Lemma existsb_false {A} (f : A → bool) l : existsb f l = false ↔ Forall (λ x, f x = false) l.
Proof.
  induction l as [|x l IH]; simpl; [by split |].
  rewrite orb_false_iff, Forall_cons, IH. done.
Qed.

(** X13.  [SimpleStringList.toString] refuses (by assertion) a list with
    an element that holds the separator, a comma and a space, and joins any
    other list with it.  What it returns, [fromString] reads back as the
    same list, with one exception: the list made of the empty string alone
    is written as the empty string, which reads back as the empty list. *)
Theorem SimpleStringList_roundtrip (l : list string) :
  (Exists (λ s, contains2 "," " " s = true) l →
     SimpleStringList_toString l = Raised AssertionError)
  ∧ (Forall (λ s, contains2 "," " " s = false) l →
     SimpleStringList_toString l = Returned (join separator l)
     ∧ (SimpleStringList_fromString (join separator l) = l ↔ l ≠ [""])).
Proof.
  unfold SimpleStringList_toString. split.
  - intros Hex. apply Exists_exists in Hex as (s & Hin & Hs).
    assert (Htrue : existsb (contains2 "," " ") l = true).
    { apply existsb_exists. exists s. split; [| done]. by apply list_elem_of_In. }
    by rewrite Htrue.
  - intros Hall. rewrite (proj2 (existsb_false _ _) Hall). split; [done |].
    unfold SimpleStringList_fromString. case_decide as Hjoin.
    + apply join_empty in Hjoin as [-> | ->]; [done |]. split; done.
    + destruct l as [|x l]; [done |].
      rewrite (split2_join _ _ Hall). split; [| done].
      intros _ Heq. apply Hjoin. by rewrite Heq.
Qed.

Section Split2Fields.

Variables a b : ascii.

Lemma contains2_snoc_false x c :
  contains2 a b (x +:+ String c "") = false → contains2 a b x = false.
Proof.
  induction x as [|e x' IH]; [done |].
  destruct x' as [|f x'']; [done |].
  rewrite !append_cons, !contains2_cons2.
  intros H. apply orb_false_iff in H as [-> H]. simpl. apply IH.
  by rewrite append_cons.
Qed.

Lemma contains2_app_cons2 x c d y :
  contains2 a b (x +:+ String c (String d y))
  = contains2 a b (x +:+ String c "") || (Ascii.eqb c a && Ascii.eqb d b)
    || contains2 a b (String d y).
Proof.
  induction x as [|e x' IH].
  - rewrite !append_nil_l, contains2_cons2. done.
  - destruct x' as [|f x''].
    + rewrite !append_cons, !append_nil_l, !contains2_cons2.
      change (contains2 a b (String c "")) with false.
      by rewrite orb_false_r, !orb_assoc.
    + rewrite !append_cons, !contains2_cons2.
      rewrite !append_cons in IH. rewrite IH. by rewrite !orb_assoc.
Qed.

(** The fields that [split2] cuts are free of the separator. *)
Lemma split2_fields n : ∀ s cur,
  (String.length s ≤ n)%nat →
  contains2 a b (cur +:+ match s with "" => "" | String c _ => String c "" end) = false →
  Forall (λ x, contains2 a b x = false) (split2 a b cur s).
Proof.
  induction n as [|n IH]; intros s cur Hlen Hinv.
  - destruct s; [| simpl in Hlen; lia].
    rewrite append_empty_r in Hinv. by repeat constructor.
  - destruct s as [|c [|d s']].
    + rewrite append_empty_r in Hinv. by repeat constructor.
    + by repeat constructor.
    + simpl in Hlen. rewrite split2_cons2.
      destruct (Ascii.eqb c a && Ascii.eqb d b) eqn:Hcd.
      * constructor; [by apply (contains2_snoc_false _ c) |].
        apply IH; [lia |]. rewrite append_nil_l. by destruct s'.
      * apply IH; [simpl; lia |].
        rewrite append_snoc, contains2_app_cons2, Hinv, Hcd. done.
Qed.

(** Joining them with the separator gives the string back. *)
Lemma join_split2 n : ∀ s cur,
  (String.length s ≤ n)%nat →
  join (String a (String b "")) (split2 a b cur s) = cur +:+ s.
Proof.
  induction n as [|n IH]; intros s cur Hlen.
  - destruct s; [| simpl in Hlen; lia]. simpl. by rewrite append_empty_r.
  - destruct s as [|c [|d s']].
    + simpl. by rewrite append_empty_r.
    + done.
    + simpl in Hlen. rewrite split2_cons2.
      destruct (Ascii.eqb c a && Ascii.eqb d b) eqn:Hcd.
      * apply andb_true_iff in Hcd as [->%Ascii.eqb_eq ->%Ascii.eqb_eq].
        pose proof (split2_not_nil a b s' "") as Hnil.
        pose proof (IH s' "" ltac:(lia)) as Hjoin.
        destruct (split2 a b "" s') as [|y l]; [done |].
        rewrite join_cons2, Hjoin, append_nil_l. done.
      * rewrite IH by (simpl; lia). by rewrite append_snoc.
Qed.

End Split2Fields.

(** X14.  Read and written back, every string is itself: the fields that
    [SimpleStringList.fromString] cuts never hold the separator, so
    [toString] accepts them, and joining them restores the input. *)
Theorem SimpleStringList_fromString_toString (s : string) :
  SimpleStringList_toString (SimpleStringList_fromString s) = Returned s.
Proof.
  unfold SimpleStringList_fromString, SimpleStringList_toString.
  case_decide as Hs; [by subst |].
  assert (Hfields : Forall (λ x, contains2 "," " " x = false) (split2 "," " " "" s)).
  { apply (split2_fields _ _ (String.length s)); [done |].
    rewrite append_nil_l. by destruct s. }
  rewrite (proj2 (existsb_false _ _) Hfields).
  f_equal. apply (join_split2 "," " " (String.length s)). done.
Qed.

(** *** Hosts and ports *)

Lemma string_of_uint_no_space d : contains " " (NilEmpty.string_of_uint d) = false.
Proof. induction d; simpl; done. Qed.

Lemma str_of_Z_no_colon z : contains ":" (str_of_Z z) = false.
Proof.
  unfold str_of_Z. destruct (Z.to_int z) as [d|d]; simpl.
  - apply string_of_uint_no_colon.
  - apply string_of_uint_no_colon.
Qed.

Lemma str_of_Z_no_space z : contains " " (str_of_Z z) = false.
Proof.
  unfold str_of_Z. destruct (Z.to_int z) as [d|d]; simpl.
  - apply string_of_uint_no_space.
  - apply string_of_uint_no_space.
Qed.

Lemma int_of_decimal_str z : int_of_decimal (str_of_Z z) = Some z.
Proof.
  unfold int_of_decimal, str_of_Z. rewrite NilEmpty.isi. simpl.
  by rewrite DecimalZ.of_to.
Qed.

(** A host without colon, a colon, a port: two fields. *)
Lemma split_host_port host port :
  contains ":" host = false →
  split ":" (host +:+ ":" +:+ str_of_Z port) = [host; str_of_Z port].
Proof.
  intros Hhost. unfold split. apply split_from_two. exists host.
  rewrite append_nil_l. repeat split; [done | apply str_of_Z_no_colon].
Qed.

(** A host with a colon: the split has more than two fields. *)
Lemma split_host_colon host rest x y :
  contains ":" host = true →
  split ":" (host +:+ ":" +:+ rest) ≠ [x; y].
Proof.
  intros Hhost Hsplit. unfold split in Hsplit.
  apply split_from_two in Hsplit as (u & _ & Heq & Hu & Hy).
  destruct (str_partition ":" host) as [[h1 h2]|] eqn:Hp.
  - apply str_partition_Some in Hp as [-> Hh1].
    rewrite append_assoc', append_cons in Heq.
    pose proof (str_partition_first ":" h1 (h2 +:+ ":" +:+ rest) Hh1) as H1.
    pose proof (str_partition_first ":" u y Hu) as H2.
    rewrite Heq, H2 in H1. injection H1 as -> ->.
    rewrite contains_append in Hy. simpl in Hy. by rewrite orb_true_r in Hy.
  - apply str_partition_None in Hp. congruence.
Qed.

(** X15.  Whatever [int] does elsewhere, if it reads the decimal numerals
    that ["%d"] prints, then [HostPort.fromString] gives back the host and
    the port that [HostPort.toString] wrote, for every port and every host
    without a colon.  A host with a colon, as an IPv6 address has, cannot
    make the trip: unpacking the split raises [ValueError]. *)
Theorem HostPort_roundtrip (int : string → option Z) (host : string) (port : Z) :
  (∀ z, int (str_of_Z z) = Some z) →
  (contains ":" host = false →
     HostPort_fromString int (HostPort_toString (host, port)) = Returned (host, port))
  ∧ (contains ":" host = true →
     HostPort_fromString int (HostPort_toString (host, port)) = Raised (Exn ValueError)).
Proof.
  intros Hint. unfold HostPort_fromString, HostPort_toString. simpl. split.
  - intros Hhost. by rewrite split_host_port, Hint.
  - intros Hhost.
    destruct (split ":" (host +:+ ":" +:+ str_of_Z port)) as [|x [|y [|? ?]]] eqn:Hs;
      try done.
    by apply split_host_colon in Hs.
Qed.

Lemma HostPort_roundtrip_witness :
  HostPort_fromString int_of_decimal (HostPort_toString ("1.2.3.4", 4321%Z))
  = Returned ("1.2.3.4", 4321%Z)
  ∧ HostPort_fromString int_of_decimal (HostPort_toString ("::1", 4321%Z))
    = Raised (Exn ValueError).
Proof.
  split.
  - apply (proj1 (HostPort_roundtrip int_of_decimal "1.2.3.4" 4321 int_of_decimal_str)).
    reflexivity.
  - apply (proj2 (HostPort_roundtrip int_of_decimal "::1" 4321 int_of_decimal_str)).
    reflexivity.
Defined.

(** *** Lists of methods *)

Section Contains2.

Variables a b : ascii.

Lemma contains2_no_second y : contains b y = false → contains2 a b y = false.
Proof.
  induction y as [|c t IH]; [done |].
  destruct t as [|d t']; [done |].
  intros H. simpl in H. apply orb_false_iff in H as [_ H].
  rewrite contains2_cons2, (IH H).
  simpl in H. apply orb_false_iff in H as [-> _]. by rewrite andb_false_r.
Qed.

Lemma contains2_no_first x y : contains a x = false → contains2 a b (x +:+ y) = contains2 a b y.
Proof.
  induction x as [|e x' IH]; [done |].
  intros H. simpl in H. apply orb_false_iff in H as [He Hx'].
  rewrite append_cons. specialize (IH Hx').
  destruct (x' +:+ y) as [|d t] eqn:Happ.
  - destruct x'; [| done]. rewrite append_nil_l in Happ. by subst.
  - by rewrite contains2_cons2, He, IH.
Qed.

Lemma contains2_app_false x y :
  contains2 a b x = false → contains2 a b y = false → startswith y b = false →
  contains2 a b (x +:+ y) = false.
Proof.
  intros Hx Hy Hstart. induction x as [|e x' IH]; [done |].
  destruct x' as [|f x''].
  - rewrite append_cons, append_nil_l. destruct y as [|d y']; [done |].
    rewrite contains2_cons2, Hy. simpl in Hstart. by rewrite Hstart, andb_false_r.
  - rewrite contains2_cons2 in Hx. apply orb_false_iff in Hx as [Hef Hx].
    rewrite !append_cons, contains2_cons2, Hef, orb_false_l.
    rewrite <- append_cons. by apply IH.
Qed.

End Contains2.

Section Methods.

Variable int : string → option Z.
Hypothesis int_str : ∀ z, int (str_of_Z z) = Some z.

Lemma host_port_no_separator host port :
  contains2 "," " " host = false →
  contains2 "," " " (host +:+ ":" +:+ str_of_Z port) = false.
Proof.
  intros Hhost. apply contains2_app_false; [done | | done].
  apply contains2_no_second. simpl. apply str_of_Z_no_space.
Qed.

Lemma TCPMethod_init_host_port cls host port :
  contains ":" host = false →
  TCPMethod_init int cls (host +:+ ":" +:+ str_of_Z port) = Returned (cls host port).
Proof. intros Hhost. unfold TCPMethod_init. by rewrite split_host_port, int_str. Qed.

Lemma method_fromString_data name data :
  contains at_sign name = false →
  method_fromString int (name +:+ "@" +:+ data)
  = match _methodFactories int name with
    | None => Returned (UnknownMethod (name +:+ "@" +:+ data))
    | Some methodFactory => methodFactory data
    end.
Proof.
  intros Hname. unfold method_fromString, split_max1.
  change ("@" +:+ data) with (String at_sign data).
  by rewrite (str_partition_first at_sign name data Hname).
Qed.

(** One method written and read back. *)
Lemma method_roundtrip meth :
  wire_method_ok meth →
  ∃ s, Method_toString meth = Returned s
       ∧ contains2 "," " " s = false ∧ s ≠ ""
       ∧ method_fromString int s = Returned meth.
Proof.
  destruct meth as [|host port|host port|host port|S]; simpl; [| | | | done].
  - intros _. exists "virtual". done.
  - intros [Hcolon Hsep]. eexists. split; [done |].
    split; [| split; [done |]].
    + rewrite (contains2_no_first _ _ "tcp") by done.
      rewrite (contains2_no_first _ _ "@") by done.
      by apply host_port_no_separator.
    + rewrite method_fromString_data by done. simpl.
      by apply TCPMethod_init_host_port.
  - intros [Hcolon Hsep]. eexists. split; [done |].
    split; [| split; [done |]].
    + rewrite (contains2_no_first _ _ "ptcp") by done.
      rewrite (contains2_no_first _ _ "@") by done.
      by apply host_port_no_separator.
    + rewrite method_fromString_data by done. simpl.
      by apply TCPMethod_init_host_port.
  - intros [Hcolon Hsep]. eexists. split; [done |].
    split; [| split; [done |]].
    + rewrite (contains2_no_first _ _ "rptcp") by done.
      rewrite (contains2_no_first _ _ "@") by done.
      by apply host_port_no_separator.
    + rewrite method_fromString_data by done. simpl.
      by apply TCPMethod_init_host_port.
Qed.

Lemma methods_roundtrip ms :
  Forall wire_method_ok ms →
  ∃ strings,
    collect Method_toString ms = Returned strings
    ∧ Forall (λ s, contains2 "," " " s = false) strings
    ∧ Forall (λ s, s ≠ "") strings
    ∧ collect (method_fromString int) strings = Returned ms.
Proof.
  induction ms as [|meth ms IH]; intros Hall.
  - exists []. by repeat split.
  - apply Forall_cons in Hall as [Hmeth Hall].
    destruct (method_roundtrip meth Hmeth) as (s & Hs & Hsep & Hne & Hback).
    destruct (IH Hall) as (strings & Hstrings & Hseps & Hnes & Hbacks).
    exists (s :: strings). simpl. rewrite Hs, Hstrings, Hback, Hbacks.
    repeat split; by constructor.
Qed.

End Methods.

Lemma SimpleStringList_fromString_join l :
  Forall (λ s, contains2 "," " " s = false) l → Forall (λ s, s ≠ "") l →
  SimpleStringList_fromString (join separator l) = l.
Proof.
  intros Hsep Hne. unfold SimpleStringList_fromString. case_decide as Hjoin.
  - apply join_empty in Hjoin as [-> | ->]; [done |].
    apply Forall_cons in Hne as [Hne _]. done.
  - destruct l as [|x l]; [done |]. by apply split2_join.
Qed.

(** X16.  Whatever [int] does elsewhere, if it reads the decimal numerals
    that ["%d"] prints, then every list of virtual, TCP, PTCP and RPTCP
    methods whose hosts hold neither a colon nor the list separator is
    written by [MethodsList.toString] and read back by
    [MethodsList.fromString] as the same list, the empty list included. *)
Theorem MethodsList_roundtrip (int : string → option Z) (ms : list Method) :
  (∀ z, int (str_of_Z z) = Some z) →
  Forall wire_method_ok ms →
  ∃ s, MethodsList_toString ms = Returned s
       ∧ MethodsList_fromString int s = Returned ms.
Proof.
  intros Hint Hall.
  destruct (methods_roundtrip int Hint ms Hall) as (strings & Hs & Hsep & Hne & Hback).
  exists (join separator strings). unfold MethodsList_toString, MethodsList_fromString.
  rewrite Hs. unfold SimpleStringList_toString.
  rewrite (proj2 (existsb_false _ _) Hsep). split; [done |].
  by rewrite SimpleStringList_fromString_join.
Qed.

Lemma MethodsList_roundtrip_witness :
  ∃ s, MethodsList_toString [TCPMethod "18.38.12.4" 3827; PTCPMethod "18.38.12.4" 3828;
                             VirtualMethod] = Returned s
       ∧ MethodsList_fromString int_of_decimal s
         = Returned [TCPMethod "18.38.12.4" 3827; PTCPMethod "18.38.12.4" 3828;
                     VirtualMethod].
Proof.
  apply (MethodsList_roundtrip int_of_decimal
           [TCPMethod "18.38.12.4" 3827; PTCPMethod "18.38.12.4" 3828; VirtualMethod]
           int_of_decimal_str).
  repeat constructor.
Defined.

(** The wire form of the docstring of [Inbound], with a method that this
    module does not know. *)
Example MethodsList_fromString_example :
  MethodsList_fromString int_of_decimal
    "tcp@187.48.38.3:49812, udp@187.48.38.3:49814, virtual"
  = Returned [TCPMethod "187.48.38.3" 49812; UnknownMethod "udp@187.48.38.3:49814";
              VirtualMethod].
Proof. vm_compute. reflexivity. Qed.

Lemma collect_toString_unknown ms S :
  UnknownMethod S ∈ ms → collect Method_toString ms = Raised (Exn AttributeError).
Proof.
  induction ms as [|meth ms IH]; intros Hin; [by apply elem_of_nil in Hin |].
  apply elem_of_cons in Hin as [<- | Hin]; [done |].
  simpl. rewrite (IH Hin). by destruct meth.
Qed.

(** X17.  A list that holds an [UnknownMethod] cannot be written:
    [MethodsList.toString] raises [AttributeError], since that class has no
    [toString].  Unknown methods are relayable, so this is what becomes of
    a relayed INBOUND answer: if a listening client's answer names a method
    this module does not know, the entry that
    [_massageClientInboundResponse] puts in the reply still holds it, and
    writing that entry's methods raises. *)
Theorem unknown_method_not_writable (S : string) :
  (∀ ms, UnknownMethod S ∈ ms → MethodsList_toString ms = Raised (Exn AttributeError))
  ∧ (∀ listener cert irl result li,
       transport_peerCertificate listener = Some cert →
       li ∈ irl → UnknownMethod S ∈ li_methods li →
       ∃ e, e ∈ (_massageClientInboundResponse irl listener result).2
            ∧ li_id e = li_id li
            ∧ UnknownMethod S ∈ li_methods e
            ∧ MethodsList_toString (li_methods e) = Raised (Exn AttributeError)).
Proof.
  assert (Hraise : ∀ ms, UnknownMethod S ∈ ms →
            MethodsList_toString ms = Raised (Exn AttributeError)).
  { intros ms Hin. unfold MethodsList_toString.
    by rewrite (collect_toString_unknown ms S Hin). }
  split; [done |].
  intros listener cert irl result li Hcert Hli Hin.
  rewrite (massage_relayed listener cert irl result Hcert). simpl.
  assert (Hkept : UnknownMethod S ∈ filter (λ meth, relayable meth = true) (li_methods li))
    by (by apply list_elem_of_filter).
  destruct (relayed cert li) as [e|] eqn:He.
  - destruct (relayed_Some _ _ _ He) as (_ & Hmethods & _ & Hid & _).
    exists e. split.
    + apply elem_of_app. right. apply list_elem_of_omap. by exists li.
    + rewrite Hmethods. split; [done |]. split; [done |]. by apply Hraise.
  - pose proof (proj1 (relayed_None cert li) He _ Hin) as Hv. done.
Qed.

(** ** Direct connections: the Q2Q line *)

Lemma split_max1_Some sep s x y :
  str_partition sep s = Some (x, y) → split_max1 sep s = [x; y].
Proof. intros H. unfold split_max1. by rewrite H. Qed.

Lemma split_max1_None sep s : str_partition sep s = None → split_max1 sep s = [s].
Proof. intros H. unfold split_max1. by rewrite H. Qed.

(** X18.  A listener that has no protocol yet keeps what it receives
    until a line ends.  Then: a line whose first word is [Q2Q] and whose
    rest is an id without reservation raises [TypeError], from unpacking
    the [None] that [protocolAndAuthFromId] returns, and the transport is
    not told to close; a line with another first word makes the listener
    call [loseConnection] on its transport and return; a line without a
    space raises [ValueError].  In none of these cases does the service
    change, and the line stays in the buffer. *)
Theorem Q2QTCPListener_line (self : Ref) (l : Q2QTCPListener) (data : string) (w : World) :
  subProtocol l = None →
  let l1 := mkQ2QTCPListener (buf l +:+ data) None (q2qhost l) (q2qpeer l)
              (transport_lost l) in
  (partition2 CR LF (buf l +:+ data) = None →
     Q2QTCPListener_dataReceived self l data w = (Returned (), l1, w))
  ∧ (∀ intro rest,
       partition2 CR LF (buf l +:+ data) = Some (intro, rest) →
       (∀ id, str_partition " " intro = Some ("Q2Q", id) →
              inboundConnections (service w) !! id = None →
              Q2QTCPListener_dataReceived self l data w = (Raised TypeError, l1, w))
       ∧ (∀ command id,
            str_partition " " intro = Some (command, id) → command ≠ "Q2Q" →
            Q2QTCPListener_dataReceived self l data w
            = (Returned (),
               mkQ2QTCPListener (buf l +:+ data) None (q2qhost l) (q2qpeer l) true, w))
       ∧ (str_partition " " intro = None →
            Q2QTCPListener_dataReceived self l data w = (Raised (Exn ValueError), l1, w))).
Proof.
  intros Hsub l1. unfold Q2QTCPListener_dataReceived. rewrite Hsub. simpl. split.
  - by intros ->.
  - intros intro rest ->. split; [| split].
    + intros id Hp Hid. rewrite (split_max1_Some _ _ _ _ Hp).
      rewrite decide_False by (by intros H; apply H).
      by rewrite (protocolAndAuthFromId_unknown _ _ _ Hid).
    + intros command id Hp Hne. rewrite (split_max1_Some _ _ _ _ Hp).
      by rewrite decide_True.
    + intros Hp. by rewrite (split_max1_None _ _ Hp).
Qed.

Lemma Q2QTCPListener_line_witness :
  Q2QTCPListener_dataReceived 9 Q2QTCPListener_new
    ("Q2Q no-such-id" +:+ String CR (String LF "")) divmod_world
  = (Raised TypeError,
     mkQ2QTCPListener ("Q2Q no-such-id" +:+ String CR (String LF "")) None None None false,
     divmod_world)
  ∧ Q2QTCPListener_dataReceived 9 Q2QTCPListener_new
      ("GET /" +:+ String CR (String LF "")) divmod_world
    = (Returned (),
       mkQ2QTCPListener ("GET /" +:+ String CR (String LF "")) None None None true,
       divmod_world).
Proof.
  split.
  - exact (proj1 (proj2 (Q2QTCPListener_line 9 Q2QTCPListener_new
                           ("Q2Q no-such-id" +:+ String CR (String LF "")) divmod_world
                           eq_refl)
                    "Q2Q no-such-id" "" eq_refl)
             "no-such-id" eq_refl eq_refl).
  - apply (proj1 (proj2 (proj2 (Q2QTCPListener_line 9 Q2QTCPListener_new
                                  ("GET /" +:+ String CR (String LF "")) divmod_world
                                  eq_refl)
                           "GET /" "" eq_refl))
             "GET" "/" eq_refl).
    done.
Defined.

(** X19.  In every world the service can reach, a listener without
    protocol that receives the end of a line [Q2Q id] for a reserved id,
    when the waiting factory builds a protocol and that protocol accepts
    the connection and the bytes, returns normally with the protocol as its
    [subProtocol] and the reservation's [to] and [From] as its host and
    peer; the reservation has left the table and its timer is cancelled;
    the protocol was built, then connected, then given the bytes after the
    line if there are any, and nothing else was called. *)
Theorem Q2QTCPListener_splices ops ws self l data intro rest id cwait call :
  no_reservations ws →
  let w := run_ops ops ws in
  let proto := next_ref w in
  let build := factory_buildProtocolFor (cw_protocolFactory cwait) self in
  subProtocol l = None →
  partition2 CR LF (buf l +:+ data) = Some (intro, rest) →
  str_partition " " intro = Some ("Q2Q", id) →
  inboundConnections (service w) !! id = Some (cwait, call) →
  user_raises w build = None →
  user_raises w (protocol_makeConnection proto self) = None →
  user_raises w (protocol_dataReceived proto rest) = None →
  ∃ w',
    Q2QTCPListener_dataReceived self l data w
    = (Returned (),
       mkQ2QTCPListener (buf l +:+ data) (Some proto) (Some (cw_to cwait))
         (Some (cw_From cwait)) (transport_lost l),
       w')
    ∧ inboundConnections (service w') !! id = None
    ∧ dc_cancelled (delayedCalls w' !!! call) = true
    ∧ trace w'
      = trace w ++ [EvUser build; EvUser (protocol_makeConnection proto self)]
          ++ (if decide (rest ≠ "") then [EvUser (protocol_dataReceived proto rest)]
              else []).
Proof.
  intros Hnone w proto build Hsub Hline Hword Hid Hbuild Hmake Hdata.
  pose proof (res_inv_run_ops ops ws (res_inv_no_reservations _ Hnone)) as [Hr _].
  fold w in Hr.
  destruct (Hr _ _ _ Hid) as (c & Hc & Hcalled & Hcancelled & _).
  pose proof (protocolAndAuthFromId_reserved id self cwait call c w Hid Hc Hcalled Hcancelled)
    as Hrun.
  cbv zeta in Hrun. fold build in Hrun. rewrite Hbuild in Hrun.
  unfold Q2QTCPListener_dataReceived. rewrite Hsub. simpl.
  rewrite Hline, (split_max1_Some _ _ _ _ Hword).
  rewrite decide_False by (by intros H; apply H).
  rewrite Hrun. fold proto. rewrite call_user_run. simpl. rewrite Hmake.
  case_decide as Hrest.
  - rewrite call_user_run. simpl. rewrite Hdata. eexists. split; [reflexivity |].
    simpl. split; [apply lookup_delete_eq |].
    split; [by rewrite lookup_total_insert_eq |].
    by rewrite <- !app_assoc.
  - eexists. split; [reflexivity |].
    simpl. split; [apply lookup_delete_eq |].
    split; [by rewrite lookup_total_insert_eq |].
    by rewrite <- !app_assoc.
Qed.

Lemma Q2QTCPListener_splices_witness :
  let w := run_ops [OpMapListener (mkQ2QAddress "divmod.com" (Some "radix"))
                      (mkQ2QAddress "divmod.com" (Some "bob")) "q2q-example" 7 false]
             two_connections_world in
  let data := "Q2Q bob@divmod.com->radix@divmod.com:1" +:+ String CR (String LF "HELLO") in
  ∃ w',
    Q2QTCPListener_dataReceived 9 Q2QTCPListener_new data w
    = (Returned (),
       mkQ2QTCPListener data (Some (next_ref w))
         (Some (mkQ2QAddress "divmod.com" (Some "radix")))
         (Some (mkQ2QAddress "divmod.com" (Some "bob"))) false,
       w')
    ∧ inboundConnections (service w') !! "bob@divmod.com->radix@divmod.com:1" = None
    ∧ dc_cancelled (delayedCalls w' !!! 0) = true
    ∧ trace w'
      = trace w ++ [EvUser (factory_buildProtocolFor 7 9);
                    EvUser (protocol_makeConnection (next_ref w) 9)]
          ++ [EvUser (protocol_dataReceived (next_ref w) "HELLO")].
Proof.
  exact (Q2QTCPListener_splices
           [OpMapListener (mkQ2QAddress "divmod.com" (Some "radix"))
              (mkQ2QAddress "divmod.com" (Some "bob")) "q2q-example" 7 false]
           two_connections_world 9 Q2QTCPListener_new
           ("Q2Q bob@divmod.com->radix@divmod.com:1" +:+ String CR (String LF "HELLO"))
           "Q2Q bob@divmod.com->radix@divmod.com:1" "HELLO"
           "bob@divmod.com->radix@divmod.com:1"
           (mkConnectionWaiter (mkQ2QAddress "divmod.com" (Some "bob"))
              (mkQ2QAddress "divmod.com" (Some "radix")) "q2q-example" 7 false)
           0 no_reservations_two_connections
           eq_refl eq_refl eq_refl eq_refl eq_refl eq_refl eq_refl).
Defined.
